(** * The Malz volatility-smile notebook, embedded in Rocq

    Source: [crypto_research/malz_vol_smile_approximation.ipynb], a Python 3.7
    notebook on top of pandas and numpy.  The notebook

    - restricts a frame of option quotes to one expiry and buckets the deltas
      (the "quote normaliser"),
    - averages mid implied volatilities into three markers,
    - derives risk reversal and butterfly from the markers,
    - evaluates the Malz parabola [put_delta_iv] on [np.arange(0.01, 1, 0.01)]
      and maps not-a-number samples to [0].

    Numbers.  The notebook computes in IEEE 754 binary64, and so does the
    embedding: its numbers are the kernel's [float]s, every operation rounds,
    and not-a-number and the infinities are values.  The formulas of the
    specification are over the real numbers; a statement that compares the
    two goes through [to_R], the real number a finite float stands for, and
    bounds the rounding error of each operation.

    Frames.  A pandas frame is the list of its rows, a column is [map] of a
    field, [df[mask]] is [select], and a cell that can raise returns a
    [result]. *)

From Stdlib Require Import ZArith List Bool String Floats Reals Lra Lia Sorted.
From Stdlib Require Import Permutation.
Import ListNotations.

(* ================================================================== *)
(** * Numbers *)

Declare Scope num_scope.
Delimit Scope num_scope with num.

(** The operators the notebook applies to numbers: [+ - * /] and the
    conversion of a Python [int] literal. *)
Class Arith (F : Type) : Type := {
  add : F -> F -> F;
  sub : F -> F -> F;
  mul : F -> F -> F;
  div : F -> F -> F;
  of_int : Z -> F
}.

Infix "+" := add : num_scope.
Infix "-" := sub : num_scope.
Infix "*" := mul : num_scope.
Infix "/" := div : num_scope.

Section Generic.
Context {F : Type} `{Arith F}.
Local Open Scope num_scope.

(** A decimal literal [m]e-[k], such as [0.50] = [lit 50 2] and
    [0.01] = [lit 1 2].  Both integers are exact, and a correctly rounded
    quotient of exact operands is the number a correctly rounded parser
    returns. *)
Definition lit (m : Z) (k : nat) : F := of_int m / of_int (10 ^ Z.of_nat k).

(** [x ** n] for a literal [n >= 1]: [x ** 2] is [x * x] (on floats the
    product rounded once; the C library's [pow] may differ from it in the
    last place). *)
Fixpoint power (x : F) (n : nat) : F :=
  match n with
  | O => of_int 1
  | S O => x
  | S n' => x * power x n'
  end.

(** Cell 4 of the notebook:
<<
def put_delta_iv(delta, rr, fly, atm):
  return(atm + 2*rr*(delta-0.50) + 16*fly*((delta-0.50))**2)
>> *)
Definition put_delta_iv (delta rr fly atm : F) : F :=
  atm + of_int 2 * rr * (delta - lit 50 2)
      + of_int 16 * fly * power (delta - lit 50 2) 2.

(** Cell 3: [rr25D_iv = call_25D_iv - put_25D_iv]. *)
Definition rr25D_iv (call_25D_iv put_25D_iv : F) : F :=
  call_25D_iv - put_25D_iv.

(** Cell 3: [fly25D_iv = (call_25D_iv + put_25D_iv)/2 - atm_iv]. *)
Definition fly25D_iv (call_25D_iv put_25D_iv atm_iv : F) : F :=
  (call_25D_iv + put_25D_iv) / of_int 2 - atm_iv.
End Generic.

(** Binary64: the rounded operations of the kernel's floats.  A Python [int]
    becomes the nearest float. *)
Module Binary64.
Definition of_Z (z : Z) : float := SF2Prim (binary_normalize prec emax z 0 false).

(** Magnitude [m * 2^e] rounded to the nearest integer, halves to even. *)
Definition nearest_even (m : positive) (e : Z) : Z :=
  if (0 <=? e)%Z then (Z.pos m * 2 ^ e)%Z
  else
    let d := (2 ^ (- e))%Z in
    let q := (Z.pos m / d)%Z in
    let r := (Z.pos m mod d)%Z in
    if (2 * r <? d)%Z then q
    else if (d <? 2 * r)%Z then (q + 1)%Z
    else if Z.even q then q else (q + 1)%Z.

(** The integer value of a finite float rounded half to even; [None] on
    infinities and not-a-number. *)
Definition to_Z_nearest (x : float) : option Z :=
  match Prim2SF x with
  | S754_zero _ => Some 0%Z
  | S754_finite s m e =>
      let n := nearest_even m e in Some (if s then (- n)%Z else n)
  | _ => None
  end.

(** The least integer not below a finite float. *)
Definition to_Z_ceil (x : float) : option Z :=
  match Prim2SF x with
  | S754_zero _ => Some 0%Z
  | S754_finite s m e =>
      if (0 <=? e)%Z then
        Some (if s then (- (Z.pos m * 2 ^ e))%Z else (Z.pos m * 2 ^ e)%Z)
      else
        let d := (2 ^ (- e))%Z in
        Some (if s then (- (Z.pos m / d))%Z else (- ((- Z.pos m) / d))%Z)
  | _ => None
  end.

(** C's [rint] in the default rounding mode: an integral float, the sign of
    the argument kept on a zero result. *)
Definition rint (x : float) : float :=
  match Prim2SF x with
  | S754_finite s m e =>
      let n := nearest_even m e in
      if (n =? 0)%Z then (if s then (- 0)%float else 0%float)
      else of_Z (if s then (- n)%Z else n)
  | _ => x
  end.

(** Neither an infinity nor not-a-number. *)
Definition is_finite (x : float) : bool :=
  match Prim2SF x with
  | S754_zero _ | S754_finite _ _ _ => true
  | _ => false
  end.
End Binary64.

#[export] Instance float_arith : Arith float := {|
  add := PrimFloat.add; sub := PrimFloat.sub; mul := PrimFloat.mul;
  div := PrimFloat.div; of_int := Binary64.of_Z
|}.

(** ** The real number a float stands for *)

(** Two to the power [e]. *)
Definition bpow (e : Z) : R := powerRZ 2 e.

Definition cond_Ropp (s : bool) (x : R) : R := if s then (- x)%R else x.

(** The value [+- m * 2^e] of a finite float.  The zeros are 0; so are, by
    convention, the infinities and not-a-number, which the statements keep
    apart with [Binary64.is_finite]. *)
Definition SF2R (x : spec_float) : R :=
  match x with
  | S754_finite s m e => cond_Ropp s (IZR (Z.pos m) * bpow e)
  | _ => 0%R
  end.

Definition to_R (x : float) : R := SF2R (Prim2SF x).

Definition SFfinite (x : spec_float) : bool :=
  match x with
  | S754_zero _ | S754_finite _ _ _ => true
  | _ => false
  end.

(** What the round and sticky bits [r] and [s] of a shifted mantissa [m] say
    of the real [x] that is being rounded: [x] is [m], or strictly between
    [m] and [m + 1/2], or [m + 1/2], or strictly between [m + 1/2] and
    [m + 1]. *)
Definition inb (m : Z) (r s : bool) (x : R) : Prop :=
  match r, s with
  | false, false => x = IZR m
  | false, true => (IZR m < x < IZR m + / 2)%R
  | true, false => x = (IZR m + / 2)%R
  | true, true => (IZR m + / 2 < x < IZR m + 1)%R
  end.

Definition inb_rec (rec : shr_record) (x : R) : Prop :=
  inb (shr_m rec) (shr_r rec) (shr_s rec) x.

(** [v] is [x] up to a relative error [k] on the scale [W] and an absolute
    error [a]. *)
Definition near (v x W k a : R) : Prop := (Rabs (v - x) <= k * W + a)%R.

(** ** The evaluator and the library behind [**] *)

(** Cell 4 once more, with the function [x -> x ** 2] as a parameter.  On
    floats Python and numpy hand [**] to the C library's [pow], which is not
    part of the notebook; [put_delta_iv] above is the instance where the
    square is the product rounded once. *)
Definition put_delta_iv_with (sq : float -> float) (delta rr fly atm : float) : float :=
  (atm + of_int 2 * rr * (delta - lit 50 2)
       + of_int 16 * fly * sq (delta - lit 50 2))%num.

(** What is asked of the library: on finite arguments of magnitude at most 1
    the square is finite and within one unit in the last place of the exact
    square (relative error [2^-52], or [2^-1074] when the square is
    subnormal). *)
Definition sq_accurate (sq : float -> float) : Prop :=
  forall x, Binary64.is_finite x = true -> (Rabs (to_R x) <= 1)%R ->
    Binary64.is_finite (sq x) = true /\
    (Rabs (to_R (sq x) - to_R x * to_R x)
     <= bpow (-52) * (to_R x * to_R x) + bpow (-1074))%R.

(** The square does not look at the sign. *)
Definition sq_even (sq : float -> float) : Prop :=
  forall x, sq (- x)%float = sq x.

(** ** The formulas of the specification, over the reals *)

(** [iv(delta) = atm_iv + 2 * risk_reversal * (delta - 0.5)
                 + 16 * butterfly * (delta - 0.5)^2]. *)
Definition iv_spec (delta risk_reversal butterfly atm_iv : R) : R :=
  (atm_iv + 2 * risk_reversal * (delta - 0.5)
          + 16 * butterfly * (delta - 0.5) ^ 2)%R.

(** [risk_reversal = call25_iv - put25_iv]. *)
Definition risk_reversal_spec (call25_iv put25_iv : R) : R :=
  (call25_iv - put25_iv)%R.

(** [butterfly = (call25_iv + put25_iv) / 2 - atm_iv]. *)
Definition butterfly_spec (call25_iv put25_iv atm_iv : R) : R :=
  ((call25_iv + put25_iv) / 2 - atm_iv)%R.

(* ================================================================== *)
(** * The Python runtime the notebook relies on *)

(** Exceptions.  The notebook defines no exception class of its own; a class
    a program defines is a [UserDefined] name. *)
Inductive exn : Type :=
| IndexError
| ValueError
| OverflowError
| UserDefined (name : string).

Inductive result (A : Type) : Type :=
| Ok (a : A)
| Raise (e : exn).

Arguments Ok {A} a.
Arguments Raise {A} e.

Definition bind {A B : Type} (c : result A) (k : A -> result B) : result B :=
  match c with
  | Ok a => k a
  | Raise e => Raise e
  end.

Notation "x <- c ;; k" := (bind c (fun x => k))
  (at level 61, c at next level, right associativity).

(** [l[i]] on a Python list; a negative index counts from the end. *)
Definition getitem {A : Type} (l : list A) (i : Z) : result A :=
  let n := Z.of_nat (List.length l) in
  let j := if (i <? 0)%Z then (n + i)%Z else i in
  if ((0 <=? j) && (j <? n))%Z%bool then
    match nth_error l (Z.to_nat j) with
    | Some a => Ok a
    | None => Raise IndexError
    end
  else Raise IndexError.

(** [math.isnan]. *)
Definition isnan (x : float) : bool := PrimFloat.is_nan x.

(** [round(x)] of a float: a Python [int], halves to even; not-a-number and
    the infinities cannot be converted ([float.__round__]; a numpy scalar
    that answers with the rounded float instead answers the same number). *)
Definition py_round (x : float) : result Z :=
  match Binary64.to_Z_nearest x with
  | Some n => Ok n
  | None => if isnan x then Raise ValueError else Raise OverflowError
  end.

(** CPython 3.7's [set] of [int]s ([Objects/setobject.c]), without deletion:
    an open-addressing table whose slot order is the iteration order. *)
Module PySet.
Definition PySet_MINSIZE : Z := 8.
Definition LINEAR_PROBES : Z := 9.
Definition PERTURB_SHIFT : Z := 5.
Definition PyHASH_MODULUS : Z := 2 ^ 61 - 1.

(** [hash(n)] of an [int]. *)
Definition hash (n : Z) : Z :=
  let h := (Z.sgn n * (Z.abs n mod PyHASH_MODULUS))%Z in
  if (h =? -1)%Z then (-2)%Z else h.

(** [(size_t)hash]. *)
Definition size_t (h : Z) : Z := (h mod 2 ^ 64)%Z.

Record setobject : Type := {
  fill : Z;
  used : Z;
  mask : Z;
  table : list (option Z)
}.

Definition slot (tbl : list (option Z)) (i : Z) : option Z :=
  nth (Z.to_nat i) tbl None.

Fixpoint store (tbl : list (option Z)) (i : nat) (key : Z) : list (option Z) :=
  match tbl, i with
  | [], _ => []
  | _ :: t, O => Some key :: t
  | e :: t, S i' => e :: store t i' key
  end.

Inductive probe : Type :=
| Unused (i : Z)
| Active
| Exhausted.

(** The [LINEAR_PROBES] entries after [i], looking for [key]. *)
Fixpoint linear_probes (tbl : list (option Z)) (key i : Z) (j : nat) : option probe :=
  match j with
  | O => None
  | S j' =>
      match slot tbl (i + 1) with
      | None => Some (Unused (i + 1))
      | Some k =>
          if (k =? key)%Z then Some Active
          else linear_probes tbl key (i + 1) j'
      end
  end.

(** The probe loop of [set_add_entry], from slot [i]. *)
Fixpoint lookkey (fuel : nat) (tbl : list (option Z)) (msk key i perturb : Z) : probe :=
  match fuel with
  | O => Exhausted
  | S fuel' =>
      match slot tbl i with
      | None => Unused i
      | Some k =>
          if (k =? key)%Z then Active
          else
            match (if (i + LINEAR_PROBES <=? msk)%Z
                   then linear_probes tbl key i (Z.to_nat LINEAR_PROBES)
                   else None) with
            | Some r => r
            | None =>
                let perturb' := Z.shiftr perturb PERTURB_SHIFT in
                let i' := Z.land (i * 5 + 1 + perturb') msk in
                lookkey fuel' tbl msk key i' perturb'
            end
      end
  end.

(** The [LINEAR_PROBES] entries after [i], looking for a free one. *)
Fixpoint linear_free (tbl : list (option Z)) (i : Z) (j : nat) : option Z :=
  match j with
  | O => None
  | S j' =>
      match slot tbl (i + 1) with
      | None => Some (i + 1)%Z
      | Some _ => linear_free tbl (i + 1) j'
      end
  end.

(** The probe loop of [set_insert_clean]: no key of the table equals the
    one inserted. *)
Fixpoint free_slot (fuel : nat) (tbl : list (option Z)) (msk i perturb : Z) : option Z :=
  match fuel with
  | O => None
  | S fuel' =>
      match slot tbl i with
      | None => Some i
      | Some _ =>
          match (if (i + LINEAR_PROBES <=? msk)%Z
                 then linear_free tbl i (Z.to_nat LINEAR_PROBES)
                 else None) with
          | Some j => Some j
          | None =>
              let perturb' := Z.shiftr perturb PERTURB_SHIFT in
              let i' := Z.land (i * 5 + 1 + perturb') msk in
              free_slot fuel' tbl msk i' perturb'
          end
      end
  end.

(** Probe sequences visit every slot once [perturb] has run out (13 shifts
    of a 64-bit word), so this many rounds find a free slot. *)
Definition rounds (msk : Z) : nat := Z.to_nat msk + 16.

Definition set_insert_clean (msk : Z) (tbl : list (option Z)) (key : Z) : list (option Z) :=
  let h := size_t (hash key) in
  match free_slot (rounds msk) tbl msk (Z.land h msk) h with
  | Some i => store tbl (Z.to_nat i) key
  | None => tbl
  end.

(** The keys of a table, in slot order. *)
Fixpoint keys (tbl : list (option Z)) : list Z :=
  match tbl with
  | [] => []
  | Some k :: t => k :: keys t
  | None :: t => keys t
  end.

(** [set_table_resize]: the least power of two above [minused], at least
    [PySet_MINSIZE], and every key inserted again in slot order. *)
Definition set_table_resize (so : setobject) (minused : Z) : setobject :=
  let newsize := Z.max PySet_MINSIZE (2 ^ (Z.log2 minused + 1)) in
  let newmask := (newsize - 1)%Z in
  {| fill := used so;
     used := used so;
     mask := newmask;
     table := fold_left (set_insert_clean newmask) (keys (table so))
                        (repeat None (Z.to_nat newsize)) |}.

(** [set_add_key]. *)
Definition set_add_key (so : setobject) (key : Z) : setobject :=
  let h := size_t (hash key) in
  match lookkey (rounds (mask so)) (table so) (mask so) key (Z.land h (mask so)) h with
  | Unused i =>
      let so' := {| fill := fill so + 1;
                    used := used so + 1;
                    mask := mask so;
                    table := store (table so) (Z.to_nat i) key |} in
      if (fill so' * 5 <? mask so' * 3)%Z then so'
      else set_table_resize so'
             (if (50000 <? used so')%Z then used so' * 2 else used so' * 4)%Z
  | Active | Exhausted => so
  end.

Definition empty : setobject :=
  {| fill := 0; used := 0; mask := PySet_MINSIZE - 1;
     table := repeat None (Z.to_nat PySet_MINSIZE) |}.

(** [set(xs)]. *)
Definition of_list (xs : list Z) : setobject := fold_left set_add_key xs empty.

(** [list(so)]. *)
Definition to_list (so : setobject) : list Z := keys (table so).
End PySet.

(** What the statements on the set use: the probe sequence of a hash as a
    sequence of its own, the recurrence it ends in once [perturb] has run
    out, and the invariant of a set object. *)
Module PySetInv.
Import PySet.
Local Open Scope Z_scope.

(** One round of the probe loop on the pair (slot, perturb). *)
Definition probe_step (msk : Z) (ip : Z * Z) : Z * Z :=
  let p' := Z.shiftr (snd ip) PERTURB_SHIFT in
  (Z.land (fst ip * 5 + 1 + p') msk, p').

Fixpoint probe_iter (msk : Z) (n : nat) (ip : Z * Z) : Z * Z :=
  match n with
  | O => ip
  | S n' => probe_iter msk n' (probe_step msk ip)
  end.

(** The recurrence [i -> 5*i + 1] on a table of [2^k] slots. *)
Definition lcg (k : nat) (x : Z) : Z := (5 * x + 1) mod 2 ^ Z.of_nat k.

Fixpoint lcg_iter (k : nat) (n : nat) (x : Z) : Z :=
  match n with
  | O => x
  | S n' => lcg_iter k n' (lcg k x)
  end.

(** The probe loop finds the key in the table. *)
Definition findable (msk : Z) (tbl : list (option Z)) (key : Z) : Prop :=
  lookkey (rounds msk) tbl msk key
          (Z.land (size_t (hash key)) msk) (size_t (hash key)) = Active.

(** A table of [2^k] slots: its keys are distinct and each is found. *)
Record table_ok (k : nat) (tbl : list (option Z)) : Prop := {
  ok_length : List.length tbl = Z.to_nat (2 ^ Z.of_nat k);
  ok_nodup : NoDup (keys tbl);
  ok_findable : forall key, In key (keys tbl) -> findable (2 ^ Z.of_nat k - 1) tbl key
}.

(** A set object: a good table, the counters equal to the number of its
    keys, and the load below the threshold of [set_add_entry]. *)
Definition wf (so : setobject) : Prop :=
  exists k : nat,
    (3 <= k)%nat /\
    mask so = 2 ^ Z.of_nat k - 1 /\
    table_ok k (table so) /\
    fill so = Z.of_nat (List.length (keys (table so))) /\
    used so = fill so /\
    fill so * 5 < mask so * 3.
End PySetInv.

(* ================================================================== *)
(** * pandas and numpy *)

(** A column of a frame. *)
Definition col {A B : Type} (f : A -> B) (df : list A) : list B := map f df.

(** [df[mask]]: the rows whose mask entry is [True]. *)
Fixpoint select {A : Type} (df : list A) (mask : list bool) : list A :=
  match df, mask with
  | r :: df', b :: mask' => if b then r :: select df' mask' else select df' mask'
  | _, _ => []
  end.

(** Elementwise [&] and [|] of two masks. *)
Fixpoint mask_and (a b : list bool) : list bool :=
  match a, b with
  | x :: a', y :: b' => (x && y) :: mask_and a' b'
  | _, _ => []
  end.

Fixpoint mask_or (a b : list bool) : list bool :=
  match a, b with
  | x :: a', y :: b' => (x || y) :: mask_or a' b'
  | _, _ => []
  end.

(** [Series.mean()]: not-a-number entries are skipped ([skipna=True]); the
    mean of nothing is not-a-number.  The sum is taken left to right, as
    pandas does through bottleneck's [nanmean]; where pandas sums with numpy
    instead, columns of 8 rows or more are added pairwise, which moves the
    result by rounding errors only. *)
Definition mean (xs : list float) : float :=
  let ys := filter (fun x => negb (isnan x)) xs in
  match ys with
  | [] => nan
  | _ => (fold_left PrimFloat.add ys 0 / Binary64.of_Z (Z.of_nat (List.length ys)))%float
  end.

(** [np.around(x, decimals)] on a float ([multiarray/calculation.c]): scale by
    a power of ten, [rint], scale back; division first when [decimals < 0]. *)
Definition around (x : float) (decimals : Z) : float :=
  if (decimals =? 0)%Z then Binary64.rint x
  else if (0 <? decimals)%Z then
    let f := Binary64.of_Z (10 ^ decimals) in (Binary64.rint (x * f) / f)%float
  else
    let f := Binary64.of_Z (10 ^ (- decimals)) in (Binary64.rint (x / f) * f)%float.

(** [np.arange(start, stop, step)] on floats ([multiarray/ctors.c]): the
    length is [ceil((stop - start)/step)]; the first two entries are [start]
    and [start + step], and entry [i] is [start + i*delta] for the [delta]
    measured between those two. *)
Definition arange (start stop step : float) : result (list float) :=
  let value := ((stop - start) / step)%float in
  match Binary64.to_Z_ceil value with
  | None => if isnan value then Raise ValueError else Raise OverflowError
  | Some len =>
      if (2 ^ 63 <=? len)%Z then Raise OverflowError
      else
        let next := (start + step)%float in
        let delta := (next - start)%float in
        Ok (map (fun i : nat =>
                   match i with
                   | O => start
                   | S O => next
                   | _ => (start + Binary64.of_Z (Z.of_nat i) * delta)%float
                   end)
                (seq 0 (Z.to_nat len)))
  end.

(* ================================================================== *)
(** * The notebook *)

(** One row of [options_data.csv] once the [greeks] column is flattened. *)
Record Quote : Type := {
  option_type : string;
  instrument_name : string;
  strike : float;
  mark_iv : float;
  bid_iv : float;
  ask_iv : float;
  underlying_price : float;
  expiration_timestamp : Z;
  delta : float
}.

(** A row after [df['mid_iv'] = (df.bid_iv + df.ask_iv)/2]. *)
Record Row : Type := {
  quote :> Quote;
  mid_iv : float
}.

Definition with_mid_iv (q : Quote) : Row :=
  {| quote := q; mid_iv := ((bid_iv q + ask_iv q) / of_int 2)%num |}.

(** [frame['delta'] = ...] on one row. *)
Definition set_delta (r : Row) (d : float) : Row :=
  {| quote := {| option_type := option_type r;
                 instrument_name := instrument_name r;
                 strike := strike r;
                 mark_iv := mark_iv r;
                 bid_iv := bid_iv r;
                 ask_iv := ask_iv r;
                 underlying_price := underlying_price r;
                 expiration_timestamp := expiration_timestamp r;
                 delta := d |};
     mid_iv := mid_iv r |}.

(** ** Cell 2: the quote normaliser *)

(** [maturities = list(set(df.expiration_timestamp))]. *)
Definition maturities (df : list Quote) : list Z :=
  PySet.to_list (PySet.of_list (col expiration_timestamp df)).

(** [df[df.expiration_timestamp == m]]. *)
Definition restrict_expiry (df : list Quote) (m : Z) : list Quote :=
  select df (map (fun t => (t =? m)%Z) (col expiration_timestamp df)).

(** [(calls.delta*100).round(-1)] and [(abs(puts.delta)*100).round(-1)]. *)
Definition call_bucket (d : float) : float := around (d * of_int 100)%num (-1).
Definition put_bucket (d : float) : float := around (abs d * of_int 100)%num (-1).

(** The frames the cell leaves behind. *)
Record Frames : Type := {
  df : list Row;
  calls : list Row;
  puts : list Row
}.

(** The rest of the cell once the expiry [m] is chosen. *)
Definition frames_at (raw : list Quote) (m : Z) : Frames :=
  let df := map with_mid_iv (restrict_expiry raw m) in
  let calls := select df (map (fun t => String.eqb t "call") (col (fun r : Row => option_type r) df)) in
  let puts := select df (map (fun t => String.eqb t "put") (col (fun r : Row => option_type r) df)) in
  {| df := df;
     calls := map (fun r => set_delta r (call_bucket (delta r))) calls;
     puts := map (fun r => set_delta r (put_bucket (delta r))) puts |}.

(** The expiry is [maturities[0]]. *)
Definition normalizer (raw : list Quote) : result Frames :=
  m0 <- getitem (maturities raw) 0 ;;
  Ok (frames_at raw m0).

(** ** Cell 3: markers and parameters *)

(** [avg_price = round(df.underlying_price.mean())]. *)
Definition avg_price (fr : Frames) : result Z :=
  py_round (mean (col (fun r : Row => underlying_price r) (df fr))).

(** [df[(df.strike.values >= avg_price - 10) & (df.strike.values <= avg_price + 10)].mid_iv.mean()]. *)
Definition atm_iv (fr : Frames) (avg : Z) : float :=
  let lo := Binary64.of_Z (avg - 10) in
  let hi := Binary64.of_Z (avg + 10) in
  let strikes := col (fun r : Row => strike r) (df fr) in
  mean (col mid_iv
          (select (df fr)
                  (mask_and (map (fun s => PrimFloat.leb lo s) strikes)
                            (map (fun s => PrimFloat.leb s hi) strikes)))).

(** [frame[(frame.delta == 20) | (frame.delta == 30)].mid_iv.mean()]. *)
Definition iv_25D (frame : list Row) : float :=
  let deltas := col (fun r : Row => delta r) frame in
  mean (col mid_iv
          (select frame
                  (mask_or (map (fun d => PrimFloat.eqb d (of_int 20)) deltas)
                           (map (fun d => PrimFloat.eqb d (of_int 30)) deltas)))).

Definition put_25D_iv (fr : Frames) : float := iv_25D (puts fr).
Definition call_25D_iv (fr : Frames) : float := iv_25D (calls fr).

(** The three markers and the two parameters. *)
Record Smile : Type := {
  atm : float;
  call25 : float;
  put25 : float;
  rr : float;
  fly : float
}.

Definition markers (fr : Frames) : result Smile :=
  avg <- avg_price fr ;;
  let a := atm_iv fr avg in
  let p := put_25D_iv fr in
  let c := call_25D_iv fr in
  Ok {| atm := a; call25 := c; put25 := p;
        rr := rr25D_iv c p; fly := fly25D_iv c p a |}.

(** ** Cell 5: the sampled curve *)

(** [np.arange(0.01, 1, 0.01)]. *)
Definition grid : result (list float) := arange (lit 1 2) (of_int 1) (lit 1 2).

(** [[put_delta_iv(i, rr25D_iv, fly25D_iv, atm_iv) for i in np.arange(0.01, 1, 0.01)]]. *)
Definition samples (rr fly atm : float) : result (list float) :=
  g <- grid ;; Ok (map (fun i => put_delta_iv i rr fly atm) g).

(** [[0 if math.isnan(x) else x for x in put_delta_aprx]]. *)
Definition nan_to_zero (xs : list float) : list float :=
  map (fun x => if isnan x then of_int 0 else x) xs.

Definition put_delta_aprx (rr fly atm : float) : result (list float) :=
  xs <- samples rr fly atm ;; Ok (nan_to_zero xs).

(** The points of the plot: the grid against the approximations. *)
Definition smile_curve (rr fly atm : float) : result (list (float * float)) :=
  g <- grid ;;
  ys <- put_delta_aprx rr fly atm ;;
  Ok (combine g ys).

(** The globals of the kernel that cell 5 reads and writes: the markers and
    parameters left by cell 3, and [put_delta_aprx] (empty before the first
    run). *)
Record Kernel : Type := {
  smile : Smile;
  aprx : list float
}.

(** One run of cell 5: it reads the three parameters and binds
    [put_delta_aprx] anew. *)
Definition sampling_cell (k : Kernel) : result Kernel :=
  ys <- put_delta_aprx (rr (smile k)) (fly (smile k)) (atm (smile k)) ;;
  Ok {| smile := smile k; aprx := ys |}.

(** Cells 2 to 5 in sequence. *)
Definition notebook (raw : list Quote) : result (Smile * list (float * float)) :=
  fr <- normalizer raw ;;
  s <- markers fr ;;
  pts <- smile_curve (rr s) (fly s) (atm s) ;;
  Ok (s, pts).

(** ** Definitions the statements below use *)

(** The strict order of floats, Python's [<]. *)
Definition float_lt (a b : float) : Prop := PrimFloat.ltb a b = true.

(** Every entry is strictly below every later one. *)
Fixpoint ascending (xs : list float) : bool :=
  match xs with
  | [] => true
  | x :: t => forallb (fun y => PrimFloat.ltb x y) t && ascending t
  end.

(** The grid, evaluated. *)
Definition grid_points : list float :=
  Eval vm_compute in match grid with Ok g => g | Raise _ => [] end.

(** The window test of cell 3 on one row, for the rounded average [avg]. *)
Definition in_atm_window (avg : Z) (r : Row) : bool :=
  PrimFloat.leb (Binary64.of_Z (avg - 10)) (strike r)
  && PrimFloat.leb (strike r) (Binary64.of_Z (avg + 10)).

(** The at-the-money marker as the specification words it: the window is
    centred on the mean underlying price itself. *)
Definition atm_iv_centred_on_mean (fr : Frames) : float :=
  let m := mean (col (fun r : Row => underlying_price r) (df fr)) in
  mean (col mid_iv
          (filter (fun r : Row =>
                     PrimFloat.leb (m - of_int 10)%num (strike r)
                     && PrimFloat.leb (strike r) (m + of_int 10)%num)
                  (df fr))).

(** A quote with the fields the notebook reads. *)
Definition mk_quote (ty : string) (k bid ask u : float) (t : Z) (d : float) : Quote :=
  {| option_type := ty; instrument_name := EmptyString; strike := k;
     mark_iv := (bid + ask) / of_int 2; bid_iv := bid; ask_iv := ask;
     underlying_price := u; expiration_timestamp := t; delta := d |}%num.

(** A positive float below 1, read off its mantissa and exponent: fewer
    than 54 bits and an exponent of at most -53. *)
Definition in_unit (d : float) : bool :=
  match Prim2SF d with
  | S754_finite false m e => ((Z.pos m <? 2 ^ 53) && (e <=? -53))%Z
  | _ => false
  end.

(** The test of cell 3 for the 25-delta group: bucket 20 or bucket 30. *)
Definition in_25D_group (r : Row) : bool :=
  PrimFloat.eqb (delta r) (of_int 20) || PrimFloat.eqb (delta r) (of_int 30).

(** The type of a row is neither ['call'] nor ['put']. *)
Definition other_type (r : Row) : bool :=
  negb (String.eqb (option_type r) "call") && negb (String.eqb (option_type r) "put").

(** ** Inputs the statements below are evaluated at *)

(** Two quotes of the same day, the later expiry (26 June 2020, 08:00 UTC,
    in milliseconds) listed before the earlier one (3 April 2020). *)
Definition two_expiries : list Quote :=
  [ mk_quote "call" (of_int 7000) (lit 60 2) (lit 62 2) (of_int 6800)
             1593158400000 (lit 45 2);
    mk_quote "call" (of_int 7000) (lit 70 2) (lit 74 2) (of_int 6800)
             1585900800000 (lit 40 2) ].

(** The earliest of a list of timestamps. *)
Definition earliest (ts : list Z) : option Z :=
  match ts with
  | [] => None
  | t :: ts' => Some (fold_left Z.min ts' t)
  end.

(** One expiry with a single put: no call sits in the 20 or 30 bucket. *)
Definition lonely_put : list Quote :=
  [ mk_quote "put" (of_int 6800) (lit 60 2) (lit 62 2) (of_int 6800)
             1585900800000 (lit (-20) 2) ].

(** One expiry, underlying at 100.4, strikes 90 and 100. *)
Definition off_centre : list Quote :=
  [ mk_quote "put" (of_int 90) (lit 30 2) (lit 30 2) (lit 1004 1)
             1585900800000 (lit (-20) 2);
    mk_quote "call" (of_int 100) (lit 20 2) (lit 20 2) (lit 1004 1)
             1585900800000 (lit 50 2) ].

(** A call at delta 0.25, a put at delta -0.25 and a call at delta 0.35. *)
Definition tie_quotes : list Quote :=
  [ mk_quote "call" (of_int 7500) (lit 60 2) (lit 62 2) (of_int 6800)
             1585900800000 (lit 25 2);
    mk_quote "put" (of_int 6000) (lit 64 2) (lit 66 2) (of_int 6800)
             1585900800000 (lit (-25) 2);
    mk_quote "call" (of_int 7200) (lit 58 2) (lit 60 2) (of_int 6800)
             1585900800000 (lit 35 2) ].

(* ================================================================== *)
(** * Frames: masks select what filters select *)

Section FrameFacts.
Context {A : Type}.

Lemma select_map (p : A -> bool) (rows : list A) :
  select rows (map p rows) = filter p rows.
Proof.
  induction rows as [|r rows IH]; cbn; [reflexivity|].
  rewrite IH; reflexivity.
Qed.

Lemma mask_and_map {B : Type} (p q : B -> bool) (xs : list B) :
  mask_and (map p xs) (map q xs) = map (fun x => p x && q x) xs.
Proof.
  induction xs as [|x xs IH]; cbn; [reflexivity|].
  rewrite IH; reflexivity.
Qed.

Lemma mask_or_map {B : Type} (p q : B -> bool) (xs : list B) :
  mask_or (map p xs) (map q xs) = map (fun x => p x || q x) xs.
Proof.
  induction xs as [|x xs IH]; cbn; [reflexivity|].
  rewrite IH; reflexivity.
Qed.

Lemma combine_map_self {B : Type} (g : A -> B) (l : list A) :
  combine l (map g l) = map (fun x => (x, g x)) l.
Proof.
  induction l as [|x l IH]; cbn; [reflexivity|].
  rewrite IH; reflexivity.
Qed.

Lemma filter_nonempty (p : A -> bool) (rows : list A) (r : A) :
  In r rows -> p r = true -> filter p rows <> [].
Proof.
  intros Hin Hp Hnil.
  assert (Hr : In r (filter p rows)) by (apply filter_In; split; assumption).
  rewrite Hnil in Hr; exact Hr.
Qed.

Lemma filter_none (p : A -> bool) (rows : list A) :
  (forall r, In r rows -> p r = false) -> filter p rows = [].
Proof.
  induction rows as [|r rows IH]; intros Hp; cbn; [reflexivity|].
  rewrite (Hp r (or_introl eq_refl)).
  apply IH; intros r' Hr'; apply Hp; right; exact Hr'.
Qed.
End FrameFacts.

Lemma getitem_nil {A : Type} (i : Z) : getitem (@nil A) i = Raise IndexError.
Proof.
  unfold getitem.
  destruct (_ && _)%bool; [|reflexivity].
  destruct (Z.to_nat _); reflexivity.
Qed.

Lemma getitem_head {A : Type} (x : A) (l : list A) : getitem (x :: l) 0 = Ok x.
Proof.
  unfold getitem.
  replace (0 <? 0)%Z with false by reflexivity.
  replace (0 <=? 0)%Z with true by reflexivity.
  replace (0 <? Z.of_nat (List.length (x :: l)))%Z with true; [reflexivity|].
  symmetry; apply Z.ltb_lt; cbn [List.length]; lia.
Qed.

(* ================================================================== *)
(** * The set of expiries: what [list(set(...))] can hold *)

Module PySetFacts.
Import PySet.

Lemma keys_repeat_None (n : nat) : keys (repeat None n) = [].
Proof. induction n; cbn; auto. Qed.

Lemma slot_repeat_None (n : nat) (i : Z) : slot (repeat None n) i = None.
Proof. unfold slot; apply nth_repeat. Qed.

Lemma keys_store_incl (tbl : list (option Z)) (i : nat) (key k : Z) :
  In k (keys (store tbl i key)) -> k = key \/ In k (keys tbl).
Proof.
  revert i; induction tbl as [|e tbl IH]; intros i Hk; cbn in Hk.
  - contradiction.
  - destruct i as [|i].
    + cbn in Hk; destruct Hk as [Hk|Hk]; [left; auto|].
      right; destruct e; cbn; auto.
    + destruct e as [k'|]; cbn in Hk |- *.
      * destruct Hk as [Hk|Hk]; [right; left; exact Hk|].
        destruct (IH i Hk); auto.
      * exact (IH i Hk).
Qed.

Lemma keys_store_nonempty (tbl : list (option Z)) (i : nat) (key : Z) :
  keys tbl <> [] -> keys (store tbl i key) <> [].
Proof.
  revert i; induction tbl as [|e tbl IH]; intros i Hne; cbn in *.
  - exact Hne.
  - destruct i as [|i]; cbn; [discriminate|].
    destruct e; cbn; [discriminate|].
    apply IH; exact Hne.
Qed.

Lemma keys_store_fresh (n i : nat) (key : Z) :
  (i < n)%nat -> keys (store (repeat None n) i key) <> [].
Proof.
  revert i; induction n as [|n IH]; intros i Hi; [lia|].
  destruct i as [|i]; cbn; [discriminate|].
  apply IH; lia.
Qed.

Lemma land_mask_bound (h k : Z) :
  (0 <= k)%Z -> (0 <= Z.land h (2 ^ k - 1) < 2 ^ k)%Z.
Proof.
  intros Hk.
  replace (2 ^ k - 1)%Z with (Z.ones k) by (rewrite Z.ones_equiv; lia).
  rewrite Z.land_ones by exact Hk.
  apply Z.mod_pos_bound; apply Z.pow_pos_nonneg; lia.
Qed.

Lemma rounds_S (msk : Z) : exists n, rounds msk = S n.
Proof. exists (Z.to_nat msk + 15)%nat; unfold rounds; lia. Qed.

Lemma lookkey_free (fuel : nat) (tbl : list (option Z)) (msk key i p : Z) :
  slot tbl i = None -> lookkey (S fuel) tbl msk key i p = Unused i.
Proof. intros Hi; cbn [lookkey]; rewrite Hi; reflexivity. Qed.

Lemma free_slot_free (fuel : nat) (tbl : list (option Z)) (msk i p : Z) :
  slot tbl i = None -> free_slot (S fuel) tbl msk i p = Some i.
Proof. intros Hi; cbn [free_slot]; rewrite Hi; reflexivity. Qed.

Lemma to_nat_land_mask (h k : Z) :
  (0 <= k)%Z -> (Z.to_nat (Z.land h (2 ^ k - 1)) < Z.to_nat (2 ^ k))%nat.
Proof.
  intros Hk; pose proof (land_mask_bound h k Hk) as Hb.
  revert Hb; generalize (Z.land h (2 ^ k - 1)); generalize (2 ^ k)%Z.
  intros n i Hb; lia.
Qed.

(** Insertions keep to the keys they are given. *)

Lemma set_insert_clean_incl (msk : Z) (tbl : list (option Z)) (key k : Z) :
  In k (keys (set_insert_clean msk tbl key)) -> k = key \/ In k (keys tbl).
Proof.
  unfold set_insert_clean.
  destruct (free_slot _ _ _ _ _); [apply keys_store_incl | auto].
Qed.

Lemma fold_insert_clean_incl (msk : Z) (ks : list Z) (tbl : list (option Z)) (k : Z) :
  In k (keys (fold_left (set_insert_clean msk) ks tbl)) -> In k ks \/ In k (keys tbl).
Proof.
  revert tbl; induction ks as [|k0 ks IH]; intros tbl Hk; cbn in *; [auto|].
  destruct (IH _ Hk) as [H|H]; [auto|].
  destruct (set_insert_clean_incl _ _ _ _ H); auto.
Qed.

Lemma set_table_resize_incl (so : setobject) (minused k : Z) :
  In k (to_list (set_table_resize so minused)) -> In k (to_list so).
Proof.
  unfold to_list, set_table_resize; cbn [table]; intros Hk.
  destruct (fold_insert_clean_incl _ _ _ _ Hk) as [H|H]; [exact H|].
  rewrite keys_repeat_None in H; contradiction.
Qed.

Lemma set_add_key_incl (so : setobject) (key k : Z) :
  In k (to_list (set_add_key so key)) -> k = key \/ In k (to_list so).
Proof.
  unfold set_add_key.
  destruct (lookkey _ _ _ _ _ _) as [i| |]; [|auto|auto].
  cbv zeta.
  match goal with |- context [if ?c then _ else _] => destruct c end; intros Hk.
  - apply (keys_store_incl _ _ _ _ Hk).
  - apply set_table_resize_incl in Hk.
    apply (keys_store_incl _ _ _ _ Hk).
Qed.

Lemma fold_add_key_incl (xs : list Z) (so : setobject) (k : Z) :
  In k (to_list (fold_left set_add_key xs so)) -> In k xs \/ In k (to_list so).
Proof.
  revert so; induction xs as [|x xs IH]; intros so Hk; cbn in *; [auto|].
  destruct (IH _ Hk) as [H|H]; [auto|].
  destruct (set_add_key_incl _ _ _ H); auto.
Qed.

(** [list(set(xs))] holds elements of [xs] only. *)
Lemma to_list_of_list_incl (xs : list Z) (k : Z) :
  In k (to_list (of_list xs)) -> In k xs.
Proof.
  intros Hk; destruct (fold_add_key_incl _ _ _ Hk) as [H|H]; [exact H|].
  cbn in H; contradiction.
Qed.

(** Insertions never empty a table. *)

Lemma set_insert_clean_nonempty (msk : Z) (tbl : list (option Z)) (key : Z) :
  keys tbl <> [] -> keys (set_insert_clean msk tbl key) <> [].
Proof.
  unfold set_insert_clean; intros Hne.
  destruct (free_slot _ _ _ _ _); [apply keys_store_nonempty|]; exact Hne.
Qed.

Lemma fold_insert_clean_nonempty (msk : Z) (ks : list Z) (tbl : list (option Z)) :
  keys tbl <> [] -> keys (fold_left (set_insert_clean msk) ks tbl) <> [].
Proof.
  revert tbl; induction ks as [|k ks IH]; intros tbl Hne; cbn; [exact Hne|].
  apply IH, set_insert_clean_nonempty, Hne.
Qed.

Lemma set_insert_clean_fresh (k key : Z) :
  (0 <= k)%Z ->
  keys (set_insert_clean (2 ^ k - 1) (repeat None (Z.to_nat (2 ^ k))) key) <> [].
Proof.
  intros Hk; unfold set_insert_clean.
  destruct (rounds_S (2 ^ k - 1)) as [n ->].
  rewrite free_slot_free by apply slot_repeat_None.
  apply keys_store_fresh, to_nat_land_mask, Hk.
Qed.

Lemma newsize_power (minused : Z) :
  exists k, (0 <= k)%Z /\ Z.max PySet_MINSIZE (2 ^ (Z.log2 minused + 1)) = (2 ^ k)%Z.
Proof.
  destruct (Z.max_spec PySet_MINSIZE (2 ^ (Z.log2 minused + 1))) as [[_ ->]|[_ ->]].
  - exists (Z.log2 minused + 1)%Z; split; [|reflexivity].
    pose proof (Z.log2_nonneg minused); lia.
  - exists 3%Z; split; [lia | reflexivity].
Qed.

Lemma set_table_resize_nonempty (so : setobject) (minused : Z) :
  to_list so <> [] -> to_list (set_table_resize so minused) <> [].
Proof.
  unfold to_list, set_table_resize; cbn [table]; intros Hne.
  destruct (keys (table so)) as [|k0 ks]; [congruence|].
  destruct (newsize_power minused) as (k & Hk & ->).
  cbn [fold_left].
  apply fold_insert_clean_nonempty, set_insert_clean_fresh, Hk.
Qed.

Lemma set_add_key_nonempty (so : setobject) (key : Z) :
  to_list so <> [] -> to_list (set_add_key so key) <> [].
Proof.
  unfold set_add_key; intros Hne.
  destruct (lookkey _ _ _ _ _ _) as [i| |]; [|exact Hne|exact Hne].
  cbv zeta.
  match goal with |- context [if ?c then _ else _] => destruct c end.
  - apply keys_store_nonempty, Hne.
  - apply set_table_resize_nonempty; apply keys_store_nonempty, Hne.
Qed.

Lemma fold_add_key_nonempty (xs : list Z) (so : setobject) :
  to_list so <> [] -> to_list (fold_left set_add_key xs so) <> [].
Proof.
  revert so; induction xs as [|x xs IH]; intros so Hne; cbn; [exact Hne|].
  apply IH, set_add_key_nonempty, Hne.
Qed.

Lemma set_add_key_empty (key : Z) : to_list (set_add_key empty key) <> [].
Proof.
  assert (Hstore : keys (store (table empty)
                          (Z.to_nat (Z.land (size_t (hash key)) (mask empty))) key) <> []).
  { apply (keys_store_fresh 8), (to_nat_land_mask _ 3); lia. }
  unfold set_add_key.
  destruct (rounds_S (mask empty)) as [n ->].
  rewrite lookkey_free by apply (slot_repeat_None 8).
  cbv zeta.
  match goal with |- context [if ?c then _ else _] => destruct c end.
  - exact Hstore.
  - apply set_table_resize_nonempty; exact Hstore.
Qed.

(** The model on small inputs: small integers come out in increasing
    order, also across a growth of the table; duplicates are kept once; keys
    that collide come out in the order they went in. *)
Example to_list_small_ints :
  (to_list (of_list [3; 1; 2]) = [1; 2; 3] /\
   to_list (of_list [9; 8; 7; 6; 5; 4; 3; 2; 1; 0]) = [0; 1; 2; 3; 4; 5; 6; 7; 8; 9] /\
   to_list (of_list [5; 5; 5]) = [5] /\
   to_list (of_list [8; 1]) = [8; 1] /\
   to_list (of_list [9; 1]) = [9; 1] /\
   to_list (of_list [1; 9]) = [1; 9])%Z.
Proof. repeat split; vm_compute; reflexivity. Qed.

(** [list(set(xs))] is empty only when [xs] is. *)
Lemma to_list_of_list_nonempty (xs : list Z) :
  xs <> [] -> to_list (of_list xs) <> [].
Proof.
  destruct xs as [|x xs]; [congruence|]; intros _.
  unfold of_list; cbn [fold_left].
  apply fold_add_key_nonempty, set_add_key_empty.
Qed.
End PySetFacts.

(* ================================================================== *)
(** * The quote normaliser *)

Section Normalizer.
Local Open Scope Z_scope.

Lemma restrict_expiry_filter (raw : list Quote) (m : Z) :
  restrict_expiry raw m = filter (fun q => expiration_timestamp q =? m) raw.
Proof.
  unfold restrict_expiry, col.
  rewrite map_map; apply select_map.
Qed.

Lemma df_frames_at (raw : list Quote) (m : Z) :
  df (frames_at raw m)
  = map with_mid_iv (filter (fun q => expiration_timestamp q =? m) raw).
Proof. unfold frames_at; cbn [df]; rewrite restrict_expiry_filter; reflexivity. Qed.

(** Every expiry of [maturities] is the expiry of some quote. *)
Lemma maturities_incl (raw : list Quote) (m : Z) :
  In m (maturities raw) -> exists q, In q raw /\ expiration_timestamp q = m.
Proof.
  intros Hm; apply PySetFacts.to_list_of_list_incl in Hm.
  unfold col in Hm; apply in_map_iff in Hm.
  destruct Hm as (q & Hq & Hin); exists q; auto.
Qed.

Lemma maturities_nonempty (raw : list Quote) :
  raw <> [] -> maturities raw <> [].
Proof.
  intros Hraw; apply PySetFacts.to_list_of_list_nonempty.
  destruct raw; [congruence | discriminate].
Qed.

(** On quotes the normaliser returns the frames of [maturities[0]]. *)
Lemma normalizer_ok (raw : list Quote) :
  raw <> [] ->
  exists m, hd_error (maturities raw) = Some m /\
            In m (map expiration_timestamp raw) /\
            normalizer raw = Ok (frames_at raw m).
Proof.
  intros Hraw; pose proof (maturities_nonempty raw Hraw) as Hne.
  unfold normalizer.
  destruct (maturities raw) as [|m ms] eqn:Hm; [congruence|].
  exists m; split; [reflexivity|]; split.
  - destruct (maturities_incl raw m) as (q & Hq & <-).
    + rewrite Hm; left; reflexivity.
    + apply in_map; exact Hq.
  - rewrite getitem_head; reflexivity.
Qed.

(** C2, evaluated where the code leaves the claim.  The claim has the
    normaliser keep the earliest expiry, as the cell's own comment says
    ("Select earliest maturity option contract"); the cell keeps
    [maturities[0]], the first slot of a hash table.  On [two_expiries] that
    is the later expiry, 1593158400000, while the earliest is
    1585900800000. *)
Example maturities_first_is_not_earliest :
  earliest (map expiration_timestamp two_expiries) = Some 1585900800000 /\
  maturities two_expiries = [1593158400000; 1585900800000] /\
  exists fr, normalizer two_expiries = Ok fr /\
             map (fun r : Row => expiration_timestamp r) (df fr) = [1593158400000].
Proof.
  split; [reflexivity|]; split; [vm_compute; reflexivity|].
  exists (frames_at two_expiries 1593158400000); split; vm_compute; reflexivity.
Qed.

(** C4 as stated fails: on no quotes the normaliser raises [IndexError],
    not an [EmptyInputError], and an expiry no quote has yields empty
    frames, not a [MissingExpiryError]. *)
Lemma normalizer_errors_counterexample :
  normalizer [] = Raise IndexError /\
  normalizer [] <> Raise (UserDefined "EmptyInputError") /\
  df (frames_at two_expiries 1) = [] /\
  calls (frames_at two_expiries 1) = [] /\
  puts (frames_at two_expiries 1) = [].
Proof.
  split; [reflexivity|]; split; [discriminate|].
  repeat split; reflexivity.
Qed.

(** C4, amended.  On no quotes the normaliser fails, with the [IndexError]
    of [maturities[0]].  On any quotes at all it returns frames, and they
    are never empty: the expiry it keeps is the expiry of one of the quotes.
    An expiry that no quote has would give an empty frame, without an
    error. *)
Theorem normalizer_errors :
  normalizer [] = Raise IndexError /\
  (forall raw, raw <> [] ->
     exists m, In m (map expiration_timestamp raw) /\
               normalizer raw = Ok (frames_at raw m) /\
               df (frames_at raw m) <> []) /\
  (forall raw m, ~ In m (map expiration_timestamp raw) ->
     df (frames_at raw m) = []).
Proof.
  split; [reflexivity|]; split.
  - intros raw Hraw.
    destruct (normalizer_ok raw Hraw) as (m & _ & Hin & Hok).
    exists m; repeat split; try assumption.
    rewrite df_frames_at; intros Hnil; apply map_eq_nil in Hnil.
    apply in_map_iff in Hin; destruct Hin as (q & Hq & Hin).
    revert Hnil; apply (filter_nonempty _ raw q Hin).
    apply Z.eqb_eq; exact Hq.
  - intros raw m Hm.
    rewrite df_frames_at, filter_none; [reflexivity|].
    intros q Hq; apply Z.eqb_neq; intros Heq; apply Hm.
    rewrite <- Heq; apply in_map; exact Hq.
Qed.

Lemma normalizer_errors_witness :
  exists m, In m (map expiration_timestamp two_expiries) /\
            normalizer two_expiries = Ok (frames_at two_expiries m) /\
            df (frames_at two_expiries m) <> [].
Proof.
  apply (proj1 (proj2 normalizer_errors) two_expiries); discriminate.
Defined.
End Normalizer.

(* ================================================================== *)
(** * The markers *)

Section Markers.

(** The mask of cell 3 keeps the rows that pass the window test. *)
Lemma atm_iv_filter (fr : Frames) (avg : Z) :
  atm_iv fr avg = mean (map mid_iv (filter (in_atm_window avg) (df fr))).
Proof.
  unfold atm_iv, col; cbv zeta.
  rewrite mask_and_map, map_map, select_map; reflexivity.
Qed.

Lemma iv_25D_filter (frame : list Row) :
  iv_25D frame
  = mean (map mid_iv
            (filter (fun r : Row => PrimFloat.eqb (delta r) (of_int 20)
                                    || PrimFloat.eqb (delta r) (of_int 30))
                    frame)).
Proof.
  unfold iv_25D, col; cbv zeta.
  rewrite mask_or_map, map_map, select_map; reflexivity.
Qed.

(** C5 as stated fails.  On [off_centre] the mean underlying price is
    100.4: the strike 90 is 10.4 away from it and yet counted, because the
    window is centred on [round(100.4) = 100].  The marker is 0.25, the
    mean over both quotes, where a window centred on the mean gives 0.2. *)
Lemma atm_iv_window_counterexample :
  exists fr s,
    normalizer off_centre = Ok fr /\
    markers fr = Ok s /\
    mean (map (fun r : Row => underlying_price r) (df fr)) = lit 1004 1 /\
    atm s = lit 25 2 /\
    atm_iv_centred_on_mean fr = lit 20 2 /\
    PrimFloat.eqb (atm s) (atm_iv_centred_on_mean fr) = false.
Proof.
  exists (frames_at off_centre 1585900800000).
  eexists; split; [vm_compute; reflexivity|].
  split; [vm_compute; reflexivity|].
  repeat split; vm_compute; reflexivity.
Qed.

(** C5, amended.  Whenever the markers are computed, the at-the-money
    marker is the mean of mid_iv (not-a-number entries skipped) over all
    quotes in scope, calls and puts alike, whose strike lies within 10 price
    units, bounds included, of the mean underlying price rounded to the
    nearest integer, halves to even. *)
Theorem atm_iv_window_on_rounded_mean (fr : Frames) (s : Smile) :
  markers fr = Ok s ->
  exists avg,
    Binary64.to_Z_nearest (mean (map (fun r : Row => underlying_price r) (df fr)))
    = Some avg /\
    atm s = mean (map mid_iv (filter (in_atm_window avg) (df fr))).
Proof.
  unfold markers, avg_price, py_round, col.
  destruct (Binary64.to_Z_nearest _) as [avg|].
  - cbn [bind]; intros [= <-]; exists avg; split; [reflexivity|].
    cbn [atm]; apply atm_iv_filter.
  - destruct (isnan _); discriminate.
Qed.

Lemma atm_iv_window_on_rounded_mean_witness :
  exists avg,
    Binary64.to_Z_nearest
      (mean (map (fun r : Row => underlying_price r)
                 (df (frames_at off_centre 1585900800000))))
    = Some avg /\
    lit 25 2
    = mean (map mid_iv (filter (in_atm_window avg)
                               (df (frames_at off_centre 1585900800000)))).
Proof.
  apply (atm_iv_window_on_rounded_mean
           (frames_at off_centre 1585900800000)
           {| atm := lit 25 2; call25 := nan; put25 := lit 30 2;
              rr := nan; fly := nan |}).
  vm_compute; reflexivity.
Defined.
End Markers.

(* ================================================================== *)
(** * The sampled curve *)

Section Sampling.
Local Open Scope float_scope.

Lemma grid_ok : grid = Ok grid_points.
Proof. vm_compute; reflexivity. Qed.

Lemma samples_ok (rr fly atm : float) :
  samples rr fly atm = Ok (map (fun i => put_delta_iv i rr fly atm) grid_points).
Proof. unfold samples; rewrite grid_ok; reflexivity. Qed.

Lemma put_delta_aprx_ok (rr fly atm : float) :
  put_delta_aprx rr fly atm
  = Ok (nan_to_zero (map (fun i => put_delta_iv i rr fly atm) grid_points)).
Proof. unfold put_delta_aprx; rewrite samples_ok; reflexivity. Qed.

(** The curve pairs each grid point with its coerced sample. *)
Lemma smile_curve_ok (rr fly atm : float) :
  smile_curve rr fly atm
  = Ok (map (fun d => (d, let y := put_delta_iv d rr fly atm in
                          if isnan y then of_int 0 else y))
            grid_points).
Proof.
  unfold smile_curve; rewrite grid_ok, put_delta_aprx_ok; cbn [bind].
  unfold nan_to_zero; rewrite map_map, combine_map_self; reflexivity.
Qed.

Lemma nan_to_zero_not_nan (xs : list float) :
  Forall (fun y => isnan y = false) (nan_to_zero xs).
Proof.
  unfold nan_to_zero; apply Forall_forall; intros y Hy.
  apply in_map_iff in Hy; destruct Hy as (x & <- & _).
  destruct (isnan x) eqn:Hx; [reflexivity | exact Hx].
Qed.

Lemma nan_to_zero_nth (xs : list float) (i : nat) :
  nth i (nan_to_zero xs) 0 = if isnan (nth i xs 0) then 0 else nth i xs 0.
Proof.
  unfold nan_to_zero.
  change 0 with ((fun x => if isnan x then of_int 0 else x) 0) at 1.
  rewrite map_nth; reflexivity.
Qed.

Lemma ascending_sorted (xs : list float) :
  ascending xs = true -> StronglySorted float_lt xs.
Proof.
  induction xs as [|x xs IH]; cbn; intros H; constructor.
  - apply IH; apply andb_prop in H; apply H.
  - apply andb_prop in H; destruct H as [H _].
    apply Forall_forall; intros y Hy.
    exact (proj1 (forallb_forall _ _) H y Hy).
Qed.

(** C3 as stated fails.  [lonely_put] has no call in the 20 or 30 bucket:
    the call marker, the risk reversal and the butterfly are not-a-number,
    so is every one of the 99 samples, and the notebook returns, without an
    error, a curve whose every value is the plain number 0. *)
Lemma nan_sample_counterexample :
  exists s xs pts,
    notebook lonely_put = Ok (s, pts) /\
    isnan (call25 s) = true /\
    samples (rr s) (fly s) (atm s) = Ok xs /\
    Forall (fun x => isnan x = true) xs /\
    map snd pts = repeat 0 99.
Proof.
  do 3 eexists; split; [vm_compute; reflexivity|].
  split; [reflexivity|]; split; [vm_compute; reflexivity|].
  split; [repeat constructor | reflexivity].
Qed.

(** C3, amended.  For every sampled curve, a sample that is not-a-number
    is replaced by 0 in the output sequence and every other sample is kept:
    the output has the length of the samples, holds no not-a-number, and
    nothing is raised. *)
Theorem nan_samples_become_zero (rr fly atm : float) :
  exists xs ys,
    samples rr fly atm = Ok xs /\
    put_delta_aprx rr fly atm = Ok ys /\
    List.length ys = List.length xs /\
    (forall i, nth i ys 0 = if isnan (nth i xs 0) then 0 else nth i xs 0) /\
    Forall (fun y => isnan y = false) ys.
Proof.
  exists (map (fun i => put_delta_iv i rr fly atm) grid_points).
  exists (nan_to_zero (map (fun i => put_delta_iv i rr fly atm) grid_points)).
  split; [apply samples_ok|]; split; [apply put_delta_aprx_ok|].
  split; [unfold nan_to_zero; apply length_map|].
  split; [apply nan_to_zero_nth | apply nan_to_zero_not_nan].
Qed.

(** C7.  Sampling the curve over 0.01 through 0.99 in steps of 0.01 yields
    exactly 99 (delta, iv) points, the deltas strictly increasing from 0.01
    to 0.99, each iv the coerced value of the evaluator at its delta; and a
    second run of the sampling cell, on the kernel the first run left, binds
    the very same sequence. *)
Theorem smile_curve_sampling (k : Kernel) :
  exists k1 pts,
    sampling_cell k = Ok k1 /\
    sampling_cell k1 = Ok k1 /\
    smile_curve (rr (smile k)) (fly (smile k)) (atm (smile k)) = Ok pts /\
    map snd pts = aprx k1 /\
    List.length pts = 99%nat /\
    StronglySorted float_lt (map fst pts) /\
    hd_error (map fst pts) = Some (lit 1 2) /\
    last (map fst pts) 0 = lit 99 2 /\
    Forall (fun p => snd p = let y := put_delta_iv
                                        (fst p) (rr (smile k)) (fly (smile k))
                                        (atm (smile k)) in
                             if isnan y then 0 else y) pts.
Proof.
  destruct k as [s a]; cbn [smile aprx].
  eexists; eexists.
  split; [unfold sampling_cell; cbn [smile]; rewrite put_delta_aprx_ok;
          cbn [bind]; reflexivity|].
  split; [unfold sampling_cell; cbn [smile]; rewrite put_delta_aprx_ok;
          cbn [bind]; reflexivity|].
  split; [apply smile_curve_ok|].
  cbn [aprx]; rewrite !map_map; cbn [fst snd]; rewrite map_id.
  split; [unfold nan_to_zero; rewrite map_map; reflexivity|].
  split; [rewrite length_map; reflexivity|].
  split; [apply ascending_sorted; vm_compute; reflexivity|].
  split; [vm_compute; reflexivity|].
  split; [vm_compute; reflexivity|].
  apply Forall_forall; intros p Hp.
  apply in_map_iff in Hp; destruct Hp as (d & <- & _); reflexivity.
Qed.
End Sampling.

(* ================================================================== *)
(** * Delta buckets *)

Section Buckets.
Local Open Scope Z_scope.

(** Rounding an odd multiple of 5 to the nearest 10 goes to the even
    multiple of 10. *)
Lemma around_tie_half_even (k : Z) :
  0 <= k <= 9 ->
  around (of_int (10 * k + 5)) (-1) = of_int (20 * ((k + 1) / 2)).
Proof.
  intros Hk.
  assert (Hcases : k = 0 \/ k = 1 \/ k = 2 \/ k = 3 \/ k = 4 \/
                   k = 5 \/ k = 6 \/ k = 7 \/ k = 8 \/ k = 9) by lia.
  repeat (destruct Hcases as [-> | Hcases]; [vm_compute; reflexivity|]).
  subst k; vm_compute; reflexivity.
Qed.

(** C10.  Exact ties of the delta bucket go half to even.  In the frames
    of [tie_quotes] the call at delta 0.25 and the put at delta -0.25 are
    both in bucket 20, not 30, and the call at delta 0.35 is in bucket 40;
    and whenever delta times 100 (absolute delta for a put) is the odd
    multiple of five [10*k + 5], the bucket is the even multiple of ten
    next to it. *)
Theorem delta_bucket_ties :
  (exists fr,
     normalizer tie_quotes = Ok fr /\
     map (fun r : Row => delta r) (calls fr) = [of_int 20; of_int 40] /\
     map (fun r : Row => delta r) (puts fr) = [of_int 20]) /\
  call_bucket (lit 25 2) = of_int 20 /\
  put_bucket (lit (-25) 2) = of_int 20 /\
  call_bucket (lit 35 2) = of_int 40 /\
  PrimFloat.eqb (of_int 20) (of_int 30) = false /\
  (forall (k : Z) (d : float),
     0 <= k <= 9 ->
     ((d * of_int 100)%num = of_int (10 * k + 5) ->
      call_bucket d = of_int (20 * ((k + 1) / 2))) /\
     ((abs d * of_int 100)%num = of_int (10 * k + 5) ->
      put_bucket d = of_int (20 * ((k + 1) / 2)))).
Proof.
  split.
  { exists (frames_at tie_quotes 1585900800000).
    repeat split; vm_compute; reflexivity. }
  do 4 (split; [vm_compute; reflexivity|]).
  intros k d Hk; unfold call_bucket, put_bucket.
  split; intros ->; apply around_tie_half_even; exact Hk.
Qed.

Lemma delta_bucket_ties_witness :
  call_bucket (lit 45 2) = of_int 40 /\ put_bucket (lit (-75) 2) = of_int 80.
Proof.
  split.
  - replace (of_int 40) with (of_int (F := float) (20 * ((4 + 1) / 2)))
      by (vm_compute; reflexivity).
    apply (proj1 (proj2 (proj2 (proj2 (proj2 (proj2 delta_bucket_ties))))
                        4 (lit 45 2) ltac:(lia))).
    vm_compute; reflexivity.
  - replace (of_int 80) with (of_int (F := float) (20 * ((7 + 1) / 2)))
      by (vm_compute; reflexivity).
    apply (proj2 (proj2 (proj2 (proj2 (proj2 (proj2 delta_bucket_ties))))
                        7 (lit (-75) 2) ltac:(lia))).
    vm_compute; reflexivity.
Defined.
End Buckets.

(* ================================================================== *)
(** * The evaluator on binary64 *)

(** What the identities of the evaluator become once every operation rounds:
    the at-the-money value is still exact, the symmetry is not. *)
Section EvaluatorBinary64.
Local Open Scope float_scope.

Lemma SFcompare_refl (s : bool) (m : positive) (e : Z) :
  SFcompare (S754_finite s m e) (S754_finite s m e) = Some Eq.
Proof.
  cbn; rewrite Z.compare_refl.
  change (PosDef.Pos.compare_cont Eq m m) with (Pos.compare m m).
  rewrite Pos.compare_refl; destruct s; reflexivity.
Qed.

(** A finite float times zero is a zero. *)
Lemma mul_zero_r (a : float) :
  Binary64.is_finite a = true -> exists s, Prim2SF (a * 0) = S754_zero s.
Proof.
  unfold Binary64.is_finite; intros Ha.
  rewrite mul_spec; change (Prim2SF 0) with (S754_zero false).
  destruct (Prim2SF a) as [s|s| |s m e]; try discriminate; eexists; reflexivity.
Qed.

(** Adding two zeros to a finite float leaves a float equal to it. *)
Lemma add_two_zeros (a z1 z2 : float) (s1 s2 : bool) :
  Binary64.is_finite a = true ->
  Prim2SF z1 = S754_zero s1 ->
  Prim2SF z2 = S754_zero s2 ->
  (a + z1 + z2 =? a) = true.
Proof.
  unfold Binary64.is_finite; intros Ha Hz1 Hz2.
  rewrite eqb_spec, !add_spec, Hz1, Hz2.
  destruct (Prim2SF a) as [sa|sa| |sa m e]; try discriminate.
  - destruct sa, s1, s2; reflexivity.
  - unfold SFeqb; cbn [SF64add SFadd]; rewrite SFcompare_refl; reflexivity.
Qed.

(** X1.  On binary64 the evaluator returns a float equal to atm at delta = 0.5,
    for every finite atm, as long as 2*rr and 16*fly are finite (rr and fly
    finite, and no overflow). *)
Theorem binary64_at_the_money (rr fly atm : float) :
  Binary64.is_finite (of_int 2 * rr)%num = true ->
  Binary64.is_finite (of_int 16 * fly)%num = true ->
  Binary64.is_finite atm = true ->
  (put_delta_iv (lit 50 2) rr fly atm =? atm) = true.
Proof.
  intros Hrr Hfly Hatm; unfold put_delta_iv.
  replace (lit 50 2 - lit 50 2)%num with 0 by (vm_compute; reflexivity).
  replace (power 0 2) with 0 by (vm_compute; reflexivity).
  destruct (mul_zero_r _ Hrr) as [s1 H1].
  destruct (mul_zero_r _ Hfly) as [s2 H2].
  exact (add_two_zeros atm _ _ s1 s2 Hatm H1 H2).
Qed.

Lemma binary64_at_the_money_witness :
  (put_delta_iv (lit 50 2) (lit (-6) 2) (lit 3 2) (lit 23 2) =? lit 23 2) = true.
Proof.
  apply (binary64_at_the_money (lit (-6) 2) (lit 3 2) (lit 23 2));
    vm_compute; reflexivity.
Defined.

(** Outside those bounds it does not: a risk reversal whose double overflows
    gives not-a-number at delta = 0.5. *)
Example binary64_overflow_at_the_money :
  isnan (put_delta_iv (lit 50 2) (of_int (10 ^ 308)) (of_int 0) (lit 20 2)) = true.
Proof. vm_compute; reflexivity. Qed.

(** The symmetry about 0.5 holds up to rounding only: 0.5 + 0.3 and
    0.5 - 0.3 are the floats 0.8 and 0.2, whose offsets from 0.5 are
    0.30000000000000004 and -0.3, and with rr = 0, fly = 0.03, atm = 0.2 the
    two values of the evaluator are neighbouring floats. *)
Example binary64_symmetry_up_to_rounding :
  let up := put_delta_iv (lit 50 2 + lit 30 2) (of_int 0) (lit 3 2) (lit 20 2) in
  let down := put_delta_iv (lit 50 2 - lit 30 2) (of_int 0) (lit 3 2) (lit 20 2) in
  down = lit 2432 4 /\ up = next_up down /\ (up =? down) = false.
Proof. vm_compute; repeat split; reflexivity. Qed.
End EvaluatorBinary64.

(* ================================================================== *)
(** * More on the frames and the markers *)

Section MoreFrames.

(** X4.  Every row of the normalised frame is a quote of the input with the
    chosen expiry, and carries the mid of its bid and ask implied
    volatilities. *)
Theorem frames_at_single_expiry (raw : list Quote) (m : Z) :
  Forall (fun r : Row =>
            expiration_timestamp r = m /\
            In (quote r) raw /\
            mid_iv r = ((bid_iv r + ask_iv r) / of_int 2)%num)
         (df (frames_at raw m)).
Proof.
  rewrite df_frames_at; apply Forall_forall; intros r Hr.
  apply in_map_iff in Hr; destruct Hr as (q & <- & Hq).
  apply filter_In in Hq; destruct Hq as [Hin Heq].
  apply Z.eqb_eq in Heq; repeat split; assumption.
Qed.

Lemma abs_opp (d : float) : abs (- d) = abs d.
Proof.
  apply Prim2SF_inj; rewrite !abs_spec, opp_spec.
  destruct (Prim2SF d); reflexivity.
Qed.

(** X5.  Bucketing is sign-invariant: the bucket of a put is the bucket of a
    call at the absolute delta, and a delta and its opposite fall in the same
    put bucket. *)
Theorem put_bucket_sign_invariant (d : float) :
  put_bucket d = call_bucket (abs d) /\ put_bucket (- d) = put_bucket d.
Proof.
  split; [reflexivity|].
  unfold put_bucket; rewrite abs_opp; reflexivity.
Qed.

Lemma filter_map_commute {A B : Type} (f : A -> B) (p : B -> bool) (l : list A) :
  filter p (map f l) = map f (filter (fun x => p (f x)) l).
Proof.
  induction l as [|x l IH]; cbn; [reflexivity|].
  rewrite IH; destruct (p (f x)); reflexivity.
Qed.

Lemma puts_frames_at (raw : list Quote) (m : Z) :
  puts (frames_at raw m)
  = map (fun r : Row => set_delta r (put_bucket (delta r)))
        (filter (fun r : Row => String.eqb (option_type r) "put")
                (df (frames_at raw m))).
Proof.
  unfold frames_at; cbn [puts df].
  generalize (map with_mid_iv (restrict_expiry raw m)); intros d.
  unfold col; rewrite map_map, select_map; reflexivity.
Qed.

Lemma calls_frames_at (raw : list Quote) (m : Z) :
  calls (frames_at raw m)
  = map (fun r : Row => set_delta r (call_bucket (delta r)))
        (filter (fun r : Row => String.eqb (option_type r) "call")
                (df (frames_at raw m))).
Proof.
  unfold frames_at; cbn [calls df].
  generalize (map with_mid_iv (restrict_expiry raw m)); intros d.
  unfold col; rewrite map_map, select_map; reflexivity.
Qed.

(** X3.  The 25-delta put marker is the mean mid_iv of the put quotes of
    the frame whose bucket is 20 or 30, and likewise for the calls. *)
Theorem markers_25_delta (raw : list Quote) (m : Z) :
  put_25D_iv (frames_at raw m)
  = mean (map mid_iv
            (filter (fun r : Row =>
                       PrimFloat.eqb (put_bucket (delta r)) (of_int 20)
                       || PrimFloat.eqb (put_bucket (delta r)) (of_int 30))
                    (filter (fun r : Row => String.eqb (option_type r) "put")
                            (df (frames_at raw m))))) /\
  call_25D_iv (frames_at raw m)
  = mean (map mid_iv
            (filter (fun r : Row =>
                       PrimFloat.eqb (call_bucket (delta r)) (of_int 20)
                       || PrimFloat.eqb (call_bucket (delta r)) (of_int 30))
                    (filter (fun r : Row => String.eqb (option_type r) "call")
                            (df (frames_at raw m))))).
Proof.
  unfold put_25D_iv, call_25D_iv.
  rewrite !iv_25D_filter, puts_frames_at, calls_frames_at.
  rewrite !filter_map_commute, !map_map.
  split; reflexivity.
Qed.
End MoreFrames.


(* ================================================================== *)
(** * Not-a-number through the pipeline *)

Section NotANumber.
Local Open Scope float_scope.

Lemma isnan_spec (x : float) : isnan x = true <-> Prim2SF x = S754_nan.
Proof.
  unfold isnan, is_nan; rewrite eqb_spec; unfold SFeqb.
  destruct (Prim2SF x) as [s|s| |s m e].
  - cbn; split; discriminate.
  - destruct s; cbn; split; discriminate.
  - cbn; split; reflexivity.
  - rewrite SFcompare_refl; cbn; split; discriminate.
Qed.

Lemma add_nan (a b : float) :
  isnan a = true \/ isnan b = true -> isnan (a + b) = true.
Proof.
  rewrite !isnan_spec, add_spec; intros [H|H]; rewrite H.
  - reflexivity.
  - destruct (Prim2SF a); reflexivity.
Qed.

Lemma sub_nan (a b : float) :
  isnan a = true \/ isnan b = true -> isnan (a - b) = true.
Proof.
  rewrite !isnan_spec, sub_spec; intros [H|H]; rewrite H.
  - reflexivity.
  - destruct (Prim2SF a); reflexivity.
Qed.

Lemma mul_nan (a b : float) :
  isnan a = true \/ isnan b = true -> isnan (a * b) = true.
Proof.
  rewrite !isnan_spec, mul_spec; intros [H|H]; rewrite H.
  - reflexivity.
  - destruct (Prim2SF a); reflexivity.
Qed.

Lemma div_nan (a b : float) :
  isnan a = true \/ isnan b = true -> isnan (a / b) = true.
Proof.
  rewrite !isnan_spec, div_spec; intros [H|H]; rewrite H.
  - reflexivity.
  - destruct (Prim2SF a); reflexivity.
Qed.

(** A parameter that is not-a-number makes the evaluator not-a-number at
    every delta. *)
Lemma put_delta_iv_nan (delta rr fly atm : float) :
  isnan rr = true \/ isnan fly = true \/ isnan atm = true ->
  isnan (put_delta_iv delta rr fly atm) = true.
Proof.
  unfold put_delta_iv; cbn [add sub mul div float_arith].
  intros [H|[H|H]].
  - apply add_nan; left; apply add_nan; right.
    apply mul_nan; left; apply mul_nan; right; exact H.
  - apply add_nan; right.
    apply mul_nan; left; apply mul_nan; right; exact H.
  - apply add_nan; left; apply add_nan; left; exact H.
Qed.

Lemma nan_to_zero_all_nan {A : Type} (f : A -> float) (l : list A) :
  (forall x, isnan (f x) = true) ->
  nan_to_zero (map f l) = repeat (of_int 0) (List.length l).
Proof.
  intros Hf; unfold nan_to_zero; rewrite map_map.
  induction l as [|x l IH]; cbn [map repeat List.length]; [reflexivity|].
  rewrite Hf, IH; reflexivity.
Qed.

Lemma mean_nil_nan : isnan (mean []) = true.
Proof. reflexivity. Qed.

(** X11.  One parameter that is not-a-number is enough to lose the whole
    curve: every one of the samples is not-a-number, and the sequence the
    cell binds is 99 zeros. *)
Theorem nan_parameter_flattens_curve (rr fly atm : float) :
  isnan rr = true \/ isnan fly = true \/ isnan atm = true ->
  exists xs,
    samples rr fly atm = Ok xs /\
    Forall (fun x => isnan x = true) xs /\
    put_delta_aprx rr fly atm = Ok (repeat (of_int 0) 99).
Proof.
  intros Hnan; eexists; split; [apply samples_ok|]; split.
  - apply Forall_forall; intros x Hx.
    apply in_map_iff in Hx; destruct Hx as (d & <- & _).
    apply put_delta_iv_nan, Hnan.
  - rewrite put_delta_aprx_ok, nan_to_zero_all_nan; [reflexivity|].
    intros d; apply put_delta_iv_nan, Hnan.
Qed.

Lemma nan_parameter_flattens_curve_witness :
  exists xs,
    samples nan (lit 3 2) (lit 20 2) = Ok xs /\
    Forall (fun x => isnan x = true) xs /\
    put_delta_aprx nan (lit 3 2) (lit 20 2) = Ok (repeat (of_int 0) 99).
Proof.
  apply (nan_parameter_flattens_curve nan (lit 3 2) (lit 20 2)).
  left; reflexivity.
Defined.


End NotANumber.

(* ================================================================== *)
(** * The curve at the money, and the domain of the samples *)

Section AtTheMoney.
Local Open Scope float_scope.

Lemma eqb_true_not_nan (a b : float) : (a =? b) = true -> isnan a = false.
Proof.
  unfold isnan, is_nan; rewrite !eqb_spec; unfold SFeqb.
  destruct (Prim2SF a) as [s|s| |s m e].
  - intros _; reflexivity.
  - intros _; destruct s; reflexivity.
  - cbn; discriminate.
  - intros _; rewrite SFcompare_refl; reflexivity.
Qed.

(** X13.  Every sampled delta lies strictly between 0 and 1, and the 50th
    is exactly 0.5: there, for finite atm and as long as 2*rr and 16*fly do
    not overflow, the curve shows a value equal to atm. *)
Theorem curve_through_the_money (rr fly atm : float) :
  Binary64.is_finite (of_int 2 * rr)%num = true ->
  Binary64.is_finite (of_int 16 * fly)%num = true ->
  Binary64.is_finite atm = true ->
  exists pts y,
    smile_curve rr fly atm = Ok pts /\
    Forall (fun p => (0 <? fst p) = true /\ (fst p <? 1) = true) pts /\
    nth_error pts 49 = Some (lit 50 2, y) /\
    (y =? atm) = true.
Proof.
  intros Hrr Hfly Hatm.
  assert (Heq : (put_delta_iv (lit 50 2) rr fly atm =? atm) = true).
  { unfold put_delta_iv.
    replace (lit 50 2 - lit 50 2)%num with 0 by (vm_compute; reflexivity).
    replace (power 0 2) with 0 by (vm_compute; reflexivity).
    destruct (mul_zero_r _ Hrr) as [s1 H1].
    destruct (mul_zero_r _ Hfly) as [s2 H2].
    exact (add_two_zeros atm _ _ s1 s2 Hatm H1 H2). }
  eexists; exists (put_delta_iv (lit 50 2) rr fly atm).
  split; [apply smile_curve_ok|]; split; [|split; [|exact Heq]].
  - apply Forall_forall; intros p Hp.
    apply in_map_iff in Hp; destruct Hp as (d & <- & Hd); cbn [fst].
    assert (Hall : forallb (fun d => (0 <? d) && (d <? 1)) grid_points = true)
      by (vm_compute; reflexivity).
    apply andb_prop; exact (proj1 (forallb_forall _ _) Hall d Hd).
  - rewrite nth_error_map.
    replace (nth_error grid_points 49) with (Some (lit (F := float) 50 2))
      by (vm_compute; reflexivity).
    cbn [option_map]; rewrite (eqb_true_not_nan _ _ Heq); reflexivity.
Qed.

Lemma curve_through_the_money_witness :
  exists pts y,
    smile_curve (lit (-6) 2) (lit 3 2) (lit 23 2) = Ok pts /\
    Forall (fun p => (0 <? fst p) = true /\ (fst p <? 1) = true) pts /\
    nth_error pts 49 = Some (lit 50 2, y) /\
    (y =? lit 23 2) = true.
Proof.
  apply (curve_through_the_money (lit (-6) 2) (lit 3 2) (lit 23 2));
    vm_compute; reflexivity.
Defined.
End AtTheMoney.

(* ================================================================== *)
(** * Calls and puts *)

Section Groups.

Lemma type_counts (l : list Row) :
  (List.length (filter (fun r : Row => String.eqb (option_type r) "call") l)
   + List.length (filter (fun r : Row => String.eqb (option_type r) "put") l)
   + List.length (filter other_type l) = List.length l)%nat.
Proof.
  induction l as [|r l IH]; [reflexivity|].
  cbn [filter]; unfold other_type at 1.
  destruct (String.eqb (option_type r) "call") eqn:Hc;
    destruct (String.eqb (option_type r) "put") eqn:Hp;
    cbn [negb andb List.length]; try lia.
  apply String.eqb_eq in Hc; apply String.eqb_eq in Hp.
  rewrite Hc in Hp; discriminate.
Qed.

(** X14.  The calls and the puts split the normalised frame: a row is in
    [calls] when its type is 'call', in [puts] when it is 'put', in neither
    otherwise, so the three counts add up to the frame; each of the two
    frames carries its own type only; and bucketing writes nothing back:
    the frame itself keeps the signed deltas of the input. *)
Theorem calls_puts_partition (raw : list Quote) (m : Z) :
  (List.length (calls (frames_at raw m)) + List.length (puts (frames_at raw m))
   + List.length (filter other_type (df (frames_at raw m)))
   = List.length (df (frames_at raw m)))%nat /\
  Forall (fun r : Row => option_type r = "call"%string) (calls (frames_at raw m)) /\
  Forall (fun r : Row => option_type r = "put"%string) (puts (frames_at raw m)) /\
  map (fun r : Row => delta r) (df (frames_at raw m))
  = map delta (filter (fun q => (expiration_timestamp q =? m)%Z) raw).
Proof.
  rewrite calls_frames_at, puts_frames_at, !length_map.
  split; [apply type_counts|]; split; [|split].
  - apply Forall_forall; intros r Hr.
    apply in_map_iff in Hr; destruct Hr as (r0 & <- & Hr0).
    apply filter_In in Hr0; destruct Hr0 as [_ Hr0].
    apply String.eqb_eq in Hr0; exact Hr0.
  - apply Forall_forall; intros r Hr.
    apply in_map_iff in Hr; destruct Hr as (r0 & <- & Hr0).
    apply filter_In in Hr0; destruct Hr0 as [_ Hr0].
    apply String.eqb_eq in Hr0; exact Hr0.
  - rewrite df_frames_at, map_map; reflexivity.
Qed.

End Groups.


(* ================================================================== *)
(** * The set of expiries is a set *)

(** [list(set(xs))] holds every element of [xs] once.  The probe loop never
    spends its rounds: once [perturb] has run out the slots follow
    [i -> 5*i + 1] modulo the size of the table, a recurrence of full period,
    and the table always has a free slot. *)
Module PySetCorrect.
Import PySet PySetInv.
Local Open Scope Z_scope.

(** ** Powers of two and the order of 5 *)

Lemma pow2_pos (k : nat) : 0 < 2 ^ Z.of_nat k.
Proof. apply Z.pow_pos_nonneg; lia. Qed.

Lemma pow2_S (k : nat) : 2 ^ Z.of_nat (S k) = 2 * 2 ^ Z.of_nat k.
Proof. rewrite Nat2Z.inj_succ, Z.pow_succ_r by lia; reflexivity. Qed.

(** An odd factor does not help a power of two to divide. *)
Lemma odd_cancel (k : nat) (x q : Z) :
  Z.odd q = true -> (2 ^ Z.of_nat k | x * q) -> (2 ^ Z.of_nat k | x).
Proof.
  intros Hq; revert x; induction k as [|k IH]; intros x Hd.
  - apply Z.divide_1_l.
  - rewrite pow2_S in *.
    assert (Hx : Z.even x = true).
    { destruct Hd as [c Hc].
      assert (He : Z.even (x * q) = true).
      { rewrite Hc, Z.mul_assoc, (Z.mul_comm c 2), <- Z.mul_assoc.
        rewrite Z.even_mul; reflexivity. }
      rewrite Z.even_mul in He.
      destruct (Z.even x); [reflexivity|]; cbn in He.
      rewrite <- Z.negb_odd, Hq in He; discriminate. }
    apply Z.even_spec in Hx; destruct Hx as [x' ->].
    apply Z.mul_divide_mono_l.
    apply IH.
    destruct Hd as [c Hc]; exists c; lia.
Qed.

Lemma pow5_odd (n : nat) : Z.odd (5 ^ Z.of_nat n) = true.
Proof.
  induction n as [|n IH]; [reflexivity|].
  rewrite Nat2Z.inj_succ, Z.pow_succ_r by lia.
  rewrite Z.odd_mul, IH; reflexivity.
Qed.

Lemma pow5_mod4 (n : nat) : 5 ^ Z.of_nat n mod 4 = 1.
Proof.
  induction n as [|n IH]; [reflexivity|].
  rewrite Nat2Z.inj_succ, Z.pow_succ_r by lia.
  rewrite Z.mul_mod, IH by lia; reflexivity.
Qed.

Lemma pow25_mod8 (n : nat) : 25 ^ Z.of_nat n mod 8 = 1.
Proof.
  induction n as [|n IH]; [reflexivity|].
  rewrite Nat2Z.inj_succ, Z.pow_succ_r by lia.
  rewrite Z.mul_mod, IH by lia; reflexivity.
Qed.

(** The order of 5 modulo 2^(k+2) is 2^k. *)
Lemma order_of_five (k : nat) :
  forall n : nat, (2 ^ Z.of_nat (k + 2) | 5 ^ Z.of_nat n - 1) -> (2 ^ Z.of_nat k | Z.of_nat n).
Proof.
  induction k as [|k IH]; intros n Hd; [apply Z.divide_1_l|].
  destruct (Nat.Even_or_Odd n) as [[m ->]|[m ->]].
  - (* n = 2m *)
    replace (Z.of_nat (2 * m)) with (2 * Z.of_nat m) in * by lia.
    rewrite pow2_S; apply Z.mul_divide_mono_l, IH.
    rewrite Z.pow_mul_r in Hd by lia.
    replace (5 ^ 2) with 25 in Hd by reflexivity.
    (* 25^m - 1 = (5^m-1)(5^m+1) *)
    assert (Hf : 25 ^ Z.of_nat m - 1 = (5 ^ Z.of_nat m - 1) * (5 ^ Z.of_nat m + 1)).
    { replace 25 with (5 * 5) by reflexivity. rewrite Z.pow_mul_l; lia. }
    rewrite Hf in Hd.
    pose proof (pow5_mod4 m) as H4.
    assert (Hq : exists q, 5 ^ Z.of_nat m + 1 = 2 * q /\ Z.odd q = true).
    { exists ((5 ^ Z.of_nat m + 1) / 2).
      pose proof (Z.div_mod (5 ^ Z.of_nat m) 4 ltac:(lia)) as Hdm.
      rewrite H4 in Hdm.
      set (c := 5 ^ Z.of_nat m / 4) in *.
      replace (5 ^ Z.of_nat m + 1) with ((2 * c + 1) * 2) by lia.
      rewrite Z.div_mul by lia. split; [lia|].
      replace (2 * c + 1) with (1 + 2 * c) by lia.
      rewrite Z.odd_add_mul_2; reflexivity. }
    destruct Hq as (q & Hq & Hodd); rewrite Hq in Hd.
    apply (odd_cancel _ _ q Hodd).
    replace (S k + 2)%nat with (S (k + 2)) in Hd by lia.
    rewrite pow2_S in Hd.
    destruct Hd as [c Hc]; exists c; lia.
  - (* n odd: impossible *)
    exfalso.
    replace (Z.of_nat (2 * m + 1)) with (2 * Z.of_nat m + 1) in Hd by lia.
    rewrite Z.pow_add_r, Z.pow_mul_r in Hd by lia.
    replace (5 ^ 2) with 25 in Hd by reflexivity.
    replace (5 ^ 1) with 5 in Hd by reflexivity.
    assert (H8 : (8 | 25 ^ Z.of_nat m * 5 - 1)).
    { apply Z.divide_trans with (2 ^ Z.of_nat (S k + 2)); [|exact Hd].
      replace (S k + 2)%nat with (k + 3)%nat by lia.
      rewrite Nat2Z.inj_add, Z.pow_add_r by lia.
      replace (2 ^ Z.of_nat 3) with 8 by reflexivity.
      apply Z.divide_factor_r. }
    apply Z.mod_divide in H8; [|lia].
    rewrite Zminus_mod, Z.mul_mod, pow25_mod8 in H8 by lia.
    cbn in H8; discriminate.
Qed.

(** ** The recurrence visits every slot *)

Lemma lcg_range (k : nat) (x : Z) : 0 <= lcg k x < 2 ^ Z.of_nat k.
Proof. apply Z.mod_pos_bound, pow2_pos. Qed.

Lemma lcg_iter_range (k n : nat) (x : Z) :
  0 <= x < 2 ^ Z.of_nat k -> 0 <= lcg_iter k n x < 2 ^ Z.of_nat k.
Proof.
  revert x; induction n as [|n IH]; intros x Hx; cbn; [exact Hx|].
  apply IH, lcg_range.
Qed.

Lemma lcg_iter_closed (k n : nat) (x : Z) :
  (2 ^ Z.of_nat (k + 2) | 4 * lcg_iter k n x + 1 - 5 ^ Z.of_nat n * (4 * x + 1)).
Proof.
  revert x; induction n as [|n IH]; intros x.
  - cbn [lcg_iter]; replace (5 ^ Z.of_nat 0) with 1 by reflexivity.
    replace (4 * x + 1 - 1 * (4 * x + 1)) with 0 by lia; apply Z.divide_0_r.
  - cbn [lcg_iter]; specialize (IH (lcg k x)).
    rewrite Nat2Z.inj_succ, Z.pow_succ_r by lia.
    unfold lcg in IH at 2.
    pose proof (Z.div_mod (5 * x + 1) (2 ^ Z.of_nat k)
                  ltac:(pose proof (pow2_pos k); lia)) as Hdm.
    set (c := (5 * x + 1) / 2 ^ Z.of_nat k) in *.
    set (r := (5 * x + 1) mod 2 ^ Z.of_nat k) in *.
    set (y := lcg_iter k n (lcg k x)) in *.
    set (P := 5 ^ Z.of_nat n) in *.
    replace (4 * y + 1 - 5 * P * (4 * x + 1))
      with ((4 * y + 1 - P * (4 * r + 1)) + (- P * c) * (4 * 2 ^ Z.of_nat k)) by nia.
    apply Z.divide_add_r; [exact IH|].
    apply Z.divide_mul_r.
    rewrite Nat2Z.inj_add, Z.pow_add_r by lia.
    replace (2 ^ Z.of_nat 2) with 4 by reflexivity.
    rewrite Z.mul_comm; apply Z.divide_refl.
Qed.

Lemma lcg_iter_inj (k : nat) (x : Z) (a b : nat) :
  (a <= b)%nat -> Z.of_nat b < 2 ^ Z.of_nat k ->
  lcg_iter k a x = lcg_iter k b x -> a = b.
Proof.
  intros Hab Hb Heq.
  pose proof (lcg_iter_closed k a x) as Ha.
  pose proof (lcg_iter_closed k b x) as Hb'.
  rewrite Heq in Ha.
  assert (Hd : (2 ^ Z.of_nat (k + 2)
                | 5 ^ Z.of_nat a * (4 * x + 1) - 5 ^ Z.of_nat b * (4 * x + 1))).
  { replace (5 ^ Z.of_nat a * (4 * x + 1) - 5 ^ Z.of_nat b * (4 * x + 1))
      with ((4 * lcg_iter k b x + 1 - 5 ^ Z.of_nat b * (4 * x + 1))
            - (4 * lcg_iter k b x + 1 - 5 ^ Z.of_nat a * (4 * x + 1))) by lia.
    apply Z.divide_sub_r; assumption. }
  assert (Hpow : 5 ^ Z.of_nat b = 5 ^ Z.of_nat a * 5 ^ Z.of_nat (b - a)).
  { rewrite <- Z.pow_add_r by lia; f_equal; lia. }
  rewrite Hpow in Hd.
  replace (5 ^ Z.of_nat a * (4 * x + 1)
           - 5 ^ Z.of_nat a * 5 ^ Z.of_nat (b - a) * (4 * x + 1))
    with ((- (5 ^ Z.of_nat (b - a) - 1)) * (5 ^ Z.of_nat a) * (4 * x + 1)) in Hd by lia.
  apply odd_cancel in Hd.
  2:{ replace (4 * x + 1) with (1 + 2 * (2 * x)) by lia.
      rewrite Z.odd_add_mul_2; reflexivity. }
  apply odd_cancel in Hd; [|apply pow5_odd].
  apply Z.divide_opp_r in Hd; rewrite Z.opp_involutive in Hd.
  apply order_of_five in Hd.
  destruct Hd as [c Hc].
  assert (c = 0) by nia.
  lia.
Qed.

Lemma lcg_orbit_covers (k : nat) (x j : Z) :
  0 <= x < 2 ^ Z.of_nat k -> 0 <= j < 2 ^ Z.of_nat k ->
  exists t : nat, Z.of_nat t < 2 ^ Z.of_nat k /\ lcg_iter k t x = j.
Proof.
  intros Hx Hj.
  set (N := Z.to_nat (2 ^ Z.of_nat k)).
  set (L := map (fun t => lcg_iter k t x) (seq 0 N)).
  set (R := map Z.of_nat (seq 0 N)).
  assert (HL : NoDup L).
  { apply NoDup_map_NoDup_ForallPairs; [|apply seq_NoDup].
    intros a b Ha Hb Heq; apply in_seq in Ha, Hb.
    destruct (Nat.le_ge_cases a b) as [Hle|Hle].
    - apply (lcg_iter_inj k x a b Hle); [lia | exact Heq].
    - symmetry; apply (lcg_iter_inj k x b a Hle); [lia | symmetry; exact Heq]. }
  assert (Hincl : incl L R).
  { intros y Hy; apply in_map_iff in Hy; destruct Hy as (t & <- & _).
    pose proof (lcg_iter_range k t x Hx).
    apply in_map_iff; exists (Z.to_nat (lcg_iter k t x)); split; [lia|].
    apply in_seq; lia. }
  assert (Hlen : (List.length R <= List.length L)%nat).
  { unfold R, L; rewrite !length_map; lia. }
  pose proof (NoDup_length_incl HL Hlen Hincl) as Hback.
  assert (HjR : In j R).
  { apply in_map_iff; exists (Z.to_nat j); split; [lia|]; apply in_seq; lia. }
  apply Hback, in_map_iff in HjR; destruct HjR as (t & Ht & Hin).
  apply in_seq in Hin; exists t; split; [lia | exact Ht].
Qed.

(** ** The probe loop ends *)

Lemma land_mask_mod (a : Z) (k : nat) :
  Z.land a (2 ^ Z.of_nat k - 1) = a mod 2 ^ Z.of_nat k.
Proof.
  replace (2 ^ Z.of_nat k - 1) with (Z.ones (Z.of_nat k))
    by (rewrite Z.ones_equiv; lia).
  apply Z.land_ones; lia.
Qed.

Lemma probe_step_zero (k : nat) (i : Z) :
  probe_step (2 ^ Z.of_nat k - 1) (i, 0) = (lcg k i, 0).
Proof.
  unfold probe_step, lcg; cbn [fst snd].
  rewrite Z.shiftr_0_l, land_mask_mod; f_equal; f_equal; lia.
Qed.

Lemma probe_iter_zero (k n : nat) (i : Z) :
  probe_iter (2 ^ Z.of_nat k - 1) n (i, 0) = (lcg_iter k n i, 0).
Proof.
  revert i; induction n as [|n IH]; intros i; cbn [probe_iter lcg_iter];
    [reflexivity|].
  rewrite probe_step_zero; apply IH.
Qed.

Lemma probe_iter_add (msk : Z) (a b : nat) (x : Z * Z) :
  probe_iter msk (a + b) x = probe_iter msk b (probe_iter msk a x).
Proof.
  revert x; induction a as [|a IH]; intros x; cbn [Nat.add probe_iter];
    [reflexivity | apply IH].
Qed.

Lemma snd_probe_iter (msk : Z) (n : nat) (i p : Z) :
  snd (probe_iter msk n (i, p)) = Z.shiftr p (5 * Z.of_nat n).
Proof.
  revert i p; induction n as [|n IH]; intros i p; cbn [probe_iter].
  - cbn [snd]; change (5 * Z.of_nat 0) with 0.
    rewrite Z.shiftr_0_r; reflexivity.
  - unfold probe_step at 1; cbn [fst snd]; rewrite IH.
    unfold PERTURB_SHIFT; rewrite Z.shiftr_shiftr by lia.
    f_equal; lia.
Qed.

Lemma fst_probe_iter_range (k n : nat) (ip : Z * Z) :
  0 <= fst (probe_iter (2 ^ Z.of_nat k - 1) (S n) ip) < 2 ^ Z.of_nat k.
Proof.
  revert ip; induction n as [|n IH]; intros ip.
  - cbn [probe_iter]; unfold probe_step; cbn [fst].
    rewrite land_mask_mod; apply Z.mod_pos_bound, pow2_pos.
  - change (probe_iter (2 ^ Z.of_nat k - 1) (S (S n)) ip)
      with (probe_iter (2 ^ Z.of_nat k - 1) (S n) (probe_step (2 ^ Z.of_nat k - 1) ip)).
    apply IH.
Qed.

(** Within [13 + 2^k] steps the probe sequence has visited every slot. *)
Lemma probe_covers (k : nat) (i p j : Z) :
  0 <= p < 2 ^ 64 -> 0 <= j < 2 ^ Z.of_nat k ->
  exists t : nat,
    (t < 13 + Z.to_nat (2 ^ Z.of_nat k))%nat /\
    fst (probe_iter (2 ^ Z.of_nat k - 1) t (i, p)) = j.
Proof.
  intros Hp Hj.
  set (msk := 2 ^ Z.of_nat k - 1).
  destruct (probe_iter msk 13 (i, p)) as [i13 p13] eqn:H13.
  assert (Hp13 : p13 = 0).
  { change p13 with (snd (i13, p13)); rewrite <- H13, snd_probe_iter.
    rewrite Z.shiftr_div_pow2 by lia.
    apply Z.div_small; change (5 * Z.of_nat 13) with 65.
    assert (2 ^ 64 < 2 ^ 65) by (apply Z.pow_lt_mono_r; lia); lia. }
  assert (Hi13 : 0 <= i13 < 2 ^ Z.of_nat k).
  { change i13 with (fst (i13, p13)); rewrite <- H13.
    apply (fst_probe_iter_range k 12). }
  subst p13.
  destruct (lcg_orbit_covers k i13 j Hi13 Hj) as (t & Ht & Hjt).
  exists (13 + t)%nat; split; [lia|].
  rewrite probe_iter_add, H13; unfold msk; rewrite probe_iter_zero; exact Hjt.
Qed.

Lemma linear_probes_not_exhausted (tbl : list (option Z)) (key i : Z) (j : nat) (r : probe) :
  linear_probes tbl key i j = Some r -> r <> Exhausted.
Proof.
  revert i; induction j as [|j IH]; intros i; cbn [linear_probes]; [discriminate|].
  destruct (slot tbl (i + 1)) as [k|]; [|intros [= <-]; discriminate].
  destruct (k =? key); [intros [= <-]; discriminate | apply IH].
Qed.

Lemma lookkey_not_exhausted_at (tbl : list (option Z)) (msk key : Z) :
  forall (fuel : nat) (i p : Z),
    (exists t : nat, (t < fuel)%nat /\
                     slot tbl (fst (probe_iter msk t (i, p))) = None) ->
    lookkey fuel tbl msk key i p <> Exhausted.
Proof.
  induction fuel as [|fuel IH]; intros i p (t & Ht & Hfree); [lia|].
  cbn [lookkey].
  destruct (slot tbl i) as [k0|] eqn:Hi; [|discriminate].
  destruct (k0 =? key); [discriminate|].
  destruct (if i + LINEAR_PROBES <=? msk
            then linear_probes tbl key i (Z.to_nat LINEAR_PROBES) else None)
    as [r|] eqn:Hlin.
  - destruct (i + LINEAR_PROBES <=? msk); [|discriminate].
    apply (linear_probes_not_exhausted _ _ _ _ _ Hlin).
  - apply IH.
    destruct t as [|t]; [cbn in Hfree; congruence|].
    exists t; split; [lia | exact Hfree].
Qed.

Lemma free_entry (tbl : list (option Z)) :
  (List.length (keys tbl) < List.length tbl)%nat ->
  exists n, (n < List.length tbl)%nat /\ nth n tbl None = None.
Proof.
  induction tbl as [|e tbl IH]; cbn [keys List.length]; [lia|].
  destruct e as [k|].
  - cbn [List.length]; intros H.
    destruct IH as (n & Hn & Hnth); [lia|].
    exists (S n); split; [lia | exact Hnth].
  - intros _; exists O; split; [lia | reflexivity].
Qed.

(** With a free entry in the table the probe loop ends before its rounds
    are spent. *)
Lemma lookkey_not_exhausted (k : nat) (tbl : list (option Z)) (key i p : Z) :
  List.length tbl = Z.to_nat (2 ^ Z.of_nat k) ->
  (List.length (keys tbl) < List.length tbl)%nat ->
  0 <= p < 2 ^ 64 ->
  lookkey (rounds (2 ^ Z.of_nat k - 1)) tbl (2 ^ Z.of_nat k - 1) key i p <> Exhausted.
Proof.
  intros Hlen Hfree Hp.
  destruct (free_entry tbl Hfree) as (n & Hn & Hnth).
  pose proof (pow2_pos k) as Hpos.
  destruct (probe_covers k i p (Z.of_nat n) Hp ltac:(lia)) as (t & Ht & Hjt).
  apply lookkey_not_exhausted_at.
  exists t; split; [unfold rounds; lia|].
  rewrite Hjt; unfold slot; rewrite Nat2Z.id; exact Hnth.
Qed.

(** ** Tables and one more key *)

Lemma length_store (tbl : list (option Z)) (n : nat) (key : Z) :
  List.length (store tbl n key) = List.length tbl.
Proof.
  revert n; induction tbl as [|e tbl IH]; intros n; [reflexivity|].
  destruct n; cbn; [reflexivity | rewrite IH; reflexivity].
Qed.

Lemma nth_store_same (tbl : list (option Z)) (n : nat) (key : Z) :
  (n < List.length tbl)%nat -> nth n (store tbl n key) None = Some key.
Proof.
  revert n; induction tbl as [|e tbl IH]; intros n Hn; cbn in Hn; [lia|].
  destruct n; cbn; [reflexivity | apply IH; lia].
Qed.

Lemma nth_store_other (tbl : list (option Z)) (n m : nat) (key : Z) :
  m <> n -> nth m (store tbl n key) None = nth m tbl None.
Proof.
  revert n m; induction tbl as [|e tbl IH]; intros n m Hmn; [reflexivity|].
  destruct n, m; cbn; try reflexivity; [congruence | apply IH; congruence].
Qed.

Lemma keys_store_perm (tbl : list (option Z)) (n : nat) (key : Z) :
  (n < List.length tbl)%nat -> nth n tbl None = None ->
  Permutation (keys (store tbl n key)) (key :: keys tbl).
Proof.
  revert n; induction tbl as [|e tbl IH]; intros n Hn Hfree; cbn in Hn; [lia|].
  destruct n as [|n].
  - cbn in Hfree; subst e; cbn; apply Permutation_refl.
  - cbn [store nth] in *; destruct e as [k0|]; cbn [keys].
    + eapply perm_trans; [apply perm_skip, IH; [lia | exact Hfree]|].
      apply perm_swap.
    + apply IH; [lia | exact Hfree].
Qed.

Lemma nth_in_keys (tbl : list (option Z)) (n : nat) (k : Z) :
  nth n tbl None = Some k -> In k (keys tbl).
Proof.
  revert n; induction tbl as [|e tbl IH]; intros n Hn.
  - destruct n; discriminate.
  - destruct n as [|n]; cbn in Hn.
    + subst e; left; reflexivity.
    + destruct e; cbn; [right|]; apply (IH n Hn).
Qed.

Lemma slot_in_keys (tbl : list (option Z)) (i k : Z) :
  slot tbl i = Some k -> In k (keys tbl).
Proof. apply nth_in_keys. Qed.

Section OneMoreKey.
Variables (tbl : list (option Z)) (n : nat) (key : Z).
Hypothesis Hfree : nth n tbl None = None.

Lemma slot_store_occupied (x k0 : Z) :
  slot tbl x = Some k0 -> slot (store tbl n key) x = Some k0.
Proof.
  unfold slot; intros Hx; rewrite nth_store_other; [exact Hx|].
  intros E; rewrite E in Hx; congruence.
Qed.

Lemma linear_probes_store_stable (key' i : Z) (c : nat) :
  (forall u, linear_probes tbl key' i c <> Some (Unused u)) ->
  linear_probes (store tbl n key) key' i c = linear_probes tbl key' i c.
Proof.
  revert i; induction c as [|c IH]; intros i; cbn [linear_probes]; [reflexivity|].
  destruct (slot tbl (i + 1)) as [k0|] eqn:Hs.
  - rewrite (slot_store_occupied _ _ Hs).
    destruct (k0 =? key'); [reflexivity | apply IH].
  - intros H; exfalso; apply (H (i + 1)); reflexivity.
Qed.

Lemma lookkey_store_stable (msk key' : Z) :
  forall (fuel : nat) (i p : Z),
    (forall u, lookkey fuel tbl msk key' i p <> Unused u) ->
    lookkey fuel (store tbl n key) msk key' i p = lookkey fuel tbl msk key' i p.
Proof.
  induction fuel as [|fuel IH]; intros i p; cbn [lookkey]; [reflexivity|].
  destruct (slot tbl i) as [k0|] eqn:Hs.
  - rewrite (slot_store_occupied _ _ Hs).
    destruct (k0 =? key'); [reflexivity|].
    destruct (i + LINEAR_PROBES <=? msk).
    + destruct (linear_probes tbl key' i (Z.to_nat LINEAR_PROBES)) as [r|] eqn:Hlin.
      * intros H; rewrite linear_probes_store_stable, Hlin; [reflexivity|].
        rewrite Hlin; intros u [= ->]; apply (H u); reflexivity.
      * intros H; rewrite linear_probes_store_stable, Hlin; [apply IH, H|].
        rewrite Hlin; discriminate.
    + apply IH.
  - intros H; exfalso; apply (H i); reflexivity.
Qed.
End OneMoreKey.

Lemma linear_probes_unused_free (tbl : list (option Z)) (key i j : Z) (c : nat) :
  linear_probes tbl key i c = Some (Unused j) ->
  slot tbl j = None /\ i < j <= i + Z.of_nat c.
Proof.
  revert i; induction c as [|c IH]; intros i; cbn [linear_probes]; [discriminate|].
  destruct (slot tbl (i + 1)) as [k0|] eqn:Hs.
  - destruct (k0 =? key); [discriminate|].
    intros H; destruct (IH _ H); split; [assumption | lia].
  - intros [= <-]; split; [exact Hs | lia].
Qed.

Lemma lookkey_unused_free (k : nat) (tbl : list (option Z)) (key : Z) :
  forall (fuel : nat) (i p j : Z),
    0 <= i < 2 ^ Z.of_nat k ->
    lookkey fuel tbl (2 ^ Z.of_nat k - 1) key i p = Unused j ->
    slot tbl j = None /\ 0 <= j < 2 ^ Z.of_nat k.
Proof.
  induction fuel as [|fuel IH]; intros i p j Hi; cbn [lookkey]; [discriminate|].
  destruct (slot tbl i) as [k0|] eqn:Hs.
  - destruct (k0 =? key); [discriminate|].
    destruct (i + LINEAR_PROBES <=? 2 ^ Z.of_nat k - 1) eqn:Hc.
    + destruct (linear_probes tbl key i (Z.to_nat LINEAR_PROBES)) as [r|] eqn:Hlin.
      * intros ->; apply linear_probes_unused_free in Hlin.
        apply Z.leb_le in Hc; unfold LINEAR_PROBES in *.
        destruct Hlin; split; [assumption | lia].
      * apply IH; rewrite land_mask_mod; apply Z.mod_pos_bound, pow2_pos.
    + apply IH; rewrite land_mask_mod; apply Z.mod_pos_bound, pow2_pos.
  - intros [= <-]; split; assumption.
Qed.

Lemma linear_probes_store_found (tbl : list (option Z)) (key i j : Z) (c : nat) :
  0 <= i -> (Z.to_nat j < List.length tbl)%nat ->
  linear_probes tbl key i c = Some (Unused j) ->
  linear_probes (store tbl (Z.to_nat j) key) key i c = Some Active.
Proof.
  intros Hi Hj; revert i Hi; induction c as [|c IH]; intros i Hi;
    cbn [linear_probes]; [discriminate|].
  destruct (slot tbl (i + 1)) as [k0|] eqn:Hs.
  - destruct (k0 =? key) eqn:Hk; [discriminate|].
    intros H.
    destruct (linear_probes_unused_free _ _ _ _ _ H) as [Hjfree _].
    rewrite (slot_store_occupied tbl (Z.to_nat j) key Hjfree _ _ Hs), Hk.
    apply IH; [lia | exact H].
  - intros [= <-]; unfold slot; rewrite nth_store_same by exact Hj.
    rewrite Z.eqb_refl; reflexivity.
Qed.

Lemma lookkey_store_found (k : nat) (tbl : list (option Z)) (key : Z) :
  forall (fuel : nat) (i p j : Z),
    0 <= i < 2 ^ Z.of_nat k ->
    (Z.to_nat j < List.length tbl)%nat ->
    lookkey fuel tbl (2 ^ Z.of_nat k - 1) key i p = Unused j ->
    lookkey fuel (store tbl (Z.to_nat j) key) (2 ^ Z.of_nat k - 1) key i p = Active.
Proof.
  induction fuel as [|fuel IH]; intros i p j Hi Hj; cbn [lookkey]; [discriminate|].
  intros H.
  assert (Hjfree : slot tbl j = None).
  { apply (lookkey_unused_free k tbl key (S fuel) i p j Hi); exact H. }
  revert H.
  destruct (slot tbl i) as [k0|] eqn:Hs.
  - rewrite (slot_store_occupied tbl (Z.to_nat j) key Hjfree _ _ Hs).
    destruct (k0 =? key); [discriminate|].
    destruct (i + LINEAR_PROBES <=? 2 ^ Z.of_nat k - 1).
    + destruct (linear_probes tbl key i (Z.to_nat LINEAR_PROBES)) as [r|] eqn:Hlin.
      * intros ->.
        rewrite (linear_probes_store_found _ _ _ _ _ (proj1 Hi) Hj Hlin).
        reflexivity.
      * rewrite (linear_probes_store_stable tbl (Z.to_nat j) key Hjfree), Hlin
          by (rewrite Hlin; discriminate).
        apply IH; [|exact Hj].
        rewrite land_mask_mod; apply Z.mod_pos_bound, pow2_pos.
    + apply IH; [|exact Hj].
      rewrite land_mask_mod; apply Z.mod_pos_bound, pow2_pos.
  - intros [= <-]; unfold slot; rewrite nth_store_same by exact Hj.
    rewrite Z.eqb_refl; reflexivity.
Qed.

Lemma linear_probes_active_in (tbl : list (option Z)) (key i : Z) (c : nat) :
  linear_probes tbl key i c = Some Active -> In key (keys tbl).
Proof.
  revert i; induction c as [|c IH]; intros i; cbn [linear_probes]; [discriminate|].
  destruct (slot tbl (i + 1)) as [k0|] eqn:Hs; [|discriminate].
  destruct (k0 =? key) eqn:Hk; [|apply IH].
  intros _; apply Z.eqb_eq in Hk; subst k0; apply (slot_in_keys _ _ _ Hs).
Qed.

Lemma lookkey_active_in (tbl : list (option Z)) (msk key : Z) :
  forall (fuel : nat) (i p : Z),
    lookkey fuel tbl msk key i p = Active -> In key (keys tbl).
Proof.
  induction fuel as [|fuel IH]; intros i p; cbn [lookkey]; [discriminate|].
  destruct (slot tbl i) as [k0|] eqn:Hs; [|discriminate].
  destruct (k0 =? key) eqn:Hk.
  - intros _; apply Z.eqb_eq in Hk; subst k0; apply (slot_in_keys _ _ _ Hs).
  - destruct (i + LINEAR_PROBES <=? msk).
    + destruct (linear_probes tbl key i (Z.to_nat LINEAR_PROBES)) as [r|] eqn:Hlin.
      * intros ->; apply (linear_probes_active_in _ _ _ _ Hlin).
      * apply IH.
    + apply IH.
Qed.

(** [free_slot] is [lookkey] for a key the table does not hold. *)
Lemma linear_free_probes (tbl : list (option Z)) (key i : Z) (c : nat) :
  ~ In key (keys tbl) ->
  linear_probes tbl key i c = option_map Unused (linear_free tbl i c).
Proof.
  intros Hnew; revert i; induction c as [|c IH]; intros i;
    cbn [linear_probes linear_free]; [reflexivity|].
  destruct (slot tbl (i + 1)) as [k0|] eqn:Hs; [|reflexivity].
  destruct (k0 =? key) eqn:Hk; [|apply IH].
  apply Z.eqb_eq in Hk; subst k0; exfalso; apply Hnew, (slot_in_keys _ _ _ Hs).
Qed.

Lemma free_slot_lookkey (tbl : list (option Z)) (msk key : Z) :
  ~ In key (keys tbl) ->
  forall (fuel : nat) (i p : Z),
    lookkey fuel tbl msk key i p
    = match free_slot fuel tbl msk i p with
      | Some j => Unused j
      | None => Exhausted
      end.
Proof.
  intros Hnew; induction fuel as [|fuel IH]; intros i p;
    cbn [lookkey free_slot]; [reflexivity|].
  destruct (slot tbl i) as [k0|] eqn:Hs; [|reflexivity].
  destruct (k0 =? key) eqn:Hk.
  { apply Z.eqb_eq in Hk; subst k0; exfalso; apply Hnew, (slot_in_keys _ _ _ Hs). }
  destruct (i + LINEAR_PROBES <=? msk); [|apply IH].
  rewrite (linear_free_probes _ _ _ _ Hnew).
  destruct (linear_free tbl i (Z.to_nat LINEAR_PROBES)); [reflexivity | apply IH].
Qed.

(** ** The invariant is kept *)

Lemma size_t_range (h : Z) : 0 <= size_t h < 2 ^ 64.
Proof. unfold size_t; apply Z.mod_pos_bound; reflexivity. Qed.

Lemma start_range (k : nat) (h : Z) :
  0 <= Z.land h (2 ^ Z.of_nat k - 1) < 2 ^ Z.of_nat k.
Proof. rewrite land_mask_mod; apply Z.mod_pos_bound, pow2_pos. Qed.

Lemma table_ok_empty (k : nat) :
  table_ok k (repeat None (Z.to_nat (2 ^ Z.of_nat k))).
Proof.
  split.
  - apply repeat_length.
  - rewrite PySetFacts.keys_repeat_None; constructor.
  - intros key; rewrite PySetFacts.keys_repeat_None; contradiction.
Qed.

(** A key the table does not hold, and room for it: the probe loop ends on
    a free entry, and the table with the key stored there is a good table
    holding one key more. *)
Lemma insert_step (k : nat) (tbl : list (option Z)) (key : Z) :
  table_ok k tbl ->
  ~ In key (keys tbl) ->
  (List.length (keys tbl) < List.length tbl)%nat ->
  exists j,
    lookkey (rounds (2 ^ Z.of_nat k - 1)) tbl (2 ^ Z.of_nat k - 1) key
            (Z.land (size_t (hash key)) (2 ^ Z.of_nat k - 1)) (size_t (hash key))
    = Unused j /\
    table_ok k (store tbl (Z.to_nat j) key) /\
    Permutation (keys (store tbl (Z.to_nat j) key)) (key :: keys tbl).
Proof.
  intros [Hlen Hnd Hfind] Hnew Hroom.
  set (msk := 2 ^ Z.of_nat k - 1) in *.
  set (h := size_t (hash key)).
  destruct (lookkey (rounds msk) tbl msk key (Z.land h msk) h) as [j| |] eqn:Hlk.
  - exists j.
    destruct (lookkey_unused_free k tbl key _ _ _ _ (start_range k h) Hlk)
      as [Hjfree Hjr].
    assert (Hj : (Z.to_nat j < List.length tbl)%nat) by (rewrite Hlen; lia).
    assert (Hperm : Permutation (keys (store tbl (Z.to_nat j) key)) (key :: keys tbl))
      by (apply keys_store_perm; assumption).
    split; [reflexivity|]; split; [|exact Hperm].
    split.
    + rewrite length_store; exact Hlen.
    + apply (Permutation_NoDup (Permutation_sym Hperm)); constructor; assumption.
    + intros key' Hin.
      apply (Permutation_in _ Hperm) in Hin; destruct Hin as [<-|Hin].
      * apply (lookkey_store_found k tbl key _ _ _ _ (start_range k h) Hj Hlk).
      * unfold findable; fold msk.
        rewrite (lookkey_store_stable tbl (Z.to_nat j) key Hjfree).
        -- apply Hfind, Hin.
        -- intros u; specialize (Hfind key' Hin); unfold findable in Hfind.
           fold msk in Hfind; rewrite Hfind; discriminate.
  - exfalso; apply Hnew, (lookkey_active_in _ _ _ _ _ _ Hlk).
  - exfalso; revert Hlk.
    apply (lookkey_not_exhausted k tbl key _ _ Hlen Hroom (size_t_range _)).
Qed.

Lemma set_insert_clean_ok (k : nat) (tbl : list (option Z)) (key : Z) :
  table_ok k tbl ->
  ~ In key (keys tbl) ->
  (List.length (keys tbl) < List.length tbl)%nat ->
  table_ok k (set_insert_clean (2 ^ Z.of_nat k - 1) tbl key) /\
  Permutation (keys (set_insert_clean (2 ^ Z.of_nat k - 1) tbl key)) (key :: keys tbl).
Proof.
  intros Hok Hnew Hroom.
  destruct (insert_step k tbl key Hok Hnew Hroom) as (j & Hlk & Hok' & Hperm).
  unfold set_insert_clean.
  rewrite (free_slot_lookkey _ _ _ Hnew) in Hlk.
  destruct (free_slot _ _ _ _ _) as [j'|]; [|discriminate].
  injection Hlk as ->; split; assumption.
Qed.

Lemma fold_insert_clean_ok (k : nat) (ks : list Z) :
  forall tbl,
    table_ok k tbl ->
    NoDup ks ->
    (forall x, In x ks -> ~ In x (keys tbl)) ->
    (List.length (keys tbl) + List.length ks < List.length tbl)%nat ->
    table_ok k (fold_left (set_insert_clean (2 ^ Z.of_nat k - 1)) ks tbl) /\
    Permutation (keys (fold_left (set_insert_clean (2 ^ Z.of_nat k - 1)) ks tbl))
                (ks ++ keys tbl).
Proof.
  induction ks as [|x ks IH]; intros tbl Hok Hnd Hnew Hroom; cbn [fold_left].
  - split; [exact Hok | apply Permutation_refl].
  - inversion Hnd as [|? ? Hx Hnd']; subst.
    cbn [List.length] in Hroom.
    destruct (set_insert_clean_ok k tbl x Hok (Hnew x (or_introl eq_refl)) ltac:(lia))
      as [Hok' Hperm].
    assert (Hlen' : List.length (set_insert_clean (2 ^ Z.of_nat k - 1) tbl x)
                    = List.length tbl).
    { rewrite (ok_length _ _ Hok'), (ok_length _ _ Hok); reflexivity. }
    destruct (IH _ Hok' Hnd') as [Hok'' Hperm''].
    + intros y Hy Hin; apply (Permutation_in _ Hperm) in Hin.
      destruct Hin as [<-|Hin]; [contradiction|].
      apply (Hnew y (or_intror Hy) Hin).
    + rewrite Hlen', (Permutation_length Hperm); cbn [List.length]; lia.
    + split; [exact Hok''|].
      eapply perm_trans; [exact Hperm''|].
      eapply perm_trans; [apply Permutation_app_head, Hperm|].
      cbn [app]; apply Permutation_sym, Permutation_middle.
Qed.

Lemma newsize_power_nat (minused : Z) :
  0 < minused ->
  exists k : nat,
    (3 <= k)%nat /\
    Z.max PySet_MINSIZE (2 ^ (Z.log2 minused + 1)) = 2 ^ Z.of_nat k /\
    minused < 2 ^ Z.of_nat k.
Proof.
  intros Hpos.
  pose proof (Z.log2_spec minused Hpos) as [_ Hup].
  replace (Z.succ (Z.log2 minused)) with (Z.log2 minused + 1) in Hup by lia.
  pose proof (Z.log2_nonneg minused) as Hl.
  destruct (Z.max_spec PySet_MINSIZE (2 ^ (Z.log2 minused + 1))) as [[Hlt ->]|[Hle ->]].
  - exists (Z.to_nat (Z.log2 minused + 1)).
    rewrite Z2Nat.id by lia; split; [|split; [reflexivity | exact Hup]].
    unfold PySet_MINSIZE in Hlt.
    assert (3 < Z.log2 minused + 1); [|lia].
    apply (Z.pow_lt_mono_r_iff 2); [lia | lia | exact Hlt].
  - exists 3%nat; split; [lia|]; split; [reflexivity|].
    unfold PySet_MINSIZE in *; change (2 ^ Z.of_nat 3) with 8; lia.
Qed.

Lemma wf_empty : wf empty.
Proof.
  exists 3%nat; split; [lia|]; split; [reflexivity|]; split.
  - apply (table_ok_empty 3).
  - split; [reflexivity|]; split; reflexivity.
Qed.

Lemma set_add_key_ok (so : setobject) (key : Z) :
  wf so ->
  wf (set_add_key so key) /\
  (forall x, In x (to_list (set_add_key so key)) <-> x = key \/ In x (to_list so)).
Proof.
  intros (k & Hk & Hmask & Hok & Hfill & Hused & Hload).
  pose proof (pow2_pos k) as Hpos.
  assert (Hroom : (List.length (keys (table so)) < List.length (table so))%nat).
  { rewrite (ok_length _ _ Hok); rewrite Hmask in Hload; lia. }
  unfold set_add_key, to_list; rewrite Hmask.
  destruct (lookkey _ _ _ _ _ _) as [i| |] eqn:Hlk.
  - assert (Hnew : ~ In key (keys (table so))).
    { intros Hin; apply (ok_findable _ _ Hok) in Hin.
      unfold findable in Hin; rewrite Hin in Hlk; discriminate. }
    destruct (insert_step k (table so) key Hok Hnew Hroom) as (j & Hlk' & Hok' & Hperm).
    rewrite Hlk in Hlk'; injection Hlk' as ->.
    cbv zeta; cbn [fill used mask table].
    assert (Hlen' : List.length (keys (store (table so) (Z.to_nat j) key))
                    = S (List.length (keys (table so))))
      by (rewrite (Permutation_length Hperm); reflexivity).
    destruct (_ <? _) eqn:Hcond.
    + split.
      * exists k; cbn [fill used mask table].
        split; [exact Hk|]; split; [reflexivity|]; split; [exact Hok'|].
        split; [rewrite Hlen'; lia|]; split; [lia|].
        apply Z.ltb_lt in Hcond; exact Hcond.
      * intros x; cbn [table]; split; intros Hx.
        -- apply (Permutation_in _ Hperm) in Hx; destruct Hx; auto.
        -- apply (Permutation_in _ (Permutation_sym Hperm)).
           destruct Hx as [->|Hx]; [left; reflexivity | right; exact Hx].
    + set (u := used so + 1).
      set (minused := if 50000 <? u then u * 2 else u * 4).
      assert (Hu : u = Z.of_nat (S (List.length (keys (table so))))) by (unfold u; lia).
      assert (Hmin : 2 * u <= minused)
        by (unfold minused; destruct (50000 <? u); lia).
      destruct (newsize_power_nat minused ltac:(lia)) as (k' & Hk' & Hsize & Hbig).
      unfold set_table_resize; cbn [fill used mask table]; fold u; fold minused.
      rewrite Hsize.
      destruct (fold_insert_clean_ok k' (keys (store (table so) (Z.to_nat j) key))
                  (repeat None (Z.to_nat (2 ^ Z.of_nat k'))))
        as [Hok'' Hperm''].
      * apply table_ok_empty.
      * apply Hok'.
      * intros x _; rewrite PySetFacts.keys_repeat_None; intros [].
      * rewrite PySetFacts.keys_repeat_None, repeat_length, Hlen'; cbn [List.length]; lia.
      * rewrite PySetFacts.keys_repeat_None, app_nil_r in Hperm''.
        split.
        -- exists k'; cbn [fill used mask table].
           split; [exact Hk'|]; split; [reflexivity|]; split; [exact Hok''|].
           split; [rewrite (Permutation_length Hperm''), Hlen'; exact Hu|].
           split; [reflexivity|]; lia.
        -- intros x; cbn [table]; split; intros Hx.
           ++ apply (Permutation_in _ Hperm'') in Hx.
              apply (Permutation_in _ Hperm) in Hx; destruct Hx; auto.
           ++ apply (Permutation_in _ (Permutation_sym Hperm'')).
              apply (Permutation_in _ (Permutation_sym Hperm)).
              destruct Hx as [->|Hx]; [left; reflexivity | right; exact Hx].
  - split.
    + exists k; repeat split; try assumption; try apply Hok.
    + intros x; split; [auto|].
      intros [->|Hx]; [|exact Hx].
      apply (lookkey_active_in _ _ _ _ _ _ Hlk).
  - exfalso; revert Hlk.
    apply (lookkey_not_exhausted k _ key _ _ (ok_length _ _ Hok) Hroom (size_t_range _)).
Qed.

Lemma fold_add_key_ok (xs : list Z) :
  forall so,
    wf so ->
    wf (fold_left set_add_key xs so) /\
    (forall x, In x (to_list (fold_left set_add_key xs so))
               <-> In x xs \/ In x (to_list so)).
Proof.
  induction xs as [|y xs IH]; intros so Hwf; cbn [fold_left].
  - split; [exact Hwf|]; intros x; cbn; tauto.
  - destruct (set_add_key_ok so y Hwf) as [Hwf' Hin'].
    destruct (IH _ Hwf') as [Hwf'' Hin''].
    split; [exact Hwf''|].
    intros x; rewrite Hin'', Hin'; cbn [In]; intuition congruence.
Qed.

Lemma set_of_list_correct (xs : list Z) :
  NoDup (to_list (of_list xs)) /\
  (forall x, In x (to_list (of_list xs)) <-> In x xs).
Proof.
  destruct (fold_add_key_ok xs empty wf_empty) as [(k & _ & _ & Hok & _) Hin].
  split; [apply Hok|].
  intros x; unfold of_list; rewrite Hin.
  change (to_list empty) with (@nil Z); cbn [In]; tauto.
Qed.
End PySetCorrect.

(* ================================================================== *)
(** * The expiries the normaliser chooses from *)

Section Expiries.
Local Open Scope Z_scope.

(** X16.  [maturities] lists the expiries of the frame, each of them once:
    it has no duplicate, holds the expiry of every quote and nothing else. *)
Theorem maturities_distinct_expiries (raw : list Quote) :
  NoDup (maturities raw) /\
  (forall m, In m (maturities raw)
             <-> exists q, In q raw /\ expiration_timestamp q = m).
Proof.
  unfold maturities, col.
  destruct (PySetCorrect.set_of_list_correct (map expiration_timestamp raw))
    as [Hnd Hin].
  split; [exact Hnd|].
  intros m; rewrite Hin, in_map_iff; split; intros (q & H1 & H2); exists q; auto.
Qed.

Lemma one_element {A : Type} (l : list A) (a : A) :
  NoDup l -> l <> [] -> (forall x, In x l -> x = a) -> l = [a].
Proof.
  intros Hnd Hne Hall.
  destruct l as [|x l]; [congruence|].
  rewrite (Hall x (or_introl eq_refl)) in *.
  destruct l as [|y l]; [reflexivity|].
  exfalso; inversion Hnd as [|? ? Hnotin _]; subst; apply Hnotin.
  rewrite (Hall y (or_intror (or_introl eq_refl))); left; reflexivity.
Qed.

Lemma filter_all {A : Type} (p : A -> bool) (l : list A) :
  (forall x, In x l -> p x = true) -> filter p l = l.
Proof.
  induction l as [|x l IH]; intros Hp; cbn; [reflexivity|].
  rewrite (Hp x (or_introl eq_refl)), IH; [reflexivity|].
  intros y Hy; apply Hp; right; exact Hy.
Qed.

(** X17.  On quotes that all share one expiry the order of the set plays
    no part: the normaliser keeps that expiry and every quote, in the order
    of the input. *)
Theorem normalizer_single_expiry (raw : list Quote) (m : Z) :
  raw <> [] ->
  (forall q, In q raw -> expiration_timestamp q = m) ->
  maturities raw = [m] /\
  normalizer raw = Ok (frames_at raw m) /\
  df (frames_at raw m) = map with_mid_iv raw.
Proof.
  intros Hraw Hall.
  assert (Hm : maturities raw = [m]).
  { destruct (PySetCorrect.set_of_list_correct (map expiration_timestamp raw))
      as [Hnd Hin].
    apply one_element.
    - exact Hnd.
    - apply maturities_nonempty, Hraw.
    - intros x Hx; apply Hin, in_map_iff in Hx.
      destruct Hx as (q & <- & Hq); apply Hall, Hq. }
  split; [exact Hm|]; split.
  - unfold normalizer; rewrite Hm, getitem_head; reflexivity.
  - rewrite df_frames_at, filter_all; [reflexivity|].
    intros q Hq; apply Z.eqb_eq, Hall, Hq.
Qed.

Lemma normalizer_single_expiry_witness :
  maturities lonely_put = [1585900800000] /\
  normalizer lonely_put = Ok (frames_at lonely_put 1585900800000) /\
  df (frames_at lonely_put 1585900800000) = map with_mid_iv lonely_put.
Proof.
  apply (normalizer_single_expiry lonely_put 1585900800000).
  - discriminate.
  - intros q [<-|[]]; reflexivity.
Defined.
End Expiries.

(* ================================================================== *)
(** * Quotes without a delta or a strike, and the errors of the notebook *)

Section Edges.
Local Open Scope float_scope.

Lemma eqb_nan_l (a b : float) : isnan a = true -> (a =? b) = false.
Proof.
  rewrite isnan_spec, eqb_spec; intros ->; reflexivity.
Qed.

Lemma leb_nan (a b : float) :
  isnan a = true \/ isnan b = true -> (a <=? b) = false.
Proof.
  rewrite !isnan_spec, leb_spec; unfold SFleb; intros [H|H]; rewrite H.
  - reflexivity.
  - destruct (Prim2SF a); reflexivity.
Qed.

Lemma rint_nan (x : float) : isnan x = true -> isnan (Binary64.rint x) = true.
Proof.
  intros Hx; unfold Binary64.rint.
  rewrite (proj1 (isnan_spec x) Hx); exact Hx.
Qed.

Lemma abs_nan (x : float) : isnan x = true -> isnan (abs x) = true.
Proof. rewrite !isnan_spec, abs_spec; intros ->; reflexivity. Qed.

Lemma around_nan (x : float) : isnan x = true -> isnan (around x (-1)) = true.
Proof.
  intros Hx; unfold around; cbn [Z.eqb Z.ltb Z.compare].
  apply mul_nan; left; apply rint_nan, div_nan; left; exact Hx.
Qed.

(** X18.  A quote without a delta (not-a-number) gets a bucket that is
    not-a-number, as a call and as a put, and is in no 25-delta group; a row
    without a strike is outside the at-the-money window of every average
    price. *)
Theorem quotes_without_delta_or_strike (r : Row) :
  (isnan (delta r) = true ->
   isnan (call_bucket (delta r)) = true /\
   isnan (put_bucket (delta r)) = true /\
   in_25D_group (set_delta r (call_bucket (delta r))) = false /\
   in_25D_group (set_delta r (put_bucket (delta r))) = false) /\
  (isnan (strike r) = true -> forall avg, in_atm_window avg r = false).
Proof.
  split.
  - intros Hd.
    assert (Hc : isnan (call_bucket (delta r)) = true).
    { unfold call_bucket; cbn [mul float_arith].
      apply around_nan, mul_nan; left; exact Hd. }
    assert (Hp : isnan (put_bucket (delta r)) = true).
    { unfold put_bucket; cbn [mul float_arith].
      apply around_nan, mul_nan; left; apply abs_nan, Hd. }
    split; [exact Hc|]; split; [exact Hp|].
    unfold in_25D_group, set_delta; cbn [delta quote].
    rewrite !(eqb_nan_l _ _ Hc), !(eqb_nan_l _ _ Hp); split; reflexivity.
  - intros Hs avg; unfold in_atm_window.
    rewrite (leb_nan _ (strike r)) by (right; exact Hs); reflexivity.
Qed.

Lemma quotes_without_delta_or_strike_witness :
  isnan (call_bucket nan) = true /\
  isnan (put_bucket nan) = true /\
  in_25D_group
    (set_delta (with_mid_iv (mk_quote "call" 7000 0.5 0.5 6800 1585900800000 nan))
               (call_bucket nan)) = false /\
  in_25D_group
    (set_delta (with_mid_iv (mk_quote "call" 7000 0.5 0.5 6800 1585900800000 nan))
               (put_bucket nan)) = false.
Proof.
  apply (proj1 (quotes_without_delta_or_strike
                  (with_mid_iv (mk_quote "call" 7000 0.5 0.5 6800 1585900800000 nan)))).
  reflexivity.
Defined.

(** X19.  The notebook raises [IndexError] on no quotes and on nothing
    else; the sampling never fails, so whatever is raised on quotes comes
    from rounding the average price; and whenever the notebook returns, it
    returns 99 points. *)
Theorem notebook_errors (raw : list Quote) :
  (notebook raw = Raise IndexError <-> raw = []) /\
  (forall e, notebook raw = Raise e ->
             raw = [] \/ exists fr, normalizer raw = Ok fr /\ avg_price fr = Raise e) /\
  (forall s pts, notebook raw = Ok (s, pts) -> List.length pts = 99%nat).
Proof.
  assert (Hcurve : forall s : Smile, exists pts,
             smile_curve (rr s) (fly s) (atm s) = Ok pts /\ List.length pts = 99%nat).
  { intros s; eexists; split; [apply smile_curve_ok|].
    rewrite length_map; reflexivity. }
  assert (Hshape : raw = [] \/
                   exists fr, normalizer raw = Ok fr /\
                     ((exists e, e <> IndexError /\ avg_price fr = Raise e /\
                                 notebook raw = Raise e) \/
                      (exists s pts, notebook raw = Ok (s, pts) /\
                                     List.length pts = 99%nat))).
  { destruct raw as [|q raw']; [left; reflexivity | right].
    destruct (normalizer_ok (q :: raw') ltac:(discriminate)) as (m & _ & _ & Hn).
    exists (frames_at (q :: raw') m); split; [exact Hn|].
    unfold notebook; rewrite Hn; cbn [bind]; unfold markers.
    destruct (avg_price _) as [avg|e] eqn:Havg; cbn [bind].
    - right.
      match goal with |- context [smile_curve (rr ?s) _ _] =>
        destruct (Hcurve s) as (pts & -> & Hlen) end.
      cbn [bind]; eauto.
    - left; exists e; repeat split.
      unfold avg_price, py_round in Havg.
      destruct (Binary64.to_Z_nearest _); [discriminate|].
      destruct (isnan _); injection Havg as <-; discriminate. }
  split; [split|split].
  - intros Hraise.
    destruct Hshape as [-> | (fr & _ & [(e & Hne & _ & He) | (s & pts & Hok & _)])];
      [reflexivity | | ]; congruence.
  - intros ->; reflexivity.
  - intros e Hraise.
    destruct Hshape as [-> | (fr & Hn & [(e' & _ & Havg & He) | (s & pts & Hok & _)])].
    + left; reflexivity.
    + right; exists fr; split; [exact Hn|]; congruence.
    + congruence.
  - intros s pts Hok.
    destruct Hshape as [-> | (fr & _ & [(e & _ & _ & He) | (s' & pts' & Hok' & Hlen)])].
    + discriminate.
    + congruence.
    + rewrite Hok in Hok'; injection Hok' as -> ->; exact Hlen.
Qed.

Lemma notebook_errors_witness : notebook [] = Raise IndexError.
Proof. exact (proj2 (proj1 (notebook_errors [])) eq_refl). Defined.
End Edges.

(* ================================================================== *)
(** * Rounding: from [SpecFloat] to the real numbers *)

(** The kernel specifies the operations on floats through [SpecFloat]: an
    operation computes an exact mantissa and exponent and rounds them with
    [binary_round_aux].  This part proves what that rounding does to the real
    value, and from it the error of [+], [-], [*] and [/]: at most [2^-53]
    of the exact result, plus [2^-1075] where a product or a quotient is
    subnormal, and an infinity only beyond [2^971]. *)
Section Rounding.
Local Open Scope R_scope.

(** ** Powers of two *)

Lemma bpow_gt_0 e : 0 < bpow e.
Proof. apply powerRZ_lt; lra. Qed.

Lemma bpow_plus a b : bpow (a + b) = bpow a * bpow b.
Proof. apply powerRZ_add; lra. Qed.

Lemma bpow_0 : bpow 0 = 1.
Proof. reflexivity. Qed.

Lemma bpow_1 : bpow 1 = 2.
Proof. exact (powerRZ_1 2). Qed.

Lemma bpow_opp e : bpow (- e) = / bpow e.
Proof. apply powerRZ_neg'. Qed.

Lemma bpow_m1 : bpow (-1) = / 2.
Proof. change (bpow (-1)) with (bpow (- (1))); rewrite bpow_opp, bpow_1; reflexivity. Qed.

Lemma bpow_succ e : bpow (e + 1) = 2 * bpow e.
Proof. rewrite bpow_plus, bpow_1; ring. Qed.

Lemma bpow_pred e : bpow (e - 1) = / 2 * bpow e.
Proof.
  replace (e - 1)%Z with (e + -1)%Z by lia.
  rewrite bpow_plus, bpow_m1; ring.
Qed.

Lemma bpow_le a b : (a <= b)%Z -> bpow a <= bpow b.
Proof.
  intros H; replace b with (a + Z.of_nat (Z.to_nat (b - a)))%Z by lia.
  generalize (Z.to_nat (b - a)); intros n; induction n as [|n IH].
  - replace (a + Z.of_nat 0)%Z with a by lia; lra.
  - replace (a + Z.of_nat (S n))%Z with (a + Z.of_nat n + 1)%Z by lia.
    rewrite bpow_succ; pose proof (bpow_gt_0 (a + Z.of_nat n)); lra.
Qed.

Lemma bpow_lt a b : (a < b)%Z -> bpow a < bpow b.
Proof.
  intros H; assert (bpow (a + 1) <= bpow b) by (apply bpow_le; lia).
  rewrite bpow_succ in H0; pose proof (bpow_gt_0 a); lra.
Qed.

Lemma bpow_IZR e : (0 <= e)%Z -> bpow e = IZR (2 ^ e).
Proof.
  intros H; replace e with (Z.of_nat (Z.to_nat e)) by lia.
  generalize (Z.to_nat e); intros n; induction n as [|n IH].
  - reflexivity.
  - replace (Z.of_nat (S n)) with (Z.of_nat n + 1)%Z by lia.
    rewrite bpow_succ, IH, Z.pow_add_r, mult_IZR by lia.
    change (2 ^ 1)%Z with 2%Z; lra.
Qed.

Lemma bpow_inv_l e : bpow (- e) * bpow e = 1.
Proof. rewrite <- bpow_plus; replace (- e + e)%Z with 0%Z by lia; reflexivity. Qed.

(** ** The number of bits of a mantissa *)

Lemma digits2_pos_bounds (p : positive) :
  (2 ^ (Z.pos (digits2_pos p) - 1) <= Z.pos p < 2 ^ Z.pos (digits2_pos p))%Z.
Proof.
  induction p as [p IH|p IH|]; cbn [digits2_pos].
  - rewrite Pos2Z.inj_succ.
    replace (Z.succ (Z.pos (digits2_pos p)) - 1)%Z with (Z.pos (digits2_pos p) - 1 + 1)%Z by lia.
    rewrite Z.pow_succ_r, Z.pow_add_r by lia.
    change (2 ^ 1)%Z with 2%Z; lia.
  - rewrite Pos2Z.inj_succ.
    replace (Z.succ (Z.pos (digits2_pos p)) - 1)%Z with (Z.pos (digits2_pos p) - 1 + 1)%Z by lia.
    rewrite Z.pow_succ_r, Z.pow_add_r by lia.
    change (2 ^ 1)%Z with 2%Z; lia.
  - cbn; lia.
Qed.

Lemma Zdigits2_bounds (m : Z) :
  (0 < m)%Z -> (2 ^ (Zdigits2 m - 1) <= m < 2 ^ Zdigits2 m)%Z.
Proof. destruct m as [|p|p]; try lia; intros _; apply digits2_pos_bounds. Qed.

Lemma Zdigits2_nonneg (m : Z) : (0 <= Zdigits2 m)%Z.
Proof. destruct m; cbn; lia. Qed.

Lemma Zdigits2_unique (m k : Z) :
  (2 ^ (k - 1) <= m < 2 ^ k)%Z -> (0 < m)%Z -> Zdigits2 m = k.
Proof.
  intros Hk Hm; pose proof (Zdigits2_bounds m Hm) as Hd.
  pose proof (Zdigits2_nonneg m).
  assert (0 < k)%Z.
  { destruct (Z_lt_le_dec 0 k); [assumption|].
    assert (2 ^ k <= 2 ^ 0)%Z by (apply Z.pow_le_mono_r; lia).
    change (2 ^ 0)%Z with 1%Z in *; lia. }
  destruct (Z.lt_trichotomy (Zdigits2 m) k) as [Hlt|[Heq|Hgt]]; [|assumption|].
  - assert (2 ^ Zdigits2 m <= 2 ^ (k - 1))%Z by (apply Z.pow_le_mono_r; lia). lia.
  - assert (2 ^ k <= 2 ^ (Zdigits2 m - 1))%Z by (apply Z.pow_le_mono_r; lia). lia.
Qed.

(** ** Shifting a mantissa to the right, and rounding it *)

Lemma IZR_xI p : IZR (Z.pos p~1) = 2 * IZR (Z.pos p) + 1.
Proof. rewrite Pos2Z.inj_xI, plus_IZR, mult_IZR; reflexivity. Qed.

Lemma shr_1_inb (rec : shr_record) (x : R) :
  (0 <= shr_m rec)%Z -> inb_rec rec x ->
  (0 <= shr_m (shr_1 rec))%Z /\ inb_rec (shr_1 rec) (x * / 2).
Proof.
  destruct rec as [m r s]; unfold inb_rec; cbn [shr_m shr_r shr_s].
  intros Hm Hx.
  destruct m as [|p|p]; [| |lia].
  - destruct r, s; cbn in *; split; try lia; lra.
  - destruct p as [p|p|].
    + destruct r, s; cbn [shr_1 shr_m shr_r shr_s orb inb] in *;
        rewrite IZR_xI in Hx; split; try lia; lra.
    + destruct r, s; cbn [shr_1 shr_m shr_r shr_s orb inb] in *;
        rewrite IZR_POS_xO in Hx; split; try lia; lra.
    + destruct r, s; cbn [shr_1 shr_m shr_r shr_s orb inb] in *;
        split; try lia; lra.
Qed.

Lemma iter_pos_inb (p : positive) : forall (rec : shr_record) (x : R),
  (0 <= shr_m rec)%Z -> inb_rec rec x ->
  (0 <= shr_m (SpecFloat.iter_pos shr_1 p rec))%Z /\
  inb_rec (SpecFloat.iter_pos shr_1 p rec) (x * bpow (- Z.pos p)).
Proof.
  induction p as [p IH|p IH|]; intros rec x Hm Hx; cbn [SpecFloat.iter_pos].
  - destruct (shr_1_inb rec x Hm Hx) as [H1 H2].
    destruct (IH _ _ H1 H2) as [H3 H4].
    destruct (IH _ _ H3 H4) as [H5 H6].
    split; [assumption|].
    replace (x * bpow (- Z.pos p~1))
      with (x * / 2 * bpow (- Z.pos p) * bpow (- Z.pos p)); [assumption|].
    replace (- Z.pos p~1)%Z with (-1 + (- Z.pos p + - Z.pos p))%Z by lia.
    rewrite !bpow_plus, bpow_m1; ring.
  - destruct (IH _ _ Hm Hx) as [H3 H4].
    destruct (IH _ _ H3 H4) as [H5 H6].
    split; [assumption|].
    replace (x * bpow (- Z.pos p~0))
      with (x * bpow (- Z.pos p) * bpow (- Z.pos p)); [assumption|].
    replace (- Z.pos p~0)%Z with (- Z.pos p + - Z.pos p)%Z by lia.
    rewrite !bpow_plus; ring.
  - destruct (shr_1_inb rec x Hm Hx) as [H1 H2].
    split; [assumption|].
    change (bpow (- Z.pos 1)) with (bpow (-1)); rewrite bpow_m1; assumption.
Qed.

Lemma shr_inb (rec : shr_record) (e n : Z) (x : R) :
  (0 <= shr_m rec)%Z -> inb_rec rec x ->
  snd (shr rec e n) = Z.max e (e + n) /\
  (0 <= shr_m (fst (shr rec e n)))%Z /\
  inb_rec (fst (shr rec e n)) (x * bpow (e - Z.max e (e + n))) /\
  ((n <= 0)%Z -> fst (shr rec e n) = rec).
Proof.
  intros Hm Hx; destruct n as [|p|p]; cbn [shr fst snd].
  - replace (Z.max e (e + 0)) with e by lia.
    replace (e - e)%Z with 0%Z by lia. rewrite bpow_0, Rmult_1_r. auto.
  - replace (Z.max e (e + Z.pos p)) with (e + Z.pos p)%Z by lia.
    replace (e - (e + Z.pos p))%Z with (- Z.pos p)%Z by lia.
    destruct (iter_pos_inb p rec x Hm Hx) as [H1 H2].
    repeat split; try assumption; lia.
  - replace (Z.max e (e + Z.neg p)) with e by lia.
    replace (e - e)%Z with 0%Z by lia. rewrite bpow_0, Rmult_1_r. auto.
Qed.

Lemma round_nearest_even_inb (rec : shr_record) (y : R) :
  inb_rec rec y ->
  let m1 := round_nearest_even (shr_m rec) (loc_of_shr_record rec) in
  (shr_m rec <= m1 <= shr_m rec + 1)%Z /\
  Rabs (IZR m1 - y) <= / 2 /\
  (shr_r rec = false -> shr_s rec = false -> m1 = shr_m rec /\ y = IZR m1).
Proof.
  destruct rec as [m r s]; unfold inb_rec; cbn [shr_m shr_r shr_s].
  intros Hy; destruct r, s; cbn [loc_of_shr_record round_nearest_even inb] in *.
  - split; [lia|]; split; [|discriminate].
    rewrite plus_IZR; apply Rabs_le; lra.
  - split; [destruct (Z.even m); lia|]; split; [|discriminate].
    destruct (Z.even m); rewrite ?plus_IZR; apply Rabs_le; lra.
  - split; [lia|]; split; [|discriminate]. apply Rabs_le; lra.
  - split; [lia|]; split; [apply Rabs_le; lra|]. auto.
Qed.

Lemma Rabs_le_inv (x a : R) : Rabs x <= a -> - a <= x <= a.
Proof. unfold Rabs; destruct (Rcase_abs x); lra. Qed.

(** ** What [binary_round_aux] returns *)

Lemma fexp_eq (e : Z) : fexp prec emax e = Z.max (e - 53) (-1074).
Proof. reflexivity. Qed.

Lemma shr_m_of_loc (m : Z) (l : location) : shr_m (shr_record_of_loc m l) = m.
Proof. destruct l as [|[| |]]; reflexivity. Qed.

Lemma inb_rec_range (rec : shr_record) (y : R) :
  inb_rec rec y -> IZR (shr_m rec) <= y < IZR (shr_m rec) + 1.
Proof.
  destruct rec as [m r s]; unfold inb_rec; cbn [shr_m shr_r shr_s].
  destruct r, s; cbn [inb]; lra.
Qed.

Lemma Zdigits2_succ_le (m : Z) : (0 <= m)%Z -> (m + 1 <= 2 ^ Zdigits2 m)%Z.
Proof.
  intros Hm; destruct (Z.eq_dec m 0) as [->|Hne]; [cbn; lia|].
  pose proof (Zdigits2_bounds m ltac:(lia)); lia.
Qed.

Lemma Zdigits2_le (m k : Z) : (0 <= k)%Z -> (0 <= m < 2 ^ k)%Z -> (Zdigits2 m <= k)%Z.
Proof.
  intros Hk Hm; destruct (Z.eq_dec m 0) as [->|Hne]; [cbn; lia|].
  pose proof (Zdigits2_bounds m ltac:(lia)) as Hd.
  destruct (Z_lt_le_dec k (Zdigits2 m)); [|lia].
  assert (2 ^ k <= 2 ^ (Zdigits2 m - 1))%Z by (apply Z.pow_le_mono_r; lia). lia.
Qed.

(** The rounding of [SpecFloat], for a non-negative mantissa [m] with its
    round and sticky bits: when the real being rounded is [X > 0], the result
    is a zero, a finite float or an infinity of the sign asked for; a zero
    or a finite result lies within half a unit of the last place kept of
    [X], exactly on [X] when nothing had to be shifted out, and an infinity
    is returned only for [X >= 2^971]. *)
Lemma round_aux_spec (s : bool) (m e : Z) (l : location) (X : R) :
  (0 <= m)%Z -> 0 < X ->
  inb_rec (shr_record_of_loc m l) (X * bpow (- e)) ->
  let E := Z.max e (fexp prec emax (Zdigits2 m + e)) in
  match binary_round_aux prec emax s m e l with
  | S754_nan => False
  | S754_zero s' => s' = s /\ X <= / 2 * bpow E
  | S754_infinity s' => s' = s /\ bpow 971 <= X
  | S754_finite s' m' e' =>
      s' = s /\ (e' <= 971)%Z /\
      Rabs (IZR (Z.pos m') * bpow e' - X) <= / 2 * bpow E /\
      (l = loc_Exact -> E = e -> IZR (Z.pos m') * bpow e' = X)
  end.
Proof.
  intros Hm HX Hin E.
  unfold binary_round_aux, shr_fexp.
  set (n := (fexp prec emax (Zdigits2 m + e) - e)%Z).
  assert (Hm0 : (0 <= shr_m (shr_record_of_loc m l))%Z) by (rewrite shr_m_of_loc; exact Hm).
  destruct (shr_inb (shr_record_of_loc m l) e n _ Hm0 Hin) as (He' & Hm' & Hin' & Hid).
  destruct (shr (shr_record_of_loc m l) e n) as [rec' e'] eqn:Hshr.
  cbn [fst snd] in He', Hm', Hin', Hid.
  assert (HE : e' = E) by (unfold E, n in *; lia).
  rewrite <- He', HE in Hin'.
  set (y := X * bpow (- e) * bpow (e - E)) in *.
  assert (Hy : y = X * bpow (- E)).
  { unfold y; rewrite Rmult_assoc, <- bpow_plus; f_equal; f_equal; lia. }
  assert (HXy : X = y * bpow E).
  { rewrite Hy, Rmult_assoc, bpow_inv_l; ring. }
  destruct (round_nearest_even_inb rec' y Hin') as (Hm1 & Herr & Hexact).
  set (m1 := round_nearest_even (shr_m rec') (loc_of_shr_record rec')) in *.
  pose proof (inb_rec_range _ _ Hin') as Hrange.
  pose proof (fexp_eq (Zdigits2 m + e)) as Hfexp.
  pose proof (Zdigits2_nonneg m) as Hd.
  (* the shifted mantissa has at most 53 bits *)
  assert (Hy53 : y < bpow 53).
  { pose proof (inb_rec_range _ _ Hin) as Hr0; rewrite shr_m_of_loc in Hr0.
    pose proof (Zdigits2_succ_le m Hm) as Hsucc.
    apply IZR_le in Hsucc; rewrite plus_IZR, <- bpow_IZR in Hsucc by exact Hd.
    assert (Hlt : X * bpow (- e) < bpow (Zdigits2 m)) by lra.
    unfold y.
    apply Rlt_le_trans with (bpow (Zdigits2 m) * bpow (e - E)).
    - apply Rmult_lt_compat_r; [apply bpow_gt_0|exact Hlt].
    - rewrite <- bpow_plus; apply bpow_le; unfold E; lia. }
  assert (Hm'53 : (shr_m rec' < 2 ^ 53)%Z).
  { apply lt_IZR; rewrite <- bpow_IZR by lia; lra. }
  assert (HEmin : (-1074 <= E)%Z) by (unfold E; lia).
  pose proof (bpow_gt_0 E) as HbE.
  (* value and error of the rounded mantissa *)
  assert (Hval : Rabs (IZR m1 * bpow E - X) <= / 2 * bpow E).
  { rewrite HXy, <- Rmult_minus_distr_r, Rabs_mult, (Rabs_pos_eq (bpow E)) by lra.
    apply Rmult_le_compat_r; lra. }
  assert (Hex : l = loc_Exact -> E = e -> IZR m1 * bpow E = X).
  { intros -> HEe.
    assert (Hn : (n <= 0)%Z) by (unfold n, E in *; lia).
    specialize (Hid Hn); subst rec'.
    destruct (Hexact eq_refl eq_refl) as [_ Hy1].
    rewrite HXy, Hy1; reflexivity. }
  destruct (Z.eq_dec m1 (2 ^ 53)) as [Htop|Hntop].
  - (* the mantissa rounded up to 2^53: one more shift *)
    rewrite Htop in *.
    replace (fexp prec emax (Zdigits2 (2 ^ 53) + e') - e')%Z with 1%Z
      by (rewrite fexp_eq; change (Zdigits2 (2 ^ 53)) with 54%Z; lia).
    cbn [shr_record_of_loc shr SpecFloat.iter_pos].
    change (shr_1 {| shr_m := 2 ^ 53; shr_r := false; shr_s := false |})
      with {| shr_m := 2 ^ 52; shr_r := false; shr_s := false |}.
    cbn [shr_m]. change (2 ^ 52)%Z with (Z.pos (2 ^ 52)).
    assert (Hv : IZR (Z.pos (2 ^ 52)) * bpow (e' + 1) = IZR (2 ^ 53) * bpow E).
    { rewrite HE, bpow_succ.
      change (Z.pos (2 ^ 52)) with (2 ^ 52)%Z.
      replace (IZR (2 ^ 53)) with (2 * IZR (2 ^ 52)); [ring|].
      rewrite <- mult_IZR; reflexivity. }
    destruct (Z.leb_spec (e' + 1) (emax - prec)) as [Hle|Hgt].
    + split; [reflexivity|]; split; [exact Hle|]; rewrite Hv; split; assumption.
    + split; [reflexivity|].
      change (emax - prec)%Z with 971%Z in Hgt.
      assert (bpow 971 <= bpow E) by (apply bpow_le; lia).
      assert (1 <= y); [|rewrite HXy; nra].
      apply Rabs_le_inv in Herr.
      assert (2 <= IZR (2 ^ 53)) by (apply IZR_le; lia). lra.
  - (* no further shift *)
    assert (Hm1b : (0 <= m1 < 2 ^ 53)%Z) by lia.
    assert (Hd1 : (Zdigits2 m1 <= 53)%Z) by (apply Zdigits2_le; lia).
    pose proof (Zdigits2_nonneg m1) as Hd1'.
    assert (Hn2 : (fexp prec emax (Zdigits2 m1 + e') - e' <= 0)%Z)
      by (rewrite fexp_eq; lia).
    assert (Hm1' : (0 <= shr_m (shr_record_of_loc m1 loc_Exact))%Z) by (cbn; lia).
    assert (Hin1 : inb_rec (shr_record_of_loc m1 loc_Exact) (IZR m1)) by reflexivity.
    destruct (shr_inb (shr_record_of_loc m1 loc_Exact) e'
                      (fexp prec emax (Zdigits2 m1 + e') - e') (IZR m1) Hm1' Hin1)
      as (He2 & _ & _ & Hid2).
    specialize (Hid2 Hn2).
    destruct (shr (shr_record_of_loc m1 loc_Exact) e'
                  (fexp prec emax (Zdigits2 m1 + e') - e')) as [rec2 e2] eqn:Hshr2.
    cbn [fst snd] in He2, Hid2; subst rec2.
    assert (He2' : e2 = E) by lia.
    cbn [shr_record_of_loc shr_m].
    destruct m1 as [|p|p]; [| |lia].
    + split; [reflexivity|].
      apply Rabs_le_inv in Herr. rewrite HXy.
      assert (y <= / 2) by lra. nra.
    + destruct (Z.leb_spec e2 (emax - prec)) as [Hle|Hgt].
      * split; [reflexivity|]; split; [exact Hle|]; rewrite He2'; split; assumption.
      * split; [reflexivity|].
        change (emax - prec)%Z with 971%Z in Hgt.
        assert (bpow 972 <= bpow E) by (apply bpow_le; lia).
        replace 972%Z with (971 + 1)%Z in H by lia; rewrite bpow_succ in H.
        pose proof (bpow_gt_0 971).
        apply Rabs_le_inv in Herr.
        assert (1 <= IZR (Z.pos p)) by (apply IZR_le; lia).
        assert (/ 2 <= y) by lra.
        rewrite HXy; nra.
Qed.

(** ** The operations of [SpecFloat] against the real ones *)

Lemma Rabs_cond_Ropp (s : bool) (a b : R) :
  Rabs (cond_Ropp s a - cond_Ropp s b) = Rabs (a - b).
Proof.
  destruct s; cbn [cond_Ropp]; [|reflexivity].
  replace (- a - - b) with (- (a - b)) by ring; apply Rabs_Ropp.
Qed.

Lemma cond_Ropp_mul (s1 s2 : bool) (a b : R) :
  cond_Ropp s1 a * cond_Ropp s2 b = cond_Ropp (xorb s1 s2) (a * b).
Proof. destruct s1, s2; cbn; ring. Qed.

Lemma Rabs_cond (s : bool) (a : R) : Rabs (cond_Ropp s a) = Rabs a.
Proof. destruct s; cbn [cond_Ropp]; [apply Rabs_Ropp|reflexivity]. Qed.

Lemma IZR_pos_ge_bpow (m : positive) :
  bpow (Z.pos (digits2_pos m) - 1) <= IZR (Z.pos m).
Proof.
  pose proof (digits2_pos_bounds m) as [H _].
  rewrite bpow_IZR by lia; apply IZR_le; exact H.
Qed.

(** Rounding a positive mantissa known exactly. *)
Lemma round_exact_spec (s : bool) (m : positive) (e : Z) :
  let X := IZR (Z.pos m) * bpow e in
  let r := binary_round_aux prec emax s (Z.pos m) e loc_Exact in
  (SFfinite r = true /\
   (Rabs (SF2R r - cond_Ropp s X) <= bpow (-53) * X \/
    (e < -1074)%Z /\ Rabs (SF2R r - cond_Ropp s X) <= bpow (-1075)))
  \/ (r = S754_infinity s /\ bpow 971 <= X).
Proof.
  intros X r.
  assert (HX : 0 < X).
  { unfold X; apply Rmult_lt_0_compat; [apply IZR_lt; lia|apply bpow_gt_0]. }
  assert (Hin : inb_rec (shr_record_of_loc (Z.pos m) loc_Exact) (X * bpow (- e))).
  { unfold inb_rec, X; cbn [shr_record_of_loc shr_m shr_r shr_s inb].
    rewrite Rmult_assoc, <- bpow_plus.
    replace (e + - e)%Z with 0%Z by lia; rewrite bpow_0; ring. }
  pose proof (round_aux_spec s (Z.pos m) e loc_Exact X ltac:(lia) HX Hin) as H.
  cbv zeta in H; fold r in H.
  set (d := Z.pos (digits2_pos m)) in *.
  change (Zdigits2 (Z.pos m)) with d in H.
  set (E := Z.max e (fexp prec emax (d + e))) in *.
  pose proof (fexp_eq (d + e)) as Hf.
  assert (HXd : bpow (d - 1 + e) <= X).
  { unfold X; rewrite bpow_plus; apply Rmult_le_compat_r;
      [left; apply bpow_gt_0|apply IZR_pos_ge_bpow]. }
  assert (Hcases : E = e \/ / 2 * bpow E <= bpow (-53) * X \/
                   ((e < -1074)%Z /\ / 2 * bpow E = bpow (-1075))).
  { destruct (Z.eq_dec E e) as [|Hne]; [left; assumption|right].
    destruct (Z.eq_dec E (d + e - 53)) as [HEn|HEs].
    - left. rewrite <- bpow_pred.
      replace (E - 1)%Z with (-53 + (d - 1 + e))%Z by lia.
      rewrite bpow_plus; apply Rmult_le_compat_l; [left; apply bpow_gt_0|exact HXd].
    - right. assert (E = (-1074)%Z) by (unfold E in *; lia).
      split; [unfold E in *; lia|].
      rewrite <- bpow_pred; f_equal; lia. }
  pose proof (bpow_gt_0 E) as HbE.
  destruct r as [s'|s'| |s' m' e'].
  - (* zero *)
    destruct H as [-> HXE]. left; split; [reflexivity|].
    cbn [SF2R].
    replace (0 - cond_Ropp s X) with (cond_Ropp s 0 - cond_Ropp s X)
      by (destruct s; cbn; ring).
    rewrite Rabs_cond_Ropp, Rminus_0_l, Rabs_Ropp, Rabs_pos_eq by lra.
    destruct Hcases as [HEe|[Hn|[He Hs]]].
    + exfalso. rewrite HEe in HXE.
      assert (bpow e <= X); [|pose proof (bpow_gt_0 e); lra].
      unfold X. rewrite <- (Rmult_1_l (bpow e)) at 1.
      apply Rmult_le_compat_r; [left; apply bpow_gt_0|apply IZR_le; lia].
    + left; lra.
    + right; split; [exact He|lra].
  - destruct H as [-> HXE]. right; split; [reflexivity|exact HXE].
  - destruct H.
  - destruct H as (-> & Hle & Herr & Hex). left; split; [reflexivity|].
    cbn [SF2R]; rewrite Rabs_cond_Ropp.
    destruct Hcases as [HEe|[Hn|[He Hs]]].
    + left. rewrite (Hex eq_refl HEe), Rminus_diag, Rabs_R0.
      apply Rmult_le_pos; [left; apply bpow_gt_0|lra].
    + left; lra.
    + right; split; [exact He|lra].
Qed.

(** Products. *)
Lemma SFmul_spec (x y : spec_float) :
  SFfinite x = true -> SFfinite y = true ->
  let P := SF2R x * SF2R y in
  let r := SFmul prec emax x y in
  (SFfinite r = true /\
   Rabs (SF2R r - P) <= bpow (-53) * Rabs P + bpow (-1075))
  \/ (SFfinite r = false /\ bpow 971 <= Rabs P).
Proof.
  intros Hx Hy P r.
  pose proof (bpow_gt_0 (-1075)) as Heta.
  destruct x as [sx|sx| |sx mx ex]; try discriminate;
    destruct y as [sy|sy| |sy my ey]; try discriminate.
  1-3: left; split; [reflexivity|]; unfold P, r; cbn [SFmul SF2R];
       rewrite ?Rmult_0_l, ?Rmult_0_r, Rminus_diag, Rabs_R0; lra.
  unfold P, r; cbn [SFmul SF2R].
  rewrite cond_Ropp_mul, Rabs_cond.
  replace (IZR (Z.pos mx) * bpow ex * (IZR (Z.pos my) * bpow ey))
    with (IZR (Z.pos (mx * my)) * bpow (ex + ey))
    by (rewrite Pos2Z.inj_mul, mult_IZR, bpow_plus; ring).
  set (X := IZR (Z.pos (mx * my)) * bpow (ex + ey)).
  assert (HX : 0 < X).
  { unfold X; apply Rmult_lt_0_compat; [apply IZR_lt; lia|apply bpow_gt_0]. }
  rewrite (Rabs_pos_eq X) by lra.
  pose proof (bpow_gt_0 (-53)).
  pose proof (round_exact_spec (xorb sx sy) (mx * my) (ex + ey)) as Hspec.
  cbv zeta in Hspec; fold X in Hspec.
  destruct Hspec as [[Hf [Hr|[_ Hr]]]|[Hinf HX']].
  - left; split; [exact Hf|]. lra.
  - left; split; [exact Hf|]. nra.
  - right; rewrite Hinf; split; [reflexivity|exact HX'].
Qed.

Lemma iter_xO (m d : positive) :
  Z.pos (Pos.iter xO m d) = (Z.pos m * 2 ^ Z.pos d)%Z.
Proof.
  induction d as [|d IH] using Pos.peano_ind.
  - cbn [Pos.iter]; lia.
  - rewrite Pos.iter_succ, Pos2Z.inj_xO, IH, Pos2Z.inj_succ, Z.pow_succ_r by lia.
    ring.
Qed.

Lemma shl_align_spec (m : positive) (e e0 : Z) :
  IZR (Z.pos (fst (shl_align m e e0))) * bpow (snd (shl_align m e e0))
  = IZR (Z.pos m) * bpow e /\
  snd (shl_align m e e0) = Z.min e e0 /\
  (Z.pos (digits2_pos (fst (shl_align m e e0))) + snd (shl_align m e e0)
   = Z.pos (digits2_pos m) + e)%Z.
Proof.
  unfold shl_align.
  destruct (e0 - e)%Z as [|d|d] eqn:Hd; cbn [fst snd].
  - split; [reflexivity|]; split; lia.
  - split; [reflexivity|]; split; lia.
  - assert (He : e = (e0 + Z.pos d)%Z) by lia.
    split; [|split; [lia|]].
    + rewrite iter_xO, mult_IZR, <- bpow_IZR, He, bpow_plus by lia; ring.
    + pose proof (digits2_pos_bounds m) as [Hlo Hhi].
      assert (Hdig : Zdigits2 (Z.pos (Pos.iter xO m d))
                     = (Z.pos (digits2_pos m) + Z.pos d)%Z).
      { apply Zdigits2_unique; [|lia].
        rewrite iter_xO.
        replace (Z.pos (digits2_pos m) + Z.pos d - 1)%Z
          with (Z.pos (digits2_pos m) - 1 + Z.pos d)%Z by lia.
        rewrite !Z.pow_add_r by lia.
        assert (0 < 2 ^ Z.pos d)%Z by (apply Z.pow_pos_nonneg; lia).
        split; [apply Z.mul_le_mono_nonneg_r; lia|apply Z.mul_lt_mono_pos_r; lia]. }
      cbn [Zdigits2] in Hdig; lia.
Qed.

Lemma binary_round_spec (s : bool) (m : positive) (e : Z) :
  (-1074 <= e)%Z ->
  let X := IZR (Z.pos m) * bpow e in
  let r := binary_round prec emax s m e in
  (SFfinite r = true /\ Rabs (SF2R r - cond_Ropp s X) <= bpow (-53) * X)
  \/ (r = S754_infinity s /\ bpow 971 <= X).
Proof.
  intros He X r; unfold r, binary_round.
  destruct (shl_align_spec m e (fexp prec emax (Z.pos (digits2_pos m) + e)))
    as (Hv & Hs & _).
  destruct (shl_align m e (fexp prec emax (Z.pos (digits2_pos m) + e)))
    as [mz ez]; cbn [fst snd] in Hv, Hs.
  pose proof (fexp_eq (Z.pos (digits2_pos m) + e)) as Hf.
  pose proof (round_exact_spec s mz ez) as H; cbv zeta in H.
  rewrite Hv in H; fold X in H.
  destruct H as [[Hfin [Hr|[Hlt _]]]|Hinf].
  - left; split; assumption.
  - exfalso; lia.
  - right; exact Hinf.
Qed.

Lemma binary_normalize_spec (M e : Z) :
  (-1074 <= e)%Z ->
  let S := IZR M * bpow e in
  let r := binary_normalize prec emax M e false in
  (SFfinite r = true /\ Rabs (SF2R r - S) <= bpow (-53) * Rabs S)
  \/ (SFfinite r = false /\ bpow 971 <= Rabs S).
Proof.
  intros He S r; unfold r, S, binary_normalize.
  pose proof (bpow_gt_0 e) as Hb.
  destruct M as [|p|p].
  - left; split; [reflexivity|].
    cbn [SF2R]; rewrite Rmult_0_l, Rminus_diag, Rabs_R0; lra.
  - assert (HX : 0 < IZR (Z.pos p) * bpow e)
      by (apply Rmult_lt_0_compat; [apply IZR_lt; lia|exact Hb]).
    rewrite (Rabs_pos_eq (IZR (Z.pos p) * bpow e)) by lra.
    destruct (binary_round_spec false p e He) as [[Hf Hr]|[Hinf HX']].
    + left; split; assumption.
    + right; rewrite Hinf; split; [reflexivity|exact HX'].
  - assert (HX : 0 < IZR (Z.pos p) * bpow e)
      by (apply Rmult_lt_0_compat; [apply IZR_lt; lia|exact Hb]).
    replace (IZR (Z.neg p) * bpow e) with (- (IZR (Z.pos p) * bpow e))
      by (change (Z.neg p) with (- Z.pos p)%Z; rewrite opp_IZR; ring).
    rewrite Rabs_Ropp, (Rabs_pos_eq (IZR (Z.pos p) * bpow e)) by lra.
    destruct (binary_round_spec true p e He) as [[Hf Hr]|[Hinf HX']].
    + left; split; assumption.
    + right; rewrite Hinf; split; [reflexivity|exact HX'].
Qed.

Lemma valid_finite_emin (s : bool) (m : positive) (e : Z) :
  valid_binary (S754_finite s m e) = true -> (-1074 <= e <= 971)%Z.
Proof.
  cbn [SpecFloat.valid_binary]; unfold bounded, canonical_mantissa.
  intros H; apply andb_prop in H; destruct H as [H1 H2].
  apply Z.eqb_eq in H1; apply Z.leb_le in H2.
  rewrite fexp_eq in H1; change (emax - prec)%Z with 971%Z in H2; lia.
Qed.

Lemma IZR_cond_Zopp (s : bool) (m : Z) : IZR (cond_Zopp s m) = cond_Ropp s (IZR m).
Proof. destruct s; cbn; [apply opp_IZR|reflexivity]. Qed.

Lemma cond_Ropp_mul_l (s : bool) (a b : R) : cond_Ropp s a * b = cond_Ropp s (a * b).
Proof. destruct s; cbn; ring. Qed.

Lemma aligned_value (m : positive) (e ez : Z) :
  (ez <= e)%Z ->
  IZR (Z.pos (fst (shl_align m e ez))) * bpow ez = IZR (Z.pos m) * bpow e.
Proof.
  intros Hle; destruct (shl_align_spec m e ez) as (Hv & Hs & _).
  rewrite <- Hv; f_equal; f_equal; lia.
Qed.

Lemma exact_ok (a b : R) : a = b -> Rabs (a - b) <= bpow (-53) * Rabs b.
Proof.
  intros ->; rewrite Rminus_diag, Rabs_R0.
  apply Rmult_le_pos; [left; apply bpow_gt_0|apply Rabs_pos].
Qed.

(** Sums. *)
Lemma SFadd_spec (x y : spec_float) :
  valid_binary x = true -> valid_binary y = true ->
  SFfinite x = true -> SFfinite y = true ->
  let S := SF2R x + SF2R y in
  let r := SFadd prec emax x y in
  (SFfinite r = true /\ Rabs (SF2R r - S) <= bpow (-53) * Rabs S)
  \/ (SFfinite r = false /\ bpow 971 <= Rabs S).
Proof.
  intros Vx Vy Hx Hy S r.
  destruct x as [sx|sx| |sx mx ex]; try discriminate;
    destruct y as [sy|sy| |sy my ey]; try discriminate.
  - left; split; [destruct sx, sy; reflexivity|].
    apply exact_ok; unfold r, S; destruct sx, sy; cbn; ring.
  - left; split; [reflexivity|].
    apply exact_ok; unfold r, S; cbn [SFadd SF2R]; ring.
  - left; split; [reflexivity|].
    apply exact_ok; unfold r, S; cbn [SFadd SF2R]; ring.
  - apply valid_finite_emin in Vx, Vy.
    unfold r, S; cbn [SFadd SF2R].
    set (ez := Z.min ex ey).
    set (M := (cond_Zopp sx (Z.pos (fst (shl_align mx ex ez)))
               + cond_Zopp sy (Z.pos (fst (shl_align my ey ez))))%Z).
    assert (HM : IZR M * bpow ez
                 = cond_Ropp sx (IZR (Z.pos mx) * bpow ex)
                   + cond_Ropp sy (IZR (Z.pos my) * bpow ey)).
    { unfold M; rewrite plus_IZR, !IZR_cond_Zopp, Rmult_plus_distr_r.
      rewrite !cond_Ropp_mul_l, !aligned_value by (unfold ez; lia); reflexivity. }
    rewrite <- HM; apply binary_normalize_spec; unfold ez; lia.
Qed.

Lemma SFsub_spec (x y : spec_float) :
  valid_binary x = true -> valid_binary y = true ->
  SFfinite x = true -> SFfinite y = true ->
  let S := SF2R x - SF2R y in
  let r := SFsub prec emax x y in
  (SFfinite r = true /\ Rabs (SF2R r - S) <= bpow (-53) * Rabs S)
  \/ (SFfinite r = false /\ bpow 971 <= Rabs S).
Proof.
  intros Vx Vy Hx Hy S r.
  destruct x as [sx|sx| |sx mx ex]; try discriminate;
    destruct y as [sy|sy| |sy my ey]; try discriminate.
  - left; split; [destruct sx, sy; reflexivity|].
    apply exact_ok; unfold r, S; destruct sx, sy; cbn; ring.
  - left; split; [reflexivity|].
    apply exact_ok; unfold r, S; cbn [SFsub SF2R]; destruct sy; cbn; ring.
  - left; split; [reflexivity|].
    apply exact_ok; unfold r, S; cbn [SFsub SF2R]; ring.
  - apply valid_finite_emin in Vx, Vy.
    unfold r, S; cbn [SFsub SF2R].
    set (ez := Z.min ex ey).
    set (M := (cond_Zopp sx (Z.pos (fst (shl_align mx ex ez)))
               - cond_Zopp sy (Z.pos (fst (shl_align my ey ez))))%Z).
    assert (HM : IZR M * bpow ez
                 = cond_Ropp sx (IZR (Z.pos mx) * bpow ex)
                   - cond_Ropp sy (IZR (Z.pos my) * bpow ey)).
    { unfold M; rewrite minus_IZR, !IZR_cond_Zopp, Rmult_minus_distr_r.
      rewrite !cond_Ropp_mul_l, !aligned_value by (unfold ez; lia); reflexivity. }
    rewrite <- HM; apply binary_normalize_spec; unfold ez; lia.
Qed.

Lemma new_location_inb (nb q r : Z) :
  (0 < nb)%Z -> (0 <= r < nb)%Z ->
  inb_rec (shr_record_of_loc q (new_location nb r)) (IZR q + IZR r / IZR nb).
Proof.
  intros Hnb Hr.
  assert (Hnb' : 0 < IZR nb) by (apply IZR_lt; lia).
  set (t := IZR r / IZR nb).
  assert (Ht : t * IZR nb = IZR r) by (unfold t; field; lra).
  assert (Hlt : forall a b : Z, (a < b)%Z -> IZR a < IZR b) by (intros; apply IZR_lt; assumption).
  assert (Hhalf_lt : (2 * r < nb)%Z -> t < / 2).
  { intros H; apply Hlt in H; rewrite mult_IZR in H.
    apply Rmult_lt_reg_r with (IZR nb); [exact Hnb'|]; lra. }
  assert (Hhalf_gt : (nb < 2 * r)%Z -> / 2 < t).
  { intros H; apply Hlt in H; rewrite mult_IZR in H.
    apply Rmult_lt_reg_r with (IZR nb); [exact Hnb'|]; lra. }
  assert (Hhalf_eq : (2 * r = nb)%Z -> t = / 2).
  { intros H; apply (f_equal IZR) in H; rewrite mult_IZR in H.
    apply Rmult_eq_reg_r with (IZR nb); lra. }
  assert (Hpos : (0 < r)%Z -> 0 < t).
  { intros H; apply Hlt in H.
    apply Rmult_lt_reg_r with (IZR nb); [exact Hnb'|]; lra. }
  assert (Hone : t < 1).
  { apply Rmult_lt_reg_r with (IZR nb); [exact Hnb'|].
    destruct Hr as [_ Hr]; apply Hlt in Hr; lra. }
  unfold new_location, new_location_even, new_location_odd, inb_rec.
  destruct (Z.even nb) eqn:Hev.
  - destruct (Z.eqb_spec r 0) as [->|Hr0].
    + cbn; unfold t; rewrite Rdiv_0_l; ring.
    + destruct (Z.compare_spec (2 * r) nb) as [He|Hl|Hg]; cbn.
      * rewrite (Hhalf_eq He); reflexivity.
      * specialize (Hhalf_lt Hl). assert (0 < t) by (apply Hpos; lia). lra.
      * specialize (Hhalf_gt Hg). lra.
  - assert (Hodd : (2 * r <> nb)%Z).
    { intros H; rewrite <- H, Z.even_mul in Hev; discriminate. }
    destruct (Z.eqb_spec r 0) as [->|Hr0].
    + cbn; unfold t; rewrite Rdiv_0_l; ring.
    + assert (0 < t) by (apply Hpos; lia).
      destruct (Z.compare_spec (2 * r + 1) nb) as [He|Hl|Hg]; cbn.
      * assert (t < / 2) by (apply Hhalf_lt; lia). lra.
      * assert (t < / 2) by (apply Hhalf_lt; lia). lra.
      * assert (/ 2 < t) by (apply Hhalf_gt; lia). lra.
Qed.

(** Quotients. *)
Lemma SFdiv_spec (x y : spec_float) (sy : bool) (my : positive) (ey : Z) :
  SFfinite x = true -> y = S754_finite sy my ey ->
  let Q := SF2R x / SF2R y in
  let r := SFdiv prec emax x y in
  (SFfinite r = true /\
   Rabs (SF2R r - Q) <= bpow (-53) * Rabs Q + bpow (-1075))
  \/ (SFfinite r = false /\ bpow 971 <= Rabs Q).
Proof.
  intros Hx -> Q r.
  pose proof (bpow_gt_0 (-1075)) as Heta.
  pose proof (bpow_gt_0 (-53)) as Hu.
  assert (Hy : 0 < IZR (Z.pos my) * bpow ey)
    by (apply Rmult_lt_0_compat; [apply IZR_lt; lia|apply bpow_gt_0]).
  destruct x as [sx|sx| |sx mx ex]; try discriminate.
  - left; split; [reflexivity|].
    unfold r, Q; cbn [SFdiv SF2R]; unfold Rdiv.
    rewrite Rmult_0_l, Rminus_diag, Rabs_R0; lra.
  - unfold r, Q; cbn [SFdiv SF2R].
    unfold SFdiv_core_binary.
    set (d1 := Zdigits2 (Z.pos mx)). set (d2 := Zdigits2 (Z.pos my)).
    set (e' := Z.min (fexp prec emax (d1 + ex - (d2 + ey))) (ex - ey)).
    set (s := (ex - ey - e')%Z).
    assert (Hs : (0 <= s)%Z) by (unfold s, e'; lia).
    set (m' := match s with
               | 0%Z => Z.pos mx
               | Z.pos _ => Z.shiftl (Z.pos mx) s
               | Z.neg _ => 0%Z
               end).
    assert (Hm' : m' = (Z.pos mx * 2 ^ s)%Z).
    { unfold m'; destruct s as [|p|p]; [cbn; lia| |lia].
      apply Z.shiftl_mul_pow2; lia. }
    pose proof (Z_div_mod m' (Z.pos my) ltac:(lia)) as Hdiv.
    destruct (Z.div_eucl m' (Z.pos my)) as [q rm].
    destruct Hdiv as [Hq Hrm].
    assert (Hq0 : (0 <= q)%Z).
    { assert (0 <= m')%Z by (rewrite Hm'; apply Z.mul_nonneg_nonneg; [lia|apply Z.pow_nonneg; lia]).
      nia. }
    set (X := IZR (Z.pos mx) * bpow ex / (IZR (Z.pos my) * bpow ey)).
    assert (HX : 0 < X).
    { unfold X; apply Rdiv_lt_0_compat; [|exact Hy].
      apply Rmult_lt_0_compat; [apply IZR_lt; lia|apply bpow_gt_0]. }
    assert (HQ : cond_Ropp sx (IZR (Z.pos mx) * bpow ex)
                 / cond_Ropp sy (IZR (Z.pos my) * bpow ey)
                 = cond_Ropp (xorb sx sy) X).
    { unfold X; generalize dependent (IZR (Z.pos my) * bpow ey).
      generalize (IZR (Z.pos mx) * bpow ex); intros a b Hb _ _.
      destruct sx, sy; cbn [cond_Ropp xorb]; field; lra. }
    rewrite HQ, Rabs_cond, (Rabs_pos_eq X) by lra.
    assert (Hpos_my : 0 < IZR (Z.pos my)) by (apply IZR_lt; lia).
    assert (HXe : X * bpow (- e') = IZR q + IZR rm / IZR (Z.pos my)).
    { assert (Hm'R : IZR m' = IZR (Z.pos my) * IZR q + IZR rm)
        by (rewrite Hq, plus_IZR, mult_IZR; reflexivity).
      rewrite Hm', mult_IZR, <- bpow_IZR in Hm'R by exact Hs.
      unfold s in Hm'R.
      replace (ex - ey - e')%Z with (ex + (- ey + - e'))%Z in Hm'R by lia.
      rewrite !bpow_plus in Hm'R.
      pose proof (bpow_inv_l ey) as Hinv.
      pose proof (bpow_gt_0 ey).
      unfold X.
      replace (IZR (Z.pos mx) * bpow ex / (IZR (Z.pos my) * bpow ey) * bpow (- e'))
        with (IZR (Z.pos mx) * (bpow ex * (bpow (- ey) * bpow (- e')))
              / IZR (Z.pos my) * (bpow (- ey) * bpow ey) / (bpow (- ey) * bpow ey)).
      - rewrite Hm'R, Hinv; field; lra.
      - rewrite Hinv. field_simplify; try lra.
        rewrite bpow_opp. field. split; lra. }
    assert (Hin : inb_rec (shr_record_of_loc q (new_location (Z.pos my) rm))
                          (X * bpow (- e'))).
    { rewrite HXe; apply new_location_inb; lia. }
    pose proof (round_aux_spec (xorb sx sy) q e' (new_location (Z.pos my) rm) X
                               Hq0 HX Hin) as H.
    cbv zeta in H.
    set (E := Z.max e' (fexp prec emax (Zdigits2 q + e'))) in *.
    (* half an ulp against the quotient *)
    assert (Hhalf : / 2 * bpow E <= bpow (-53) * X + bpow (-1075)).
    { pose proof (fexp_eq (Zdigits2 q + e')) as Hf1.
      pose proof (fexp_eq (d1 + ex - (d2 + ey))) as Hf2.
      rewrite <- bpow_pred.
      destruct (Z.eq_dec E (-1074)) as [HE|HE].
      { rewrite HE; change (-1074 - 1)%Z with (-1075)%Z.
        assert (0 <= bpow (-53) * X) by (apply Rmult_le_pos; lra). lra. }
      assert (HEmin : (-1074 < E)%Z) by (unfold E in *; lia).
      destruct (Z.eq_dec E e') as [HEe|HEe].
      - (* the quotient has at least 53 bits *)
        assert (He'D : (e' <= d1 + ex - (d2 + ey) - 53)%Z) by (unfold e' in *; lia).
        assert (HXD : bpow (d1 + ex - (d2 + ey) - 1) <= X).
        { unfold X, d1, d2.
          pose proof (IZR_pos_ge_bpow mx) as Hlo.
          pose proof (digits2_pos_bounds my) as [_ Hhi].
          apply IZR_lt in Hhi; rewrite <- bpow_IZR in Hhi by lia.
          cbn [Zdigits2].
          set (a := Z.pos (digits2_pos mx)) in *.
          set (b := Z.pos (digits2_pos my)) in *.
          replace (a + ex - (b + ey) - 1)%Z with ((a - 1) + ex + (- b + - ey))%Z by lia.
          rewrite !bpow_plus, !bpow_opp.
          pose proof (bpow_gt_0 b). pose proof (bpow_gt_0 ey).
          pose proof (bpow_gt_0 ex). pose proof (bpow_gt_0 (a - 1)).
          unfold Rdiv; rewrite Rinv_mult.
          replace (bpow (a - 1) * bpow ex * (/ bpow b * / bpow ey))
            with (bpow (a - 1) * / bpow b * (bpow ex * / bpow ey)) by ring.
          replace (IZR (Z.pos mx) * bpow ex * (/ IZR (Z.pos my) * / bpow ey))
            with (IZR (Z.pos mx) * / IZR (Z.pos my) * (bpow ex * / bpow ey)) by ring.
          apply Rmult_le_compat_r.
          { apply Rmult_le_pos; [lra|left; apply Rinv_0_lt_compat; lra]. }
          apply Rmult_le_compat; try lra.
          - left; apply Rinv_0_lt_compat; lra.
          - apply Rinv_le_contravar; lra. }
        assert (bpow (E - 1) <= bpow (-53 + (d1 + ex - (d2 + ey) - 1)))
          by (apply bpow_le; lia).
        rewrite bpow_plus in H0.
        assert (bpow (-53) * bpow (d1 + ex - (d2 + ey) - 1) <= bpow (-53) * X)
          by (apply Rmult_le_compat_l; lra).
        lra.
      - assert (HEq : E = (Zdigits2 q + e' - 53)%Z) by (unfold E in *; lia).
        assert (Hq1 : (0 < q)%Z).
        { destruct (Z.eq_dec q 0) as [->|]; [|lia].
          cbn [Zdigits2] in *; unfold E in *; lia. }
        pose proof (Zdigits2_bounds q Hq1) as [Hlo _].
        apply IZR_le in Hlo; rewrite <- bpow_IZR in Hlo
          by (pose proof (Zdigits2_nonneg q); unfold E in *; lia).
        assert (HqX : IZR q <= X * bpow (- e')).
        { rewrite HXe.
          assert (0 <= IZR rm / IZR (Z.pos my)); [|lra].
          apply Rmult_le_pos; [apply IZR_le; lia|left; apply Rinv_0_lt_compat; lra]. }
        assert (HXq : bpow (Zdigits2 q - 1 + e') <= X).
        { rewrite bpow_plus.
          replace X with (X * bpow (- e') * bpow e')
            by (rewrite Rmult_assoc, bpow_inv_l; ring).
          apply Rmult_le_compat_r; [left; apply bpow_gt_0|lra]. }
        replace (E - 1)%Z with (-53 + (Zdigits2 q - 1 + e'))%Z by lia.
        rewrite bpow_plus.
        assert (bpow (-53) * bpow (Zdigits2 q - 1 + e') <= bpow (-53) * X)
          by (apply Rmult_le_compat_l; lra).
        lra. }
    destruct (binary_round_aux prec emax (xorb sx sy) q e'
                               (new_location (Z.pos my) rm)) as [s'|s'| |s' mr er].
    + destruct H as [-> HXE]. left; split; [reflexivity|].
      cbn [SF2R].
      replace (0 - cond_Ropp (xorb sx sy) X)
        with (cond_Ropp (xorb sx sy) 0 - cond_Ropp (xorb sx sy) X)
        by (destruct (xorb sx sy); cbn; ring).
      rewrite Rabs_cond_Ropp, Rminus_0_l, Rabs_Ropp, Rabs_pos_eq by lra.
      lra.
    + destruct H as [-> HXE]. right; split; [reflexivity|exact HXE].
    + destruct H.
    + destruct H as (-> & Hle & Herr & _). left; split; [reflexivity|].
      cbn [SF2R]; rewrite Rabs_cond_Ropp; lra.
Qed.

(** ** The operations on floats *)

Lemma is_finite_SF (x : float) : Binary64.is_finite x = SFfinite (Prim2SF x).
Proof. reflexivity. Qed.

Lemma mul_R (x y : float) :
  Binary64.is_finite x = true -> Binary64.is_finite y = true ->
  (Binary64.is_finite (x * y) = true /\
   Rabs (to_R (x * y) - to_R x * to_R y)
   <= bpow (-53) * Rabs (to_R x * to_R y) + bpow (-1075))
  \/ (Binary64.is_finite (x * y) = false /\ bpow 971 <= Rabs (to_R x * to_R y)).
Proof.
  rewrite !is_finite_SF; unfold to_R; rewrite mul_spec; apply SFmul_spec.
Qed.

Lemma add_R (x y : float) :
  Binary64.is_finite x = true -> Binary64.is_finite y = true ->
  (Binary64.is_finite (x + y) = true /\
   Rabs (to_R (x + y) - (to_R x + to_R y)) <= bpow (-53) * Rabs (to_R x + to_R y))
  \/ (Binary64.is_finite (x + y) = false /\ bpow 971 <= Rabs (to_R x + to_R y)).
Proof.
  rewrite !is_finite_SF; unfold to_R; rewrite add_spec.
  apply SFadd_spec; apply Prim2SF_valid.
Qed.

Lemma sub_R (x y : float) :
  Binary64.is_finite x = true -> Binary64.is_finite y = true ->
  (Binary64.is_finite (x - y) = true /\
   Rabs (to_R (x - y) - (to_R x - to_R y)) <= bpow (-53) * Rabs (to_R x - to_R y))
  \/ (Binary64.is_finite (x - y) = false /\ bpow 971 <= Rabs (to_R x - to_R y)).
Proof.
  rewrite !is_finite_SF; unfold to_R; rewrite sub_spec.
  apply SFsub_spec; apply Prim2SF_valid.
Qed.

Lemma div_R (x y : float) :
  Binary64.is_finite x = true -> Binary64.is_finite y = true -> to_R y <> 0 ->
  (Binary64.is_finite (x / y) = true /\
   Rabs (to_R (x / y) - to_R x / to_R y)
   <= bpow (-53) * Rabs (to_R x / to_R y) + bpow (-1075))
  \/ (Binary64.is_finite (x / y) = false /\ bpow 971 <= Rabs (to_R x / to_R y)).
Proof.
  rewrite !is_finite_SF; unfold to_R; rewrite div_spec.
  intros Hx Hy Hy0.
  destruct (Prim2SF y) as [sy|sy| |sy my ey] eqn:Ey; try discriminate.
  - exfalso; apply Hy0; reflexivity.
  - apply (SFdiv_spec (Prim2SF x) _ sy my ey Hx eq_refl).
Qed.

(** A finite result comes from finite operands. *)
Lemma mul_finite_inv (x y : float) :
  Binary64.is_finite (x * y) = true -> Binary64.is_finite x = true /\ Binary64.is_finite y = true.
Proof.
  rewrite !is_finite_SF, mul_spec.
  destruct (Prim2SF x) as [sx|sx| |sx mx ex], (Prim2SF y) as [sy|sy| |sy my ey];
    cbn [SF64mul SFmul SFfinite]; intros H; try discriminate; split; reflexivity.
Qed.

Lemma add_finite_inv (x y : float) :
  Binary64.is_finite (x + y) = true -> Binary64.is_finite x = true /\ Binary64.is_finite y = true.
Proof.
  rewrite !is_finite_SF, add_spec.
  destruct (Prim2SF x) as [sx|sx| |sx mx ex], (Prim2SF y) as [sy|sy| |sy my ey];
    cbn [SF64add SFadd SFfinite]; intros H; try discriminate;
    try (split; reflexivity); destruct sx, sy; discriminate.
Qed.

Lemma sub_finite_inv (x y : float) :
  Binary64.is_finite (x - y) = true -> Binary64.is_finite x = true /\ Binary64.is_finite y = true.
Proof.
  rewrite !is_finite_SF, sub_spec.
  destruct (Prim2SF x) as [sx|sx| |sx mx ex], (Prim2SF y) as [sy|sy| |sy my ey];
    cbn [SF64sub SFsub SFfinite]; intros H; try discriminate;
    try (split; reflexivity); destruct sx, sy; discriminate.
Qed.

Lemma div_finite_inv (x y : float) :
  Binary64.is_finite y = true -> to_R y <> 0 ->
  Binary64.is_finite (x / y) = true -> Binary64.is_finite x = true.
Proof.
  rewrite !is_finite_SF; unfold to_R; rewrite div_spec.
  destruct (Prim2SF x) as [sx|sx| |sx mx ex], (Prim2SF y) as [sy|sy| |sy my ey];
    cbn [SF64div SFdiv SFfinite SF2R]; intros Hy Hy0 H;
    try discriminate; try reflexivity; exfalso; apply Hy0; reflexivity.
Qed.

(** ** A calculus of approximations *)

Lemma near_exact (x W : R) : 0 <= W -> near x x W 0 0.
Proof. intros HW; unfold near; rewrite Rminus_diag, Rabs_R0; lra. Qed.

Lemma near_weaken (v x W k a k' a' : R) :
  near v x W k a -> 0 <= W -> k <= k' -> a <= a' -> near v x W k' a'.
Proof.
  unfold near; intros H HW Hk Ha.
  assert (k * W <= k' * W) by (apply Rmult_le_compat_r; assumption). lra.
Qed.

Lemma near_abs (v x W k a : R) :
  near v x W k a -> Rabs v <= Rabs x + (k * W + a).
Proof.
  unfold near; intros H.
  replace v with (x + (v - x)) at 1 by ring.
  pose proof (Rabs_triang x (v - x)); lra.
Qed.

Lemma near_add (v1 x1 W1 a1 v2 x2 W2 a2 k : R) :
  near v1 x1 W1 k a1 -> near v2 x2 W2 k a2 ->
  near (v1 + v2) (x1 + x2) (W1 + W2) k (a1 + a2).
Proof.
  unfold near; intros H1 H2.
  replace (v1 + v2 - (x1 + x2)) with ((v1 - x1) + (v2 - x2)) by ring.
  pose proof (Rabs_triang (v1 - x1) (v2 - x2)); lra.
Qed.

Lemma near_round (w v x W k a u h : R) :
  near v x W k a -> Rabs x <= W ->
  Rabs (w - v) <= u * Rabs v + h ->
  0 <= u ->
  near w x W (k + u + k * u) (a * (1 + u) + h).
Proof.
  intros Hn Hx Hw Hu.
  pose proof (near_abs _ _ _ _ _ Hn) as Hv.
  unfold near in *.
  replace (w - x) with ((w - v) + (v - x)) by ring.
  pose proof (Rabs_triang (w - v) (v - x)).
  assert (u * Rabs v <= u * (W + (k * W + a)))
    by (apply Rmult_le_compat_l; lra).
  lra.
Qed.

Lemma Rabs_mul_le (x y a b : R) :
  Rabs x <= a -> Rabs y <= b -> Rabs (x * y) <= a * b.
Proof.
  intros Hx Hy; rewrite Rabs_mult.
  apply Rmult_le_compat; try apply Rabs_pos; assumption.
Qed.

Lemma near_mul (v1 x1 k1 a1 B1 v2 x2 k2 a2 B2 : R) :
  near v1 x1 (Rabs x1) k1 a1 -> near v2 x2 (Rabs x2) k2 a2 ->
  Rabs x1 <= B1 -> Rabs x2 <= B2 ->
  0 <= k1 -> 0 <= a1 -> 0 <= k2 -> 0 <= a2 ->
  near (v1 * v2) (x1 * x2) (Rabs (x1 * x2))
       (k1 + k2 + k1 * k2)
       (a1 * B2 * (1 + k2) + B1 * (1 + k1) * a2 + a1 * a2).
Proof.
  intros H1 H2 HB1 HB2 Hk1 Ha1 Hk2 Ha2.
  pose proof (near_abs _ _ _ _ _ H2) as Hv2.
  unfold near in *.
  replace (v1 * v2 - x1 * x2) with ((v1 - x1) * v2 + x1 * (v2 - x2)) by ring.
  pose proof (Rabs_triang ((v1 - x1) * v2) (x1 * (v2 - x2))) as Ht.
  rewrite !Rabs_mult in *.
  pose proof (Rabs_pos x1) as P1. pose proof (Rabs_pos x2) as P2.
  pose proof (Rabs_pos (v1 - x1)) as P3. pose proof (Rabs_pos (v2 - x2)) as P4.
  pose proof (Rabs_pos v2) as P5.
  set (X1 := Rabs x1) in *. set (X2 := Rabs x2) in *.
  set (d1 := Rabs (v1 - x1)) in *. set (d2 := Rabs (v2 - x2)) in *.
  set (V2 := Rabs v2) in *.
  assert (E1 : d1 * V2 <= (k1 * X1 + a1) * (X2 + (k2 * X2 + a2))).
  { apply Rmult_le_compat; lra. }
  assert (E2 : X1 * d2 <= X1 * (k2 * X2 + a2)).
  { apply Rmult_le_compat_l; lra. }
  assert (E3 : a1 * X2 <= a1 * B2) by (apply Rmult_le_compat_l; lra).
  assert (E4 : X1 * a2 <= B1 * a2) by (apply Rmult_le_compat_r; lra).
  assert (E5 : 0 <= a1 * X2) by (apply Rmult_le_pos; lra).
  assert (E6 : 0 <= X1 * a2) by (apply Rmult_le_pos; lra).
  assert (E7 : a1 * X2 * k2 <= a1 * B2 * k2) by (apply Rmult_le_compat_r; lra).
  assert (E8 : k1 * (X1 * a2) <= k1 * (B1 * a2)) by (apply Rmult_le_compat_l; lra).
  nra.
Qed.

(** ** Numerals *)

Lemma bpow_num_neg (p : positive) : bpow (Z.neg p) = / IZR (Z.pow_pos 2 p).
Proof.
  change (Z.neg p) with (- Z.pos p)%Z; rewrite bpow_opp, bpow_IZR by lia.
  reflexivity.
Qed.

Lemma bpow_num_pos (p : positive) : bpow (Z.pos p) = IZR (Z.pow_pos 2 p).
Proof. rewrite bpow_IZR by lia; reflexivity. Qed.
End Rounding.

(** [bpow e] at a literal [e], as a numeral. *)
Ltac bpow_numerals :=
  repeat match goal with
  | |- context [bpow (Z.neg ?p)] =>
      let z := eval vm_compute in (Z.pow_pos 2 p) in
      replace (bpow (Z.neg p)) with (Rinv (IZR z)) in *
        by (symmetry; exact (bpow_num_neg p))
  | |- context [bpow (Z.pos ?p)] =>
      let z := eval vm_compute in (Z.pow_pos 2 p) in
      replace (bpow (Z.pos p)) with (IZR z) in *
        by (symmetry; exact (bpow_num_pos p))
  | H : context [bpow (Z.neg ?p)] |- _ =>
      let z := eval vm_compute in (Z.pow_pos 2 p) in
      replace (bpow (Z.neg p)) with (Rinv (IZR z)) in *
        by (symmetry; exact (bpow_num_neg p))
  | H : context [bpow (Z.pos ?p)] |- _ =>
      let z := eval vm_compute in (Z.pow_pos 2 p) in
      replace (bpow (Z.pos p)) with (IZR z) in *
        by (symmetry; exact (bpow_num_pos p))
  end.

Ltac num := bpow_numerals; lra.

Section RoundedOperations.
Local Open Scope R_scope.

Lemma to_R_finite (x : float) (s : bool) (m : positive) (e : Z) :
  Prim2SF x = S754_finite s m e -> to_R x = cond_Ropp s (IZR (Z.pos m) * bpow e).
Proof. unfold to_R; intros ->; reflexivity. Qed.

(** The constants of cells 3 and 4 are exact. *)
Lemma to_R_half : to_R (lit 50 2) = / 2.
Proof.
  rewrite (to_R_finite (lit 50 2) false 4503599627370496 (-53))
    by (vm_compute; reflexivity).
  cbn [cond_Ropp]; bpow_numerals; lra.
Qed.

Lemma to_R_two : to_R (Binary64.of_Z 2) = 2.
Proof.
  rewrite (to_R_finite (Binary64.of_Z 2) false 4503599627370496 (-51))
    by (vm_compute; reflexivity).
  cbn [cond_Ropp]; bpow_numerals; lra.
Qed.

Lemma to_R_sixteen : to_R (Binary64.of_Z 16) = 16.
Proof.
  rewrite (to_R_finite (Binary64.of_Z 16) false 4503599627370496 (-48))
    by (vm_compute; reflexivity).
  cbn [cond_Ropp]; bpow_numerals; lra.
Qed.

Lemma near_of_round (w x k h : R) :
  Rabs (w - x) <= k * Rabs x + h -> near w x (Rabs x) k h.
Proof. intros H; exact H. Qed.

Lemma mul_near (x y : float) (X Y k1 a1 B1 k2 a2 B2 : R) :
  Binary64.is_finite x = true -> Binary64.is_finite y = true ->
  near (to_R x) X (Rabs X) k1 a1 -> near (to_R y) Y (Rabs Y) k2 a2 ->
  Rabs X <= B1 -> Rabs Y <= B2 ->
  0 <= k1 -> 0 <= a1 -> 0 <= k2 -> 0 <= a2 ->
  (B1 * (1 + k1) + a1) * (B2 * (1 + k2) + a2) < bpow 971 ->
  Binary64.is_finite (x * y) = true /\
  near (to_R (x * y)) (X * Y) (Rabs (X * Y))
       ((k1 + k2 + k1 * k2) + bpow (-53) + (k1 + k2 + k1 * k2) * bpow (-53))
       ((a1 * B2 * (1 + k2) + B1 * (1 + k1) * a2 + a1 * a2) * (1 + bpow (-53))
        + bpow (-1075)).
Proof.
  intros Fx Fy Hx Hy HB1 HB2 Hk1 Ha1 Hk2 Ha2 Hbig.
  pose proof (near_abs _ _ _ _ _ Hx) as Ax.
  pose proof (near_abs _ _ _ _ _ Hy) as Ay.
  assert (Ax' : Rabs (to_R x) <= B1 * (1 + k1) + a1).
  { assert (k1 * Rabs X <= k1 * B1) by (apply Rmult_le_compat_l; lra). lra. }
  assert (Ay' : Rabs (to_R y) <= B2 * (1 + k2) + a2).
  { assert (k2 * Rabs Y <= k2 * B2) by (apply Rmult_le_compat_l; lra). lra. }
  pose proof (Rabs_mul_le _ _ _ _ Ax' Ay') as Hprod.
  destruct (mul_R x y Fx Fy) as [[Hf Hr]|[_ Hover]]; [|lra].
  split; [exact Hf|].
  apply near_round with (v := to_R x * to_R y).
  - apply near_mul; assumption.
  - lra.
  - exact Hr.
  - left; apply bpow_gt_0.
Qed.

Lemma add_near (x y : float) (X Y W1 W2 k a1 a2 : R) :
  Binary64.is_finite x = true -> Binary64.is_finite y = true ->
  near (to_R x) X W1 k a1 -> near (to_R y) Y W2 k a2 ->
  Rabs X <= W1 -> Rabs Y <= W2 ->
  (W1 + W2) * (1 + k) + (a1 + a2) < bpow 971 ->
  Binary64.is_finite (x + y) = true /\
  near (to_R (x + y)) (X + Y) (W1 + W2)
       (k + bpow (-53) + k * bpow (-53)) ((a1 + a2) * (1 + bpow (-53)) + 0).
Proof.
  intros Fx Fy Hx Hy HX HY Hbig.
  pose proof (near_add _ _ _ _ _ _ _ _ _ Hx Hy) as Hs.
  pose proof (near_abs _ _ _ _ _ Hs) as As.
  pose proof (Rabs_triang X Y) as Ht.
  destruct (add_R x y Fx Fy) as [[Hf Hr]|[_ Hover]]; [|lra].
  split; [exact Hf|].
  apply near_round with (v := to_R x + to_R y).
  - exact Hs.
  - lra.
  - lra.
  - left; apply bpow_gt_0.
Qed.
End RoundedOperations.

(* ================================================================== *)
(** * The evaluator on binary64 against the formula of the specification *)

(** The evaluator runs eight rounded operations; the formula is over the
    reals.  What relates them is an error bound, stated for any square that
    the library computes within one unit in the last place, the product of
    [put_delta_iv] among them. *)
Section EvaluatorRounded.
Local Open Scope R_scope.

Lemma iv_spec_eq (delta rr fly atm : R) :
  iv_spec delta rr fly atm
  = atm + 2 * rr * (delta - / 2) + 16 * fly * ((delta - / 2) * (delta - / 2)).
Proof. unfold iv_spec; replace 0.5 with (/ 2) by lra; ring. Qed.

Lemma to_R_finite_nonzero (x : float) : to_R x <> 0 -> Binary64.is_finite x = true.
Proof.
  unfold to_R, Binary64.is_finite.
  destruct (Prim2SF x); cbn [SF2R]; intros H; try reflexivity; exfalso; apply H; reflexivity.
Qed.

(** The error of the evaluator, for any square within one unit in the last
    place: the eight roundings together move the value by at most [2^-50]
    of the sizes of the three terms. *)
Lemma evaluator_error (sq : float -> float) (delta rr fly atm : float) :
  sq_accurate sq ->
  Binary64.is_finite delta = true -> Binary64.is_finite rr = true ->
  Binary64.is_finite fly = true -> Binary64.is_finite atm = true ->
  0 <= to_R delta <= 1 ->
  Rabs (to_R rr) <= bpow 100 -> Rabs (to_R fly) <= bpow 100 ->
  Rabs (to_R atm) <= bpow 100 ->
  Binary64.is_finite (put_delta_iv_with sq delta rr fly atm) = true /\
  Rabs (to_R (put_delta_iv_with sq delta rr fly atm)
        - iv_spec (to_R delta) (to_R rr) (to_R fly) (to_R atm))
  <= bpow (-50) * (Rabs (to_R atm)
                   + Rabs (2 * to_R rr * (to_R delta - / 2))
                   + Rabs (16 * to_R fly * ((to_R delta - / 2) * (to_R delta - / 2))))
     + bpow (-960).
Proof.
  intros Hsq Fd Frr Ffly Fatm HD HR HF HA.
  rewrite iv_spec_eq.
  unfold put_delta_iv_with; cbn [add sub mul div of_int float_arith].
  set (D := to_R delta) in *. set (Q := to_R rr) in *.
  set (F := to_R fly) in *. set (A := to_R atm) in *.
  assert (F05 : Binary64.is_finite (lit 50 2) = true) by (vm_compute; reflexivity).
  assert (F2 : Binary64.is_finite (Binary64.of_Z 2) = true) by (vm_compute; reflexivity).
  assert (F16 : Binary64.is_finite (Binary64.of_Z 16) = true) by (vm_compute; reflexivity).
  pose proof (bpow_gt_0 (-53)) as Hu.
  pose proof (bpow_gt_0 (-1075)) as Heta.
  (* the offset from 0.5 *)
  set (D' := D - / 2).
  assert (HD' : Rabs D' <= / 2) by (apply Rabs_le; unfold D'; lra).
  destruct (sub_R delta (lit 50 2) Fd F05) as [[Fo Ho]|[_ Hov]].
  2:{ exfalso; rewrite to_R_half in Hov; fold D D' in Hov.
      assert (1 <= bpow 971) by num; lra. }
  rewrite to_R_half in Ho; fold D D' in Ho.
  set (o := (delta - lit 50 2)%float) in *.
  assert (No : near (to_R o) D' (Rabs D') (bpow (-53)) 0) by (unfold near; lra).
  assert (HO1 : Rabs (to_R o) <= 1).
  { pose proof (near_abs _ _ _ _ _ No) as H.
    assert (bpow (-53) * Rabs D' <= bpow (-53) * / 2)
      by (apply Rmult_le_compat_l; lra).
    assert (bpow (-53) <= 1) by num. lra. }
  (* 2 * rr *)
  assert (H2Q : Rabs (2 * Q) <= 2 * bpow 100).
  { rewrite Rabs_mult, (Rabs_pos_eq 2) by lra; lra. }
  destruct (mul_R (Binary64.of_Z 2) rr F2 Frr) as [[Fa Ha]|[_ Hov]].
  2:{ exfalso; rewrite to_R_two in Hov; fold Q in Hov.
      assert (2 * bpow 100 < bpow 971) by num; lra. }
  rewrite to_R_two in Ha; fold Q in Ha.
  set (a := (Binary64.of_Z 2 * rr)%float) in *.
  assert (Na : near (to_R a) (2 * Q) (Rabs (2 * Q)) (bpow (-53)) (bpow (-1075)))
    by exact Ha.
  (* 2 * rr * (delta - 0.5) *)
  destruct (mul_near a o (2 * Q) D' (bpow (-53)) (bpow (-1075)) (2 * bpow 100)
                     (bpow (-53)) 0 (/ 2) Fa Fo Na No H2Q HD'
                     ltac:(lra) ltac:(lra) ltac:(lra) ltac:(lra) ltac:(num))
    as [Fb Nb].
  set (b := (a * o)%float) in *. set (T1 := 2 * Q * D') in *.
  assert (HT1 : Rabs T1 <= bpow 100).
  { unfold T1; replace (bpow 100) with (2 * bpow 100 * / 2) by lra.
    apply Rabs_mul_le; assumption. }
  apply near_weaken with (k' := 7 / 2 * bpow (-53)) (a' := 2 * bpow (-1075)) in Nb;
    [|apply Rabs_pos|num|num].
  (* atm + ... *)
  assert (NA : near A A (Rabs A) (7 / 2 * bpow (-53)) 0).
  { apply near_weaken with (k := 0) (a := 0);
      [apply near_exact; apply Rabs_pos|apply Rabs_pos|lra|lra]. }
  destruct (add_near atm b A T1 (Rabs A) (Rabs T1) (7 / 2 * bpow (-53)) 0
                     (2 * bpow (-1075)) Fatm Fb NA Nb ltac:(lra) ltac:(lra)
                     ltac:(num))
    as [Fc Nc].
  set (c := (atm + b)%float) in *.
  (* the square of the offset *)
  destruct (Hsq o Fo HO1) as [Fq Hq].
  set (q := sq o) in *.
  pose proof (near_mul _ _ _ _ _ _ _ _ _ _ No No HD' HD'
                       ltac:(lra) ltac:(lra) ltac:(lra) ltac:(lra)) as Noo.
  assert (Nq : near (to_R q) (D' * D') (Rabs (D' * D'))
                    (9 / 2 * bpow (-53)) (bpow (-1074))).
  { assert (Hpos : 0 <= to_R o * to_R o) by nra.
    rewrite <- (Rabs_pos_eq _ Hpos) in Hq at 2.
    pose proof (near_round _ _ _ _ _ _ _ _ Noo ltac:(lra) Hq
                           ltac:(left; apply bpow_gt_0)) as H.
    apply near_weaken with (1 := H); [apply Rabs_pos|num|num]. }
  assert (HDD : Rabs (D' * D') <= / 4).
  { replace (/ 4) with (/ 2 * / 2) by lra; apply Rabs_mul_le; assumption. }
  (* 16 * fly *)
  assert (H16F : Rabs (16 * F) <= 16 * bpow 100).
  { rewrite Rabs_mult, (Rabs_pos_eq 16) by lra; lra. }
  destruct (mul_R (Binary64.of_Z 16) fly F16 Ffly) as [[Ff Hf]|[_ Hov]].
  2:{ exfalso; rewrite to_R_sixteen in Hov; fold F in Hov.
      assert (16 * bpow 100 < bpow 971) by num; lra. }
  rewrite to_R_sixteen in Hf; fold F in Hf.
  set (f := (Binary64.of_Z 16 * fly)%float) in *.
  assert (Nf : near (to_R f) (16 * F) (Rabs (16 * F)) (bpow (-53)) (bpow (-1075)))
    by exact Hf.
  (* 16 * fly * (delta - 0.5) ** 2 *)
  destruct (mul_near f q (16 * F) (D' * D') (bpow (-53)) (bpow (-1075))
                     (16 * bpow 100) (9 / 2 * bpow (-53)) (bpow (-1074)) (/ 4)
                     Ff Fq Nf Nq H16F HDD
                     ltac:(lra) ltac:(lra) ltac:(num) ltac:(num) ltac:(num))
    as [Fg Ng].
  set (g := (f * q)%float) in *. set (T2 := 16 * F * (D' * D')) in *.
  assert (HT2 : Rabs T2 <= 4 * bpow 100).
  { unfold T2; replace (4 * bpow 100) with (16 * bpow 100 * / 4) by lra.
    apply Rabs_mul_le; assumption. }
  apply near_weaken with (k' := 34 / 5 * bpow (-53)) (a' := bpow (-965)) in Ng;
    [|apply Rabs_pos|num|num].
  (* the sum *)
  apply near_weaken with (k' := 34 / 5 * bpow (-53)) (a' := 3 * bpow (-1075)) in Nc;
    [|pose proof (Rabs_pos A); pose proof (Rabs_pos T1); lra|num|num].
  pose proof (Rabs_triang A T1) as Htri.
  destruct (add_near c g (A + T1) T2 (Rabs A + Rabs T1) (Rabs T2)
                     (34 / 5 * bpow (-53)) (3 * bpow (-1075)) (bpow (-965))
                     Fc Fg Nc Ng ltac:(lra) ltac:(lra) ltac:(num))
    as [Fr Nr].
  split; [exact Fr|].
  apply near_weaken with (k' := bpow (-50)) (a' := bpow (-960)) in Nr;
    [exact Nr| |num|num].
  pose proof (Rabs_pos A); pose proof (Rabs_pos T1); pose proof (Rabs_pos T2); lra.
Qed.

Lemma product_accurate : sq_accurate (fun x => power x 2).
Proof.
  intros x Fx Hx; cbn [power mul float_arith].
  assert (Hsq : Rabs (to_R x * to_R x) <= 1).
  { replace 1 with (1 * 1) by ring; apply Rabs_mul_le; assumption. }
  assert (Hpos : 0 <= to_R x * to_R x) by nra.
  destruct (mul_R x x Fx Fx) as [[Hf Hr]|[_ Hov]].
  - split; [exact Hf|].
    rewrite (Rabs_pos_eq _ Hpos) in Hr.
    assert (bpow (-53) * (to_R x * to_R x) <= bpow (-52) * (to_R x * to_R x)).
    { apply Rmult_le_compat_r; [exact Hpos|apply bpow_le; lia]. }
    assert (bpow (-1075) <= bpow (-1074)) by (apply bpow_le; lia).
    lra.
  - exfalso; assert (1 < bpow 971) by num; lra.
Qed.

Lemma product_even : sq_even (fun x => power x 2).
Proof.
  intros x; cbn [power mul float_arith].
  apply Prim2SF_inj; rewrite !mul_spec, !opp_spec.
  destruct (Prim2SF x) as [s|s| |s m e]; cbn [SFopp SF64mul SFmul];
    try reflexivity; destruct s; reflexivity.
Qed.

Lemma put_delta_iv_with_product (delta rr fly atm : float) :
  put_delta_iv_with (fun x => power x 2) delta rr fly atm
  = put_delta_iv delta rr fly atm.
Proof. reflexivity. Qed.
End EvaluatorRounded.

(** The real value of a float given by a literal. *)
Lemma to_R_zero (x : float) (s : bool) : Prim2SF x = S754_zero s -> to_R x = 0%R.
Proof. unfold to_R; intros ->; reflexivity. Qed.

Ltac to_R_value x :=
  let v := eval vm_compute in (Prim2SF x) in
  lazymatch v with
  | S754_finite ?s ?m ?e =>
      rewrite (to_R_finite x s m e) by (vm_compute; reflexivity)
  | S754_zero ?s =>
      rewrite (to_R_zero x s) by (vm_compute; reflexivity)
  end.

Section EvaluatorClaims.
Local Open Scope R_scope.

(** C1 as stated fails: the evaluator does not return the exact value of
    the formula.  At delta = 0.75, rr = 0, fly = 2^-60 and atm = 1 every
    intermediate result is exact but the last sum: the formula is worth
    [1 + 2^-60] and the evaluator returns [1]. *)
Lemma put_delta_iv_exact_counterexample :
  0 < to_R (lit 75 2) < 1 /\
  to_R (put_delta_iv (lit 75 2) (of_int 0) (of_int 1 / of_int (2 ^ 60))%num (of_int 1))
  <> iv_spec (to_R (lit 75 2)) (to_R (of_int 0))
             (to_R (of_int 1 / of_int (2 ^ 60))%num) (to_R (of_int 1)).
Proof.
  replace (put_delta_iv (lit 75 2) (of_int 0) (of_int 1 / of_int (2 ^ 60))%num (of_int 1))
    with (of_int 1 : float) by (vm_compute; reflexivity).
  unfold iv_spec.
  to_R_value (lit (F := float) 75 2).
  to_R_value (of_int (F := float) 1).
  to_R_value (of_int (F := float) 0).
  to_R_value ((of_int 1 / of_int (2 ^ 60))%num : float).
  cbn [cond_Ropp]; bpow_numerals; split; lra.
Qed.

(** C1, amended.  For every binary64 delta strictly between 0 and 1 and all
    finite risk_reversal, butterfly and atm_iv of magnitude at most [2^100],
    the evaluator returns a finite float, and the real number it stands for
    is the value of
    [atm_iv + 2*risk_reversal*(delta - 0.5) + 16*butterfly*(delta - 0.5)^2]
    up to rounding: the two differ by at most [2^-50] times the sum of the
    magnitudes of the three terms, plus [2^-960].  The square may be any
    function within one unit in the last place of the exact square. *)
Theorem put_delta_iv_rounded
  (sq : float -> float) (delta risk_reversal butterfly atm_iv : float) :
  sq_accurate sq ->
  Binary64.is_finite risk_reversal = true ->
  Binary64.is_finite butterfly = true ->
  Binary64.is_finite atm_iv = true ->
  0 < to_R delta < 1 ->
  Rabs (to_R risk_reversal) <= bpow 100 ->
  Rabs (to_R butterfly) <= bpow 100 ->
  Rabs (to_R atm_iv) <= bpow 100 ->
  Binary64.is_finite (put_delta_iv_with sq delta risk_reversal butterfly atm_iv) = true /\
  Rabs (to_R (put_delta_iv_with sq delta risk_reversal butterfly atm_iv)
        - iv_spec (to_R delta) (to_R risk_reversal) (to_R butterfly) (to_R atm_iv))
  <= bpow (-50) * (Rabs (to_R atm_iv)
                   + Rabs (2 * to_R risk_reversal * (to_R delta - 0.5))
                   + Rabs (16 * to_R butterfly * (to_R delta - 0.5) ^ 2))
     + bpow (-960).
Proof.
  intros Hsq Frr Ffly Fatm HD HR HF HA.
  assert (Fd : Binary64.is_finite delta = true) by (apply to_R_finite_nonzero; lra).
  replace 0.5 with (/ 2) by lra.
  replace ((to_R delta - / 2) ^ 2)
    with ((to_R delta - / 2) * (to_R delta - / 2)) by ring.
  apply evaluator_error; try assumption; lra.
Qed.

Lemma put_delta_iv_rounded_witness :
  Binary64.is_finite (put_delta_iv (lit 20 2) (lit (-2) 2) (lit 3 2) (lit 20 2)) = true /\
  Rabs (to_R (put_delta_iv (lit 20 2) (lit (-2) 2) (lit 3 2) (lit 20 2))
        - iv_spec (to_R (lit 20 2)) (to_R (lit (-2) 2)) (to_R (lit 3 2)) (to_R (lit 20 2)))
  <= bpow (-50) * (Rabs (to_R (lit 20 2))
                   + Rabs (2 * to_R (lit (-2) 2) * (to_R (lit 20 2) - 0.5))
                   + Rabs (16 * to_R (lit 3 2) * (to_R (lit 20 2) - 0.5) ^ 2))
     + bpow (-960).
Proof.
  apply (put_delta_iv_rounded (fun x => power x 2)
                              (lit 20 2) (lit (-2) 2) (lit 3 2) (lit 20 2)).
  - apply product_accurate.
  - vm_compute; reflexivity.
  - vm_compute; reflexivity.
  - vm_compute; reflexivity.
  - to_R_value (lit (F := float) 20 2); cbn [cond_Ropp]; num.
  - to_R_value (lit (F := float) (-2) 2); cbn [cond_Ropp]; apply Rabs_le; num.
  - to_R_value (lit (F := float) 3 2); cbn [cond_Ropp]; apply Rabs_le; num.
  - to_R_value (lit (F := float) 20 2); cbn [cond_Ropp]; apply Rabs_le; num.
Defined.
End EvaluatorClaims.

(* ================================================================== *)
(** * At the money, on binary64 *)

Section AtTheMoneyRounded.
Local Open Scope float_scope.

Lemma isnan_false (x : float) : isnan x = false <-> Prim2SF x <> S754_nan.
Proof.
  pose proof (isnan_spec x) as H; destruct (isnan x); split; intros H1.
  - discriminate.
  - exfalso; apply H1; apply H; reflexivity.
  - intros H2; apply H in H2; discriminate.
  - reflexivity.
Qed.

(** A float that is not finite, times zero, is not-a-number. *)
Lemma mul_zero_nan (a : float) :
  Binary64.is_finite a = false -> isnan (a * 0) = true.
Proof.
  unfold Binary64.is_finite; intros Ha.
  apply isnan_spec; rewrite mul_spec; change (Prim2SF 0) with (S754_zero false).
  destruct (Prim2SF a) as [s|s| |s m e]; try discriminate; reflexivity.
Qed.

(** Adding two zeros to a float that is a number leaves a float equal to it. *)
Lemma add_two_zeros_number (a z1 z2 : float) (s1 s2 : bool) :
  isnan a = false ->
  Prim2SF z1 = S754_zero s1 ->
  Prim2SF z2 = S754_zero s2 ->
  (a + z1 + z2 =? a) = true.
Proof.
  intros Ha Hz1 Hz2; apply isnan_false in Ha.
  rewrite eqb_spec, !add_spec, Hz1, Hz2.
  destruct (Prim2SF a) as [sa|sa| |sa m e].
  - destruct sa, s1, s2; reflexivity.
  - destruct sa; reflexivity.
  - exfalso; apply Ha; reflexivity.
  - unfold SFeqb; cbn [SF64add SFadd]; rewrite SFcompare_refl; reflexivity.
Qed.

(** C8 as stated fails: with rr = 1e308, fly = 0 and atm = 0.2 the product
    [2*rr] overflows, [inf * 0] is not-a-number, and the value returned at
    delta = 0.5 is not equal to atm. *)
Lemma at_the_money_counterexample :
  (put_delta_iv (lit 50 2) (of_int (10 ^ 308)) (of_int 0) (lit 20 2) =? lit 20 2) = false.
Proof. vm_compute; reflexivity. Qed.

(** C8, amended.  On binary64, evaluating at delta = 0.5 returns a float
    equal to atm for all rr, fly and atm such that [2*rr] and [16*fly] are
    finite (no overflow) and atm is a number; in every other case, that is
    when [2*rr] or [16*fly] is an infinity or not-a-number or atm is
    not-a-number, it returns not-a-number. *)
Theorem at_the_money_unless_overflow (rr fly atm : float) :
  (Binary64.is_finite (of_int 2 * rr)%num = true /\
   Binary64.is_finite (of_int 16 * fly)%num = true /\
   isnan atm = false ->
   (put_delta_iv (lit 50 2) rr fly atm =? atm) = true) /\
  (Binary64.is_finite (of_int 2 * rr)%num = false \/
   Binary64.is_finite (of_int 16 * fly)%num = false \/
   isnan atm = true ->
   isnan (put_delta_iv (lit 50 2) rr fly atm) = true).
Proof.
  unfold put_delta_iv.
  replace (lit 50 2 - lit 50 2)%num with 0 by (vm_compute; reflexivity).
  replace (power 0 2) with 0 by (vm_compute; reflexivity).
  cbn [add sub mul div float_arith]; split.
  - intros (Hrr & Hfly & Hatm).
    destruct (mul_zero_r _ Hrr) as [s1 H1].
    destruct (mul_zero_r _ Hfly) as [s2 H2].
    exact (add_two_zeros_number atm _ _ s1 s2 Hatm H1 H2).
  - intros [Hrr|[Hfly|Hatm]].
    + apply add_nan; left; apply add_nan; right; apply mul_zero_nan, Hrr.
    + apply add_nan; right; apply mul_zero_nan, Hfly.
    + apply add_nan; left; apply add_nan; left; exact Hatm.
Qed.

Lemma at_the_money_unless_overflow_witness :
  (put_delta_iv (lit 50 2) (lit (-6) 2) (lit 3 2) (lit 23 2) =? lit 23 2) = true.
Proof.
  apply (proj1 (at_the_money_unless_overflow (lit (-6) 2) (lit 3 2) (lit 23 2))).
  repeat split; vm_compute; reflexivity.
Defined.
End AtTheMoneyRounded.

(* ================================================================== *)
(** * Symmetry about delta = 0.5, on binary64 *)

Section SymmetryRounded.
Local Open Scope float_scope.

(** Two floats that compare equal are the same float, or two zeros. *)
Lemma eqb_cases (x y : float) :
  (x =? y) = true ->
  x = y \/ exists s s', Prim2SF x = S754_zero s /\ Prim2SF y = S754_zero s'.
Proof.
  rewrite eqb_spec; unfold SFeqb; intros H.
  destruct (Prim2SF x) as [sx|sx| |sx mx ex] eqn:Ex,
           (Prim2SF y) as [sy|sy| |sy my ey] eqn:Ey;
    cbn [SFcompare] in H; try discriminate;
    try (destruct sx; discriminate); try (destruct sy; discriminate).
  - right; exists sx, sy; split; reflexivity.
  - left; apply Prim2SF_inj; rewrite Ex, Ey.
    destruct sx, sy; try discriminate; reflexivity.
  - left; apply Prim2SF_inj; rewrite Ex, Ey.
    destruct sx, sy; try discriminate.
    + destruct (Z.compare_spec ex ey) as [He|He|He]; try discriminate.
      change (PosDef.Pos.compare_cont Eq mx my) with (Pos.compare mx my) in H.
      destruct (Pos.compare_spec mx my) as [Hm|Hm|Hm]; try discriminate.
      subst; reflexivity.
    + destruct (Z.compare_spec ex ey) as [He|He|He]; try discriminate.
      change (PosDef.Pos.compare_cont Eq mx my) with (Pos.compare mx my) in H.
      destruct (Pos.compare_spec mx my) as [Hm|Hm|Hm]; try discriminate.
      subst; reflexivity.
Qed.

Lemma eqb_refl_number (x : float) : isnan x = false -> (x =? x) = true.
Proof.
  intros H; apply isnan_false in H.
  rewrite eqb_spec; unfold SFeqb.
  destruct (Prim2SF x) as [s|s| |s m e].
  - reflexivity.
  - destruct s; reflexivity.
  - exfalso; apply H; reflexivity.
  - rewrite SFcompare_refl; reflexivity.
Qed.

Lemma finite_not_nan (x : float) : Binary64.is_finite x = true -> isnan x = false.
Proof.
  unfold Binary64.is_finite; intros H; apply isnan_false.
  destruct (Prim2SF x); try discriminate.
Qed.

Lemma zero_cases (x : float) (s : bool) :
  Prim2SF x = S754_zero s -> x = 0 \/ x = (- 0).
Proof.
  intros H; destruct s; [right|left]; apply Prim2SF_inj; rewrite H; reflexivity.
Qed.

(** An even square takes one value on floats that compare equal. *)
Lemma sq_even_eqb (sq : float -> float) (x y : float) :
  sq_even sq -> (x =? y) = true -> sq x = sq y.
Proof.
  intros Hev H; destruct (eqb_cases _ _ H) as [->|(s & s' & Hx & Hy)];
    [reflexivity|].
  pose proof (Hev 0) as H0.
  destruct (zero_cases _ _ Hx) as [->| ->], (zero_cases _ _ Hy) as [->| ->];
    congruence.
Qed.

Lemma eqb_finite (x y : float) :
  (x =? y) = true -> Binary64.is_finite y = true -> Binary64.is_finite x = true.
Proof.
  intros H Hy; destruct (eqb_cases _ _ H) as [->|(s & s' & Hx & _)];
    [exact Hy|].
  unfold Binary64.is_finite; rewrite Hx; reflexivity.
Qed.

Lemma zero_mul_l (z o : float) (s : bool) :
  Prim2SF z = S754_zero s -> Binary64.is_finite o = true ->
  exists s', Prim2SF (z * o) = S754_zero s'.
Proof.
  unfold Binary64.is_finite; intros Hz Ho; rewrite mul_spec, Hz.
  destruct (Prim2SF o) as [so|so| |so m e]; try discriminate;
    eexists; reflexivity.
Qed.

(** The sum of a float and a zero is that float, or a zero when the float
    is one. *)
Lemma add_zero_r_cases (a z : float) (s : bool) :
  Prim2SF z = S754_zero s ->
  a + z = a \/ exists sa s', Prim2SF a = S754_zero sa /\ Prim2SF (a + z) = S754_zero s'.
Proof.
  intros Hz.
  destruct (Prim2SF a) as [sa|sa| |sa m e] eqn:Ea.
  - right; exists sa; rewrite add_spec, Ea, Hz.
    destruct sa, s; eexists; split; reflexivity.
  - left; apply Prim2SF_inj; rewrite add_spec, Ea, Hz; reflexivity.
  - left; apply Prim2SF_inj; rewrite add_spec, Ea, Hz; reflexivity.
  - left; apply Prim2SF_inj; rewrite add_spec, Ea, Hz; reflexivity.
Qed.

(** A zero plus a float is that float, or a zero when the float is one. *)
Lemma add_zero_l_cases (z g : float) (s : bool) :
  Prim2SF z = S754_zero s ->
  z + g = g \/ exists sg s', Prim2SF g = S754_zero sg /\ Prim2SF (z + g) = S754_zero s'.
Proof.
  intros Hz.
  destruct (Prim2SF g) as [sg|sg| |sg m e] eqn:Eg.
  - right; exists sg; rewrite add_spec, Eg, Hz.
    destruct sg, s; eexists; split; reflexivity.
  - left; apply Prim2SF_inj; rewrite add_spec, Eg, Hz; reflexivity.
  - left; apply Prim2SF_inj; rewrite add_spec, Eg, Hz; reflexivity.
  - left; apply Prim2SF_inj; rewrite add_spec, Eg, Hz; reflexivity.
Qed.

Lemma eqb_zeros (x y : float) (s s' : bool) :
  Prim2SF x = S754_zero s -> Prim2SF y = S754_zero s' -> (x =? y) = true.
Proof. intros Hx Hy; rewrite eqb_spec, Hx, Hy; reflexivity. Qed.

(** With a zero risk reversal, two offsets on which the square agrees give
    values that compare equal. *)
Lemma mirror_equal (o1 o2 q f atm : float) :
  Binary64.is_finite o1 = true -> Binary64.is_finite o2 = true ->
  Binary64.is_finite (atm + Binary64.of_Z 2 * Binary64.of_Z 0 * o1 + f * q) = true ->
  (atm + Binary64.of_Z 2 * Binary64.of_Z 0 * o1 + f * q
   =? atm + Binary64.of_Z 2 * Binary64.of_Z 0 * o2 + f * q) = true.
Proof.
  intros Fo1 Fo2 Fup.
  assert (Hz : Prim2SF (Binary64.of_Z 2 * Binary64.of_Z 0) = S754_zero false)
    by (vm_compute; reflexivity).
  destruct (zero_mul_l _ o1 _ Hz Fo1) as [s1 H1].
  destruct (zero_mul_l _ o2 _ Hz Fo2) as [s2 H2].
  set (t1 := Binary64.of_Z 2 * Binary64.of_Z 0 * o1) in *.
  set (t2 := Binary64.of_Z 2 * Binary64.of_Z 0 * o2) in *.
  set (g := f * q) in *.
  destruct (add_zero_r_cases atm t1 s1 H1) as [E1|(sa & s1' & Ha & E1)].
  - destruct (add_zero_r_cases atm t2 s2 H2) as [E2|(sa & s2' & Ha & E2)].
    + rewrite E1, E2; apply eqb_refl_number, finite_not_nan.
      rewrite <- E1; exact Fup.
    + (* atm is a zero *)
      rewrite E1 in *.
      destruct (add_zero_l_cases atm g sa Ha) as [G1|(sg & s' & Hg & G1)].
      * destruct (add_zero_l_cases (atm + t2) g s2' E2) as [G2|(sg & s'' & Hg & G2)].
        -- rewrite G1, G2; apply eqb_refl_number, finite_not_nan.
           rewrite <- G1; exact Fup.
        -- rewrite G1; exact (eqb_zeros _ _ _ _ Hg G2).
      * destruct (add_zero_l_cases (atm + t2) g s2' E2) as [G2|(sg' & s'' & Hg' & G2)].
        -- rewrite G2; exact (eqb_zeros _ _ _ _ G1 Hg).
        -- exact (eqb_zeros _ _ _ _ G1 G2).
  - (* atm is a zero *)
    assert (E2 : exists s2', Prim2SF (atm + t2) = S754_zero s2').
    { rewrite add_spec, Ha, H2; destruct sa, s2; eexists; reflexivity. }
    destruct E2 as [s2' E2].
    destruct (add_zero_l_cases (atm + t1) g s1' E1) as [G1|(sg & s' & Hg & G1)].
    + destruct (add_zero_l_cases (atm + t2) g s2' E2) as [G2|(sg & s'' & Hg & G2)].
      * rewrite G1, G2; apply eqb_refl_number, finite_not_nan.
        rewrite <- G1; exact Fup.
      * rewrite G1; exact (eqb_zeros _ _ _ _ Hg G2).
    + destruct (add_zero_l_cases (atm + t2) g s2' E2) as [G2|(sg' & s'' & Hg' & G2)].
      * rewrite G2; exact (eqb_zeros _ _ _ _ G1 Hg).
      * exact (eqb_zeros _ _ _ _ G1 G2).
Qed.
End SymmetryRounded.

Section SymmetryClaims.
Local Open Scope R_scope.

(** A float strictly between 0 and 1 that is the rounded value of the real
    [s] is within [2^-53 * s] of it, and [s] is not negative. *)
Lemma rounded_in_unit (X s : R) :
  0 < X < 1 -> Rabs (X - s) <= bpow (-53) * Rabs s ->
  0 <= s /\ Rabs (X - s) <= bpow (-53) * s.
Proof.
  intros HX H.
  assert (Hu : 0 < bpow (-53) < 1) by (split; num).
  unfold Rabs in H at 2; destruct (Rcase_abs s) as [Hs|Hs].
  - exfalso; apply Rabs_le_inv in H.
    assert (bpow (-53) * - s <= - s) by nra. lra.
  - split; [lra|exact H].
Qed.

(** The two values of a curve without skew at deltas mirrored about 0.5. *)
Lemma symmetric_error (sq : float -> float) (d fly atm : float) :
  sq_accurate sq ->
  Binary64.is_finite fly = true -> Binary64.is_finite atm = true ->
  Rabs (to_R fly) <= bpow 100 -> Rabs (to_R atm) <= bpow 100 ->
  0 < to_R (lit 50 2 + d)%float < 1 ->
  0 < to_R (lit 50 2 - d)%float < 1 ->
  Binary64.is_finite d = true /\
  Binary64.is_finite (put_delta_iv_with sq (lit 50 2 + d)%float (of_int 0) fly atm) = true /\
  Binary64.is_finite (put_delta_iv_with sq (lit 50 2 - d)%float (of_int 0) fly atm) = true /\
  Rabs (to_R (put_delta_iv_with sq (lit 50 2 + d)%float (of_int 0) fly atm)
        - to_R (put_delta_iv_with sq (lit 50 2 - d)%float (of_int 0) fly atm))
  <= bpow (-46) * (Rabs (to_R atm) + Rabs (to_R fly)) + bpow (-959).
Proof.
  intros Hsq Ffly Fatm HF HA H1 H2.
  set (d1 := (lit 50 2 + d)%float) in *. set (d2 := (lit 50 2 - d)%float) in *.
  assert (Fd1 : Binary64.is_finite d1 = true) by (apply to_R_finite_nonzero; lra).
  assert (Fd2 : Binary64.is_finite d2 = true) by (apply to_R_finite_nonzero; lra).
  destruct (add_finite_inv _ _ Fd1) as [Fh Fd].
  assert (F0 : Binary64.is_finite (of_int 0) = true) by (vm_compute; reflexivity).
  assert (R0 : to_R (of_int 0) = 0) by (apply (to_R_zero _ false); vm_compute; reflexivity).
  assert (HB0 : Rabs (to_R (of_int 0)) <= bpow 100).
  { rewrite R0, Rabs_R0; left; apply bpow_gt_0. }
  destruct (evaluator_error sq d1 (of_int 0) fly atm Hsq Fd1 F0 Ffly Fatm
                            ltac:(lra) HB0 HF HA) as [Fup Eup].
  destruct (evaluator_error sq d2 (of_int 0) fly atm Hsq Fd2 F0 Ffly Fatm
                            ltac:(lra) HB0 HF HA) as [Fdn Edn].
  split; [exact Fd|]; split; [exact Fup|]; split; [exact Fdn|].
  rewrite iv_spec_eq, R0 in Eup, Edn.
  set (U := to_R (put_delta_iv_with sq d1 (of_int 0) fly atm)) in *.
  set (V := to_R (put_delta_iv_with sq d2 (of_int 0) fly atm)) in *.
  set (X1 := to_R d1) in *. set (X2 := to_R d2) in *.
  set (F := to_R fly) in *. set (A := to_R atm) in *.
  (* the two deltas against 0.5 + d and 0.5 - d *)
  destruct (add_R _ _ Fh Fd) as [[_ Ha]|[Hnf _]]; [|fold d1 in Hnf; congruence].
  destruct (sub_R _ _ Fh Fd) as [[_ Hs]|[Hnf _]]; [|fold d2 in Hnf; congruence].
  fold d1 in Ha; fold d2 in Hs; fold X1 in Ha; fold X2 in Hs.
  rewrite to_R_half in Ha, Hs.
  destruct (rounded_in_unit _ _ H1 Ha) as [Hs1 Ha'].
  destruct (rounded_in_unit _ _ H2 Hs) as [Hs2 Hs'].
  apply Rabs_le_inv in Ha', Hs'.
  assert (Hu : 0 < bpow (-53)) by apply bpow_gt_0.
  assert (Hsum : Rabs (X1 + X2 - 1) <= bpow (-53)) by (apply Rabs_le; lra).
  assert (Hdif : Rabs (X1 - X2) <= 1) by (apply Rabs_le; lra).
  (* the sizes of the terms *)
  assert (HO1 : Rabs (X1 - / 2) <= / 2) by (apply Rabs_le; lra).
  assert (HO2 : Rabs (X2 - / 2) <= / 2) by (apply Rabs_le; lra).
  assert (H16 : Rabs (16 * F) <= 16 * Rabs F).
  { rewrite Rabs_mult, (Rabs_pos_eq 16) by lra; lra. }
  assert (HT1 : Rabs (16 * F * ((X1 - / 2) * (X1 - / 2))) <= 4 * Rabs F).
  { replace (4 * Rabs F) with (16 * Rabs F * (/ 2 * / 2)) by lra.
    apply Rabs_mul_le; [exact H16|apply Rabs_mul_le; assumption]. }
  assert (HT2 : Rabs (16 * F * ((X2 - / 2) * (X2 - / 2))) <= 4 * Rabs F).
  { replace (4 * Rabs F) with (16 * Rabs F * (/ 2 * / 2)) by lra.
    apply Rabs_mul_le; [exact H16|apply Rabs_mul_le; assumption]. }
  replace (2 * 0 * (X1 - / 2)) with 0 in Eup by ring.
  replace (2 * 0 * (X2 - / 2)) with 0 in Edn by ring.
  rewrite Rabs_R0 in Eup, Edn.
  (* the exact values at the two deltas *)
  set (P1 := A + 0 + 16 * F * ((X1 - / 2) * (X1 - / 2))) in *.
  set (P2 := A + 0 + 16 * F * ((X2 - / 2) * (X2 - / 2))) in *.
  assert (HP : Rabs (P1 - P2) <= 16 * Rabs F * bpow (-53)).
  { replace (P1 - P2) with (16 * F * ((X1 - X2) * (X1 + X2 - 1)))
      by (unfold P1, P2; field).
    apply Rabs_mul_le; [exact H16|].
    replace (bpow (-53)) with (1 * bpow (-53)) by ring.
    apply Rabs_mul_le; assumption. }
  pose proof (Rabs_pos A) as PA. pose proof (Rabs_pos F) as PF.
  assert (E1 : Rabs (U - P1) <= bpow (-50) * (Rabs A + 4 * Rabs F) + bpow (-960)).
  { assert (bpow (-50) * (Rabs A + 0 + Rabs (16 * F * ((X1 - / 2) * (X1 - / 2))))
            <= bpow (-50) * (Rabs A + 4 * Rabs F)).
    { apply Rmult_le_compat_l; [left; apply bpow_gt_0|lra]. }
    lra. }
  assert (E2 : Rabs (V - P2) <= bpow (-50) * (Rabs A + 4 * Rabs F) + bpow (-960)).
  { assert (bpow (-50) * (Rabs A + 0 + Rabs (16 * F * ((X2 - / 2) * (X2 - / 2))))
            <= bpow (-50) * (Rabs A + 4 * Rabs F)).
    { apply Rmult_le_compat_l; [left; apply bpow_gt_0|lra]. }
    lra. }
  replace (U - V) with ((U - P1) + (P1 - P2) + - (V - P2)) by ring.
  pose proof (Rabs_triang ((U - P1) + (P1 - P2)) (- (V - P2))) as T1.
  pose proof (Rabs_triang (U - P1) (P1 - P2)) as T2.
  rewrite Rabs_Ropp in T1.
  bpow_numerals; lra.
Qed.
End SymmetryClaims.

Section SymmetryTheorem.
Local Open Scope float_scope.

Lemma opp_finite (x : float) : Binary64.is_finite (- x) = Binary64.is_finite x.
Proof.
  unfold Binary64.is_finite; rewrite opp_spec; destruct (Prim2SF x); reflexivity.
Qed.

(** C9 as stated fails: at d = 0.3, with fly = 0.03 and atm = 0.2, the deltas
    0.5 + d and 0.5 - d lie in (0,1) and the two values of the evaluator are
    different floats. *)
Lemma symmetry_counterexample :
  (0 <? lit 50 2 + lit 30 2) = true /\ (lit 50 2 + lit 30 2 <? 1) = true /\
  (0 <? lit 50 2 - lit 30 2) = true /\ (lit 50 2 - lit 30 2 <? 1) = true /\
  (put_delta_iv (lit 50 2 + lit 30 2) (of_int 0) (lit 3 2) (lit 20 2)
   =? put_delta_iv (lit 50 2 - lit 30 2) (of_int 0) (lit 3 2) (lit 20 2)) = false.
Proof. vm_compute; repeat split; reflexivity. Qed.

(** C9, amended.  With a zero risk reversal, for every binary64 offset d
    with 0.5 + d and 0.5 - d strictly between 0 and 1, and all finite fly
    and atm of magnitude at most [2^100], the values of the evaluator at
    0.5 + d and at 0.5 - d agree up to rounding: they differ by at most
    [2^-46 * (|atm| + |fly|) + 2^-959]; and they are equal floats whenever
    the two offsets from 0.5 are computed without error, that is
    [(0.5 + d) - 0.5 == d] and [(0.5 - d) - 0.5 == -d].  The square may be
    any even function within one unit in the last place. *)
Theorem put_delta_iv_symmetric_rounded (sq : float -> float) (d fly atm : float) :
  sq_accurate sq -> sq_even sq ->
  Binary64.is_finite fly = true -> Binary64.is_finite atm = true ->
  (Rabs (to_R fly) <= bpow 100)%R -> (Rabs (to_R atm) <= bpow 100)%R ->
  (0 < to_R (lit 50 2 + d) < 1)%R ->
  (0 < to_R (lit 50 2 - d) < 1)%R ->
  (Rabs (to_R (put_delta_iv_with sq (lit 50 2 + d) (of_int 0) fly atm)
         - to_R (put_delta_iv_with sq (lit 50 2 - d) (of_int 0) fly atm))
   <= bpow (-46) * (Rabs (to_R atm) + Rabs (to_R fly)) + bpow (-959))%R /\
  ((lit 50 2 + d - lit 50 2 =? d) = true ->
   (lit 50 2 - d - lit 50 2 =? - d) = true ->
   (put_delta_iv_with sq (lit 50 2 + d) (of_int 0) fly atm
    =? put_delta_iv_with sq (lit 50 2 - d) (of_int 0) fly atm) = true).
Proof.
  intros Hsq Hev Ffly Fatm HF HA H1 H2.
  destruct (symmetric_error sq d fly atm Hsq Ffly Fatm HF HA H1 H2)
    as (Fd & Fup & _ & Herr).
  split; [exact Herr|].
  intros Ho1 Ho2.
  unfold put_delta_iv_with in *; cbn [add sub mul div of_int float_arith] in *.
  set (o1 := lit 50 2 + d - lit 50 2) in *.
  set (o2 := lit 50 2 - d - lit 50 2) in *.
  assert (Fo1 : Binary64.is_finite o1 = true) by exact (eqb_finite _ _ Ho1 Fd).
  assert (Fo2 : Binary64.is_finite o2 = true).
  { apply (eqb_finite _ _ Ho2); rewrite opp_finite; exact Fd. }
  assert (Hq : sq o2 = sq o1).
  { rewrite (sq_even_eqb sq _ _ Hev Ho1), (sq_even_eqb sq _ _ Hev Ho2).
    apply Hev. }
  rewrite Hq; apply mirror_equal; assumption.
Qed.

Lemma put_delta_iv_symmetric_rounded_witness :
  (Rabs (to_R (put_delta_iv (lit 50 2 + lit 25 2)%float (of_int 0) (lit 3 2) (lit 20 2))
         - to_R (put_delta_iv (lit 50 2 - lit 25 2)%float (of_int 0) (lit 3 2) (lit 20 2)))
   <= bpow (-46) * (Rabs (to_R (lit 20 2)) + Rabs (to_R (lit 3 2))) + bpow (-959))%R /\
  (put_delta_iv (lit 50 2 + lit 25 2) (of_int 0) (lit 3 2) (lit 20 2)
   =? put_delta_iv (lit 50 2 - lit 25 2) (of_int 0) (lit 3 2) (lit 20 2)) = true.
Proof.
  destruct (put_delta_iv_symmetric_rounded
              (fun x => power x 2) (lit 25 2) (lit 3 2) (lit 20 2)
              product_accurate product_even) as [Hb He].
  - vm_compute; reflexivity.
  - vm_compute; reflexivity.
  - to_R_value (lit (F := float) 3 2); cbn [cond_Ropp]; apply Rabs_le; num.
  - to_R_value (lit (F := float) 20 2); cbn [cond_Ropp]; apply Rabs_le; num.
  - to_R_value (lit 50 2 + lit 25 2); cbn [cond_Ropp]; num.
  - to_R_value (lit 50 2 - lit 25 2); cbn [cond_Ropp]; num.
  - split; [exact Hb|].
    apply He; vm_compute; reflexivity.
Defined.
End SymmetryTheorem.

(* ================================================================== *)
(** * The parameters on binary64 against their formulas *)

Section ParametersRounded.
Local Open Scope R_scope.

Lemma rr_error (c p : float) :
  Binary64.is_finite (rr25D_iv c p) = true ->
  Rabs (to_R (rr25D_iv c p) - (to_R c - to_R p)) <= bpow (-53) * Rabs (to_R c - to_R p).
Proof.
  unfold rr25D_iv; cbn [sub float_arith]; intros Hf.
  destruct (sub_finite_inv _ _ Hf) as [Fc Fp].
  destruct (sub_R c p Fc Fp) as [[_ Hr]|[Hnf _]]; [exact Hr|congruence].
Qed.

Lemma fly_error (c p a : float) :
  Binary64.is_finite (fly25D_iv c p a) = true ->
  Rabs (to_R (fly25D_iv c p a) - ((to_R c + to_R p) / 2 - to_R a))
  <= bpow (-51) * (Rabs ((to_R c + to_R p) / 2) + Rabs (to_R a)) + bpow (-1074).
Proof.
  unfold fly25D_iv; cbn [add sub div of_int float_arith]; intros Hf.
  assert (F2 : Binary64.is_finite (Binary64.of_Z 2) = true) by (vm_compute; reflexivity).
  assert (N2 : to_R (Binary64.of_Z 2) <> 0) by (rewrite to_R_two; lra).
  destruct (sub_finite_inv _ _ Hf) as [Fh Fa].
  pose proof (div_finite_inv _ _ F2 N2 Fh) as Fs.
  destruct (add_finite_inv _ _ Fs) as [Fc Fp].
  set (C := to_R c) in *. set (P := to_R p) in *. set (A := to_R a) in *.
  destruct (add_R c p Fc Fp) as [[_ Hs]|[Hnf _]]; [|congruence].
  fold C P in Hs.
  destruct (div_R _ (Binary64.of_Z 2) Fs F2 N2) as [[_ Hh]|[Hnf _]]; [|congruence].
  rewrite to_R_two in Hh.
  destruct (sub_R _ a Fh Fa) as [[_ Hr]|[Hnf _]]; [|congruence].
  fold A in Hr.
  set (s := to_R (c + p)) in *. set (h := to_R ((c + p) / Binary64.of_Z 2)) in *.
  assert (Ns : near s (C + P) (Rabs (C + P)) (bpow (-53)) 0) by (unfold near; lra).
  assert (Nh0 : near (s / 2) ((C + P) / 2) (Rabs ((C + P) / 2)) (bpow (-53)) 0).
  { unfold near in *.
    replace (s / 2 - (C + P) / 2) with ((s - (C + P)) * / 2) by field.
    unfold Rdiv; rewrite !Rabs_mult, (Rabs_pos_eq (/ 2)) by lra. lra. }
  pose proof (near_round _ _ _ _ _ _ _ _ Nh0 ltac:(lra) Hh
                         ltac:(left; apply bpow_gt_0)) as Nh.
  assert (NA : near (- A) (- A) (Rabs A)
                    (bpow (-53) + bpow (-53) + bpow (-53) * bpow (-53)) 0).
  { unfold near; rewrite Rminus_diag, Rabs_R0.
    pose proof (Rabs_pos A). pose proof (bpow_gt_0 (-53)). nra. }
  pose proof (near_add _ _ _ _ _ _ _ _ _ Nh NA) as Nd.
  assert (Hr' : Rabs (to_R ((c + p) / Binary64.of_Z 2 - a) - (h + - A))
                <= bpow (-53) * Rabs (h + - A) + 0).
  { replace (h + - A) with (h - A) by ring; lra. }
  assert (Hx : Rabs ((C + P) / 2 + - A) <= Rabs ((C + P) / 2) + Rabs A).
  { pose proof (Rabs_triang ((C + P) / 2) (- A)) as Ht.
    rewrite Rabs_Ropp in Ht; exact Ht. }
  pose proof (near_round _ _ _ _ _ _ _ _ Nd Hx Hr'
                         ltac:(left; apply bpow_gt_0)) as Nr.
  replace ((C + P) / 2 - A) with ((C + P) / 2 + - A) by ring.
  apply near_weaken with (1 := Nr); [|num|num].
  pose proof (Rabs_pos ((C + P) / 2)); pose proof (Rabs_pos A); lra.
Qed.

(** Markers that are finite and not extreme give finite parameters. *)
Lemma parameters_finite (c p a : float) :
  Binary64.is_finite c = true -> Binary64.is_finite p = true ->
  Binary64.is_finite a = true ->
  Rabs (to_R c) <= bpow 969 -> Rabs (to_R p) <= bpow 969 ->
  Rabs (to_R a) <= bpow 969 ->
  Binary64.is_finite (rr25D_iv c p) = true /\
  Binary64.is_finite (fly25D_iv c p a) = true.
Proof.
  intros Fc Fp Fa HC HP HA.
  unfold rr25D_iv, fly25D_iv; cbn [add sub div of_int float_arith].
  assert (F2 : Binary64.is_finite (Binary64.of_Z 2) = true) by (vm_compute; reflexivity).
  assert (N2 : to_R (Binary64.of_Z 2) <> 0) by (rewrite to_R_two; lra).
  set (C := to_R c) in *. set (P := to_R p) in *. set (A := to_R a) in *.
  pose proof (Rabs_triang C P) as T1.
  pose proof (Rabs_triang C (- P)) as T2; rewrite Rabs_Ropp in T2.
  assert (Hbig : 2 * bpow 969 < bpow 971).
  { replace 971%Z with (969 + 1 + 1)%Z by lia; rewrite !bpow_succ.
    pose proof (bpow_gt_0 969); lra. }
  assert (Hu : 0 < bpow (-53) <= / 2).
  { split; [apply bpow_gt_0|].
    rewrite <- bpow_m1; apply bpow_le; lia. }
  pose proof (bpow_gt_0 969) as Hb.
  split.
  - destruct (sub_R c p Fc Fp) as [[Hf _]|[_ Hov]]; [exact Hf|].
    exfalso; fold C P in Hov.
    replace (C - P) with (C + - P) in Hov by ring. lra.
  - destruct (add_R c p Fc Fp) as [[Fs Hs]|[_ Hov]];
      [|exfalso; fold C P in Hov; lra].
    fold C P in Hs.
    assert (Hs' : Rabs (to_R (c + p)) <= Rabs (C + P) + (bpow (-53) * Rabs (C + P) + 0)).
    { apply near_abs; unfold near; lra. }
    destruct (div_R _ (Binary64.of_Z 2) Fs F2 N2) as [[Fh Hh]|[_ Hov]].
    2:{ exfalso; rewrite to_R_two in Hov.
        unfold Rdiv in Hov; rewrite Rabs_mult, (Rabs_pos_eq (/ 2)) in Hov by lra.
        assert (bpow (-53) * Rabs (C + P) <= / 2 * Rabs (C + P))
          by (apply Rmult_le_compat_r; [apply Rabs_pos|lra]).
        lra. }
    rewrite to_R_two in Hh.
    set (s := to_R (c + p)) in *. set (h := to_R ((c + p) / Binary64.of_Z 2)) in *.
    destruct (sub_R _ a Fh Fa) as [[Hf _]|[_ Hov]]; [exact Hf|].
    exfalso; fold h A in Hov.
    pose proof (near_abs _ _ _ _ _ Hh) as Hh'.
    unfold Rdiv in Hh'; rewrite Rabs_mult, (Rabs_pos_eq (/ 2)) in Hh' by lra.
    pose proof (Rabs_triang h (- A)) as T3; rewrite Rabs_Ropp in T3.
    replace (h - A) with (h + - A) in Hov by ring.
    assert (E1 : bpow (-53) * Rabs (C + P) <= / 2 * Rabs (C + P))
      by (apply Rmult_le_compat_r; [apply Rabs_pos|lra]).
    assert (E2 : bpow (-53) * (Rabs s * / 2) <= / 2 * (Rabs s * / 2)).
    { apply Rmult_le_compat_r; [|lra].
      apply Rmult_le_pos; [apply Rabs_pos|lra]. }
    assert (bpow (-1075) <= / 2 * bpow 969).
    { rewrite <- bpow_pred; apply bpow_le; lia. }
    replace 971%Z with (969 + 1 + 1)%Z in Hov by lia; rewrite !bpow_succ in Hov.
    lra.
Qed.
End ParametersRounded.

Section ParametersClaims.
Local Open Scope R_scope.

(** C6 as stated fails: for the markers atm = 0.20, call25 = 0.22 and
    put25 = 0.24 the butterfly returned is not the value of
    [(call25_iv + put25_iv)/2 - atm_iv]: the sum 0.22 + 0.24 rounds. *)
Lemma smile_parameters_exact_counterexample :
  to_R (fly25D_iv (lit 22 2) (lit 24 2) (lit 20 2))
  <> butterfly_spec (to_R (lit 22 2)) (to_R (lit 24 2)) (to_R (lit 20 2)).
Proof.
  unfold butterfly_spec.
  to_R_value (fly25D_iv (lit 22 2) (lit 24 2) (lit 20 2) : float).
  to_R_value (lit (F := float) 22 2).
  to_R_value (lit (F := float) 24 2).
  to_R_value (lit (F := float) 20 2).
  cbn [cond_Ropp]; bpow_numerals; lra.
Qed.

(** C6, amended.  For every triple of binary64 markers the calculator
    returns the two formulas up to rounding.  A risk reversal that is finite
    differs from [call25_iv - put25_iv] by at most [2^-53] of it; a butterfly
    that is finite differs from [(call25_iv + put25_iv)/2 - atm_iv] by at
    most [2^-51 * (|call25_iv + put25_iv|/2 + |atm_iv|) + 2^-1074]; both are
    finite when the markers are finite and of magnitude at most [2^969]; a
    wing marker that is not-a-number makes both parameters not-a-number, and
    an at-the-money marker that is not-a-number does so to the butterfly. *)
Theorem smile_parameters_rounded (atm_iv call25_iv put25_iv : float) :
  (Binary64.is_finite (rr25D_iv call25_iv put25_iv) = true ->
   Rabs (to_R (rr25D_iv call25_iv put25_iv)
         - risk_reversal_spec (to_R call25_iv) (to_R put25_iv))
   <= bpow (-53) * Rabs (risk_reversal_spec (to_R call25_iv) (to_R put25_iv))) /\
  (Binary64.is_finite (fly25D_iv call25_iv put25_iv atm_iv) = true ->
   Rabs (to_R (fly25D_iv call25_iv put25_iv atm_iv)
         - butterfly_spec (to_R call25_iv) (to_R put25_iv) (to_R atm_iv))
   <= bpow (-51) * (Rabs ((to_R call25_iv + to_R put25_iv) / 2) + Rabs (to_R atm_iv))
      + bpow (-1074)) /\
  (Binary64.is_finite call25_iv = true ->
   Binary64.is_finite put25_iv = true ->
   Binary64.is_finite atm_iv = true ->
   Rabs (to_R call25_iv) <= bpow 969 ->
   Rabs (to_R put25_iv) <= bpow 969 ->
   Rabs (to_R atm_iv) <= bpow 969 ->
   Binary64.is_finite (rr25D_iv call25_iv put25_iv) = true /\
   Binary64.is_finite (fly25D_iv call25_iv put25_iv atm_iv) = true) /\
  (isnan call25_iv = true \/ isnan put25_iv = true ->
   isnan (rr25D_iv call25_iv put25_iv) = true /\
   isnan (fly25D_iv call25_iv put25_iv atm_iv) = true) /\
  (isnan atm_iv = true -> isnan (fly25D_iv call25_iv put25_iv atm_iv) = true).
Proof.
  split; [apply rr_error|].
  split; [apply fly_error|].
  split; [apply parameters_finite|].
  unfold rr25D_iv, fly25D_iv; cbn [add sub div of_int float_arith].
  split.
  - intros H; split.
    + apply sub_nan; exact H.
    + apply sub_nan; left; apply div_nan; left; apply add_nan; exact H.
  - intros H; apply sub_nan; right; exact H.
Qed.

Lemma smile_parameters_rounded_witness :
  Rabs (to_R (rr25D_iv (lit 22 2) (lit 24 2))
        - risk_reversal_spec (to_R (lit 22 2)) (to_R (lit 24 2)))
  <= bpow (-53) * Rabs (risk_reversal_spec (to_R (lit 22 2)) (to_R (lit 24 2))) /\
  Rabs (to_R (fly25D_iv (lit 22 2) (lit 24 2) (lit 20 2))
        - butterfly_spec (to_R (lit 22 2)) (to_R (lit 24 2)) (to_R (lit 20 2)))
  <= bpow (-51) * (Rabs ((to_R (lit 22 2) + to_R (lit 24 2)) / 2) + Rabs (to_R (lit 20 2)))
     + bpow (-1074).
Proof.
  destruct (smile_parameters_rounded (lit 20 2) (lit 22 2) (lit 24 2))
    as (Hrr & Hfly & _).
  split; [apply Hrr|apply Hfly]; vm_compute; reflexivity.
Defined.
End ParametersClaims.

(* ================================================================== *)
(** * From the markers to the curve and back *)

Section Calibration.
Local Open Scope R_scope.

Lemma to_R_quarter : to_R (lit 25 2) = / 4.
Proof.
  to_R_value (lit (F := float) 25 2); cbn [cond_Ropp]; num.
Qed.

Lemma to_R_three_quarters : to_R (lit 75 2) = 3 / 4.
Proof.
  to_R_value (lit (F := float) 75 2); cbn [cond_Ropp]; num.
Qed.

(** The parameters of moderate markers, with their sizes. *)
Lemma parameters_near (c p a : float) :
  Binary64.is_finite c = true -> Binary64.is_finite p = true ->
  Binary64.is_finite a = true ->
  Rabs (to_R c) <= bpow 98 -> Rabs (to_R p) <= bpow 98 -> Rabs (to_R a) <= bpow 98 ->
  Binary64.is_finite (rr25D_iv c p) = true /\
  Binary64.is_finite (fly25D_iv c p a) = true /\
  Rabs (to_R (rr25D_iv c p) - (to_R c - to_R p))
  <= bpow (-53) * (Rabs (to_R c) + Rabs (to_R p)) /\
  Rabs (to_R (fly25D_iv c p a) - ((to_R c + to_R p) / 2 - to_R a))
  <= bpow (-51) * (Rabs (to_R c) / 2 + Rabs (to_R p) / 2 + Rabs (to_R a)) + bpow (-1074).
Proof.
  intros Fc Fp Fa HC HP HA.
  assert (Hle : bpow 98 <= bpow 969) by (apply bpow_le; lia).
  destruct (parameters_finite c p a Fc Fp Fa ltac:(lra) ltac:(lra) ltac:(lra))
    as [Frr Ffly].
  pose proof (rr_error c p Frr) as Err.
  pose proof (fly_error c p a Ffly) as Efly.
  set (C := to_R c) in *. set (P := to_R p) in *. set (A := to_R a) in *.
  pose proof (Rabs_triang C (- P)) as T1; rewrite Rabs_Ropp in T1.
  replace (C + - P) with (C - P) in T1 by ring.
  assert (T2 : Rabs ((C + P) / 2) <= Rabs C / 2 + Rabs P / 2).
  { unfold Rdiv; rewrite Rabs_mult, (Rabs_pos_eq (/ 2)) by lra.
    pose proof (Rabs_triang C P); lra. }
  pose proof (bpow_gt_0 (-53)) as Hu. pose proof (bpow_gt_0 (-51)) as Hu'.
  split; [exact Frr|]; split; [exact Ffly|]; split.
  - assert (bpow (-53) * Rabs (C - P) <= bpow (-53) * (Rabs C + Rabs P))
      by (apply Rmult_le_compat_l; lra).
    lra.
  - assert (bpow (-51) * (Rabs ((C + P) / 2) + Rabs A)
            <= bpow (-51) * (Rabs C / 2 + Rabs P / 2 + Rabs A))
      by (apply Rmult_le_compat_l; lra).
    lra.
Qed.

(** The curve built from three markers passes through the two wing markers,
    up to rounding. *)
Lemma calibration_error (sq : float -> float) (a c p : float) :
  sq_accurate sq ->
  Binary64.is_finite a = true -> Binary64.is_finite c = true ->
  Binary64.is_finite p = true ->
  Rabs (to_R a) <= bpow 98 -> Rabs (to_R c) <= bpow 98 -> Rabs (to_R p) <= bpow 98 ->
  Rabs (to_R (put_delta_iv_with sq (lit 25 2) (rr25D_iv c p) (fly25D_iv c p a) a)
        - to_R p)
  <= bpow (-48) * (Rabs (to_R a) + Rabs (to_R c) + Rabs (to_R p)) + bpow (-959) /\
  Rabs (to_R (put_delta_iv_with sq (lit 75 2) (rr25D_iv c p) (fly25D_iv c p a) a)
        - to_R c)
  <= bpow (-48) * (Rabs (to_R a) + Rabs (to_R c) + Rabs (to_R p)) + bpow (-959).
Proof.
  intros Hsq Fa Fc Fp HA HC HP.
  destruct (parameters_near c p a Fc Fp Fa HC HP HA) as (Frr & Ffly & Err & Efly).
  set (rr := rr25D_iv c p) in *. set (fly := fly25D_iv c p a) in *.
  set (C := to_R c) in *. set (P := to_R p) in *. set (A := to_R a) in *.
  set (Q := to_R rr) in *. set (F := to_R fly) in *.
  pose proof (Rabs_pos A) as PA. pose proof (Rabs_pos C) as PC.
  pose proof (Rabs_pos P) as PP.
  apply Rabs_le_inv in Err, Efly.
  (* the sizes of the parameters *)
  assert (HQ : Rabs Q <= 2 * (Rabs C + Rabs P)).
  { assert (Hu : 0 < bpow (-53) <= 1) by (split; num).
    assert (bpow (-53) * (Rabs C + Rabs P) <= Rabs C + Rabs P) by nra.
    pose proof (Rabs_triang C (- P)) as T; rewrite Rabs_Ropp in T.
    replace (C + - P) with (C - P) in T by ring.
    apply Rabs_le_inv in T.
    apply Rabs_le; lra. }
  assert (HF : Rabs F <= 3 / 2 * (Rabs C / 2 + Rabs P / 2 + Rabs A) + bpow (-1074)).
  { assert (Hu : 0 < bpow (-51) <= / 2) by (split; num).
    assert (bpow (-51) * (Rabs C / 2 + Rabs P / 2 + Rabs A)
            <= / 2 * (Rabs C / 2 + Rabs P / 2 + Rabs A)) by nra.
    pose proof (Rabs_triang ((C + P) / 2) (- A)) as T; rewrite Rabs_Ropp in T.
    replace ((C + P) / 2 + - A) with ((C + P) / 2 - A) in T by ring.
    assert (T2 : Rabs ((C + P) / 2) <= Rabs C / 2 + Rabs P / 2).
    { unfold Rdiv; rewrite Rabs_mult, (Rabs_pos_eq (/ 2)) by lra.
      pose proof (Rabs_triang C P); lra. }
    apply Rabs_le_inv in T.
    apply Rabs_le; lra. }
  assert (HQ100 : Rabs Q <= bpow 100).
  { replace 100%Z with (98 + 1 + 1)%Z by lia; rewrite !bpow_succ; lra. }
  assert (HF100 : Rabs F <= bpow 100).
  { assert (bpow (-1074) <= bpow 98) by (apply bpow_le; lia).
    replace 100%Z with (98 + 1 + 1)%Z by lia; rewrite !bpow_succ; lra. }
  assert (HA100 : Rabs A <= bpow 100).
  { assert (bpow 98 <= bpow 100) by (apply bpow_le; lia); lra. }
  assert (F25 : Binary64.is_finite (lit 25 2) = true) by (vm_compute; reflexivity).
  assert (F75 : Binary64.is_finite (lit 75 2) = true) by (vm_compute; reflexivity).
  destruct (evaluator_error sq (lit 25 2) rr fly a Hsq F25 Frr Ffly Fa
                            ltac:(rewrite to_R_quarter; lra) HQ100 HF100 HA100)
    as [_ E25].
  destruct (evaluator_error sq (lit 75 2) rr fly a Hsq F75 Frr Ffly Fa
                            ltac:(rewrite to_R_three_quarters; lra) HQ100 HF100 HA100)
    as [_ E75].
  rewrite iv_spec_eq in E25, E75.
  rewrite to_R_quarter in E25; rewrite to_R_three_quarters in E75.
  fold Q F A in E25, E75.
  (* the terms at the two deltas *)
  assert (S1 : Rabs (2 * Q * (/ 4 - / 2)) = Rabs Q / 2).
  { replace (2 * Q * (/ 4 - / 2)) with (Q * (- / 2)) by field.
    rewrite Rabs_mult, Rabs_Ropp, (Rabs_pos_eq (/ 2)) by lra; reflexivity. }
  assert (S2 : Rabs (16 * F * ((/ 4 - / 2) * (/ 4 - / 2))) = Rabs F).
  { replace (16 * F * ((/ 4 - / 2) * (/ 4 - / 2))) with F by field; reflexivity. }
  assert (S3 : Rabs (2 * Q * (3 / 4 - / 2)) = Rabs Q / 2).
  { replace (2 * Q * (3 / 4 - / 2)) with (Q * / 2) by field.
    rewrite Rabs_mult, (Rabs_pos_eq (/ 2)) by lra; reflexivity. }
  assert (S4 : Rabs (16 * F * ((3 / 4 - / 2) * (3 / 4 - / 2))) = Rabs F).
  { replace (16 * F * ((3 / 4 - / 2) * (3 / 4 - / 2))) with F by field; reflexivity. }
  rewrite S1, S2 in E25; rewrite S3, S4 in E75.
  replace (A + 2 * Q * (/ 4 - / 2) + 16 * F * ((/ 4 - / 2) * (/ 4 - / 2)))
    with (A - Q / 2 + F) in E25 by field.
  replace (A + 2 * Q * (3 / 4 - / 2) + 16 * F * ((3 / 4 - / 2) * (3 / 4 - / 2)))
    with (A + Q / 2 + F) in E75 by field.
  apply Rabs_le_inv in E25, E75.
  assert (W : bpow (-50) * (Rabs A + Rabs Q / 2 + Rabs F)
              <= bpow (-50) * (3 * Rabs A + 2 * Rabs C + 2 * Rabs P + bpow (-1074))).
  { apply Rmult_le_compat_l; [left; apply bpow_gt_0|lra]. }
  split; apply Rabs_le; bpow_numerals; lra.
Qed.
End Calibration.

Section ReadBack.
Local Open Scope R_scope.

(** The parameters read back from three points of the curve. *)
Lemma readback_error (sq : float -> float) (rr fly atm : float) :
  sq_accurate sq ->
  Binary64.is_finite rr = true -> Binary64.is_finite fly = true ->
  Binary64.is_finite atm = true ->
  Rabs (to_R rr) <= bpow 97 -> Rabs (to_R fly) <= bpow 97 ->
  Rabs (to_R atm) <= bpow 97 ->
  Rabs (to_R (rr25D_iv (put_delta_iv_with sq (lit 75 2) rr fly atm)
                       (put_delta_iv_with sq (lit 25 2) rr fly atm))
        - to_R rr)
  <= bpow (-47) * (Rabs (to_R atm) + Rabs (to_R rr) + Rabs (to_R fly)) + bpow (-958) /\
  Rabs (to_R (fly25D_iv (put_delta_iv_with sq (lit 75 2) rr fly atm)
                        (put_delta_iv_with sq (lit 25 2) rr fly atm)
                        (put_delta_iv_with sq (lit 50 2) rr fly atm))
        - to_R fly)
  <= bpow (-47) * (Rabs (to_R atm) + Rabs (to_R rr) + Rabs (to_R fly)) + bpow (-958).
Proof.
  intros Hsq Frr Ffly Fatm HQ HF HA.
  assert (H100 : bpow 97 <= bpow 100) by (apply bpow_le; lia).
  assert (F25 : Binary64.is_finite (lit 25 2) = true) by (vm_compute; reflexivity).
  assert (F50 : Binary64.is_finite (lit 50 2) = true) by (vm_compute; reflexivity).
  assert (F75 : Binary64.is_finite (lit 75 2) = true) by (vm_compute; reflexivity).
  destruct (evaluator_error sq (lit 25 2) rr fly atm Hsq F25 Frr Ffly Fatm
                            ltac:(rewrite to_R_quarter; lra)
                            ltac:(lra) ltac:(lra) ltac:(lra)) as [G25 E25].
  destruct (evaluator_error sq (lit 50 2) rr fly atm Hsq F50 Frr Ffly Fatm
                            ltac:(rewrite to_R_half; lra)
                            ltac:(lra) ltac:(lra) ltac:(lra)) as [G50 E50].
  destruct (evaluator_error sq (lit 75 2) rr fly atm Hsq F75 Frr Ffly Fatm
                            ltac:(rewrite to_R_three_quarters; lra)
                            ltac:(lra) ltac:(lra) ltac:(lra)) as [G75 E75].
  rewrite iv_spec_eq in E25, E50, E75.
  rewrite to_R_quarter in E25; rewrite to_R_half in E50;
    rewrite to_R_three_quarters in E75.
  set (v25 := put_delta_iv_with sq (lit 25 2) rr fly atm) in *.
  set (v50 := put_delta_iv_with sq (lit 50 2) rr fly atm) in *.
  set (v75 := put_delta_iv_with sq (lit 75 2) rr fly atm) in *.
  set (Q := to_R rr) in *. set (F := to_R fly) in *. set (A := to_R atm) in *.
  set (V25 := to_R v25) in *. set (V50 := to_R v50) in *. set (V75 := to_R v75) in *.
  pose proof (Rabs_pos A) as PA. pose proof (Rabs_pos Q) as PQ.
  pose proof (Rabs_pos F) as PF.
  (* the terms at the three deltas *)
  assert (S1 : Rabs (2 * Q * (/ 4 - / 2)) = Rabs Q / 2).
  { replace (2 * Q * (/ 4 - / 2)) with (Q * (- / 2)) by field.
    rewrite Rabs_mult, Rabs_Ropp, (Rabs_pos_eq (/ 2)) by lra; reflexivity. }
  assert (S2 : Rabs (16 * F * ((/ 4 - / 2) * (/ 4 - / 2))) = Rabs F).
  { replace (16 * F * ((/ 4 - / 2) * (/ 4 - / 2))) with F by field; reflexivity. }
  assert (S3 : Rabs (2 * Q * (3 / 4 - / 2)) = Rabs Q / 2).
  { replace (2 * Q * (3 / 4 - / 2)) with (Q * / 2) by field.
    rewrite Rabs_mult, (Rabs_pos_eq (/ 2)) by lra; reflexivity. }
  assert (S4 : Rabs (16 * F * ((3 / 4 - / 2) * (3 / 4 - / 2))) = Rabs F).
  { replace (16 * F * ((3 / 4 - / 2) * (3 / 4 - / 2))) with F by field; reflexivity. }
  assert (S5 : Rabs (2 * Q * (/ 2 - / 2)) = 0).
  { replace (2 * Q * (/ 2 - / 2)) with 0 by field; apply Rabs_R0. }
  assert (S6 : Rabs (16 * F * ((/ 2 - / 2) * (/ 2 - / 2))) = 0).
  { replace (16 * F * ((/ 2 - / 2) * (/ 2 - / 2))) with 0 by field; apply Rabs_R0. }
  rewrite S1, S2 in E25; rewrite S3, S4 in E75; rewrite S5, S6 in E50.
  replace (A + 2 * Q * (/ 4 - / 2) + 16 * F * ((/ 4 - / 2) * (/ 4 - / 2)))
    with (A - Q / 2 + F) in E25 by field.
  replace (A + 2 * Q * (3 / 4 - / 2) + 16 * F * ((3 / 4 - / 2) * (3 / 4 - / 2)))
    with (A + Q / 2 + F) in E75 by field.
  replace (A + 2 * Q * (/ 2 - / 2) + 16 * F * ((/ 2 - / 2) * (/ 2 - / 2)))
    with A in E50 by field.
  apply Rabs_le_inv in E25, E50, E75.
  pose proof (Rabs_triang A (- (Q / 2))) as TA1; rewrite Rabs_Ropp in TA1.
  pose proof (Rabs_triang (A + - (Q / 2)) F) as TA2.
  pose proof (Rabs_triang A (Q / 2)) as TB1.
  pose proof (Rabs_triang (A + Q / 2) F) as TB2.
  assert (HQ2 : Rabs (Q / 2) = Rabs Q / 2).
  { unfold Rdiv; rewrite Rabs_mult, (Rabs_pos_eq (/ 2)) by lra; reflexivity. }
  rewrite HQ2 in *.
  replace (A + - (Q / 2)) with (A - Q / 2) in TA1, TA2 by ring.
  assert (TA : Rabs (A - Q / 2 + F) <= Rabs A + Rabs Q / 2 + Rabs F) by lra.
  assert (TB : Rabs (A + Q / 2 + F) <= Rabs A + Rabs Q / 2 + Rabs F) by lra.
  apply Rabs_le_inv in TA, TB.
  pose proof (Rabs_le_inv A (Rabs A) (Rle_refl _)) as TA0.
  remember (Rabs A + Rabs Q + Rabs F) as W eqn:EW.
  assert (HW : 0 <= W <= 3 * bpow 97) by lra.
  assert (Hk : 0 < bpow (-50) <= / 2) by (split; num).
  assert (He : bpow (-960) <= bpow 97) by (apply bpow_le; lia).
  assert (M1 : bpow (-50) * (Rabs A + Rabs Q / 2 + Rabs F) <= bpow (-50) * W).
  { apply Rmult_le_compat_l; lra. }
  assert (M2 : bpow (-50) * (Rabs A + 0 + 0) <= bpow (-50) * W).
  { apply Rmult_le_compat_l; lra. }
  assert (M3 : bpow (-50) * W <= / 2 * W) by (apply Rmult_le_compat_r; lra).
  (* the sizes of the three values *)
  assert (B25 : Rabs V25 <= 2 * W + bpow (-960)) by (apply Rabs_le; lra).
  assert (B50 : Rabs V50 <= 2 * W + bpow (-960)) by (apply Rabs_le; lra).
  assert (B75 : Rabs V75 <= 2 * W + bpow (-960)) by (apply Rabs_le; lra).
  assert (H969 : 7 * bpow 97 <= bpow 969).
  { assert (bpow 100 <= bpow 969) by (apply bpow_le; lia).
    replace 100%Z with (97 + 1 + 1 + 1)%Z in H by lia; rewrite !bpow_succ in H.
    pose proof (bpow_gt_0 97); lra. }
  assert (C25 : Rabs V25 <= bpow 969) by lra.
  assert (C50 : Rabs V50 <= bpow 969) by lra.
  assert (C75 : Rabs V75 <= bpow 969) by lra.
  destruct (parameters_finite v75 v25 v50 G75 G25 G50 C75 C25 C50) as [Gr Gf].
  clear C25 C50 C75.
  pose proof (rr_error v75 v25 Gr) as Er.
  pose proof (fly_error v75 v25 v50 Gf) as Ef.
  fold V75 V25 V50 in Er, Ef.
  pose proof (Rabs_triang V75 (- V25)) as TC; rewrite Rabs_Ropp in TC.
  replace (V75 + - V25) with (V75 - V25) in TC by ring.
  assert (TD : Rabs ((V75 + V25) / 2) <= Rabs V75 / 2 + Rabs V25 / 2).
  { unfold Rdiv; rewrite Rabs_mult, (Rabs_pos_eq (/ 2)) by lra.
    pose proof (Rabs_triang V75 V25); lra. }
  assert (N1 : bpow (-53) * Rabs (V75 - V25) <= bpow (-53) * (4 * W + 2 * bpow (-960))).
  { apply Rmult_le_compat_l; [left; apply bpow_gt_0|lra]. }
  assert (N2 : bpow (-51) * (Rabs ((V75 + V25) / 2) + Rabs V50)
               <= bpow (-51) * (4 * W + 2 * bpow (-960))).
  { apply Rmult_le_compat_l; [left; apply bpow_gt_0|lra]. }
  apply Rabs_le_inv in Er, Ef.
  clear TA1 TA2 TB1 TB2 TC TD B25 B50 B75 H969 HQ HF HA H100.
  split; apply Rabs_le; bpow_numerals; lra.
Qed.
End ReadBack.

Section CurveRounded.
Local Open Scope R_scope.

(** X6.  The curve goes through the two wing markers it is built from, up
    to rounding: with the parameters cell 3 computes from finite markers of
    magnitude at most [2^98], the evaluator returns the 25-delta put
    volatility at put delta 0.25 and the 25-delta call volatility at put
    delta 0.75, each within [2^-48 * (|atm| + |call25| + |put25|) + 2^-959]. *)
Theorem calibration_up_to_rounding
  (sq : float -> float) (atm_iv call25_iv put25_iv : float) :
  sq_accurate sq ->
  Binary64.is_finite atm_iv = true ->
  Binary64.is_finite call25_iv = true ->
  Binary64.is_finite put25_iv = true ->
  Rabs (to_R atm_iv) <= bpow 98 ->
  Rabs (to_R call25_iv) <= bpow 98 ->
  Rabs (to_R put25_iv) <= bpow 98 ->
  Rabs (to_R (put_delta_iv_with sq (lit 25 2) (rr25D_iv call25_iv put25_iv)
                                (fly25D_iv call25_iv put25_iv atm_iv) atm_iv)
        - to_R put25_iv)
  <= bpow (-48) * (Rabs (to_R atm_iv) + Rabs (to_R call25_iv) + Rabs (to_R put25_iv))
     + bpow (-959) /\
  Rabs (to_R (put_delta_iv_with sq (lit 75 2) (rr25D_iv call25_iv put25_iv)
                                (fly25D_iv call25_iv put25_iv atm_iv) atm_iv)
        - to_R call25_iv)
  <= bpow (-48) * (Rabs (to_R atm_iv) + Rabs (to_R call25_iv) + Rabs (to_R put25_iv))
     + bpow (-959).
Proof. apply calibration_error. Qed.

Lemma calibration_up_to_rounding_witness :
  Rabs (to_R (put_delta_iv (lit 25 2) (rr25D_iv (lit 22 2) (lit 24 2))
                           (fly25D_iv (lit 22 2) (lit 24 2) (lit 20 2)) (lit 20 2))
        - to_R (lit 24 2))
  <= bpow (-48) * (Rabs (to_R (lit 20 2)) + Rabs (to_R (lit 22 2)) + Rabs (to_R (lit 24 2)))
     + bpow (-959) /\
  Rabs (to_R (put_delta_iv (lit 75 2) (rr25D_iv (lit 22 2) (lit 24 2))
                           (fly25D_iv (lit 22 2) (lit 24 2) (lit 20 2)) (lit 20 2))
        - to_R (lit 22 2))
  <= bpow (-48) * (Rabs (to_R (lit 20 2)) + Rabs (to_R (lit 22 2)) + Rabs (to_R (lit 24 2)))
     + bpow (-959).
Proof.
  apply (calibration_up_to_rounding (fun x => power x 2)
                                    (lit 20 2) (lit 22 2) (lit 24 2)).
  - apply product_accurate.
  - vm_compute; reflexivity.
  - vm_compute; reflexivity.
  - vm_compute; reflexivity.
  - to_R_value (lit (F := float) 20 2); cbn [cond_Ropp]; apply Rabs_le; num.
  - to_R_value (lit (F := float) 22 2); cbn [cond_Ropp]; apply Rabs_le; num.
  - to_R_value (lit (F := float) 24 2); cbn [cond_Ropp]; apply Rabs_le; num.
Defined.

(** X7.  The parameters are read back from the curve, up to rounding: the
    formulas of cell 3 applied to the values of the evaluator at put deltas
    0.75, 0.25 and 0.5 return the risk reversal and the butterfly the curve
    was built with, each within [2^-47 * (|atm| + |rr| + |fly|) + 2^-958],
    for finite parameters of magnitude at most [2^97]. *)
Theorem readback_up_to_rounding (sq : float -> float) (rr fly atm : float) :
  sq_accurate sq ->
  Binary64.is_finite rr = true -> Binary64.is_finite fly = true ->
  Binary64.is_finite atm = true ->
  Rabs (to_R rr) <= bpow 97 -> Rabs (to_R fly) <= bpow 97 ->
  Rabs (to_R atm) <= bpow 97 ->
  Rabs (to_R (rr25D_iv (put_delta_iv_with sq (lit 75 2) rr fly atm)
                       (put_delta_iv_with sq (lit 25 2) rr fly atm))
        - to_R rr)
  <= bpow (-47) * (Rabs (to_R atm) + Rabs (to_R rr) + Rabs (to_R fly)) + bpow (-958) /\
  Rabs (to_R (fly25D_iv (put_delta_iv_with sq (lit 75 2) rr fly atm)
                        (put_delta_iv_with sq (lit 25 2) rr fly atm)
                        (put_delta_iv_with sq (lit 50 2) rr fly atm))
        - to_R fly)
  <= bpow (-47) * (Rabs (to_R atm) + Rabs (to_R rr) + Rabs (to_R fly)) + bpow (-958).
Proof. apply readback_error. Qed.

Lemma readback_up_to_rounding_witness :
  Rabs (to_R (rr25D_iv (put_delta_iv (lit 75 2) (lit (-6) 2) (lit 3 2) (lit 23 2))
                       (put_delta_iv (lit 25 2) (lit (-6) 2) (lit 3 2) (lit 23 2)))
        - to_R (lit (-6) 2))
  <= bpow (-47) * (Rabs (to_R (lit 23 2)) + Rabs (to_R (lit (-6) 2)) + Rabs (to_R (lit 3 2)))
     + bpow (-958) /\
  Rabs (to_R (fly25D_iv (put_delta_iv (lit 75 2) (lit (-6) 2) (lit 3 2) (lit 23 2))
                        (put_delta_iv (lit 25 2) (lit (-6) 2) (lit 3 2) (lit 23 2))
                        (put_delta_iv (lit 50 2) (lit (-6) 2) (lit 3 2) (lit 23 2)))
        - to_R (lit 3 2))
  <= bpow (-47) * (Rabs (to_R (lit 23 2)) + Rabs (to_R (lit (-6) 2)) + Rabs (to_R (lit 3 2)))
     + bpow (-958).
Proof.
  apply (readback_up_to_rounding (fun x => power x 2)
                                 (lit (-6) 2) (lit 3 2) (lit 23 2)).
  - apply product_accurate.
  - vm_compute; reflexivity.
  - vm_compute; reflexivity.
  - vm_compute; reflexivity.
  - to_R_value (lit (F := float) (-6) 2); cbn [cond_Ropp]; apply Rabs_le; num.
  - to_R_value (lit (F := float) 3 2); cbn [cond_Ropp]; apply Rabs_le; num.
  - to_R_value (lit (F := float) 23 2); cbn [cond_Ropp]; apply Rabs_le; num.
Defined.

Lemma in_unit_to_R (d : float) : in_unit d = true -> 0 < to_R d < 1.
Proof.
  unfold in_unit, to_R.
  destruct (Prim2SF d) as [s|s| |s m e]; try discriminate.
  destruct s; [discriminate|].
  intros H; apply andb_prop in H; destruct H as [Hm He].
  apply Z.ltb_lt in Hm; apply Z.leb_le in He.
  cbn [SF2R cond_Ropp].
  assert (H1 : 0 < IZR (Z.pos m)) by (apply IZR_lt; lia).
  assert (H2 : IZR (Z.pos m) < bpow 53).
  { rewrite bpow_IZR by lia; apply IZR_lt; exact Hm. }
  assert (H3 : bpow e <= bpow (-53)) by (apply bpow_le; exact He).
  pose proof (bpow_gt_0 e) as H4.
  pose proof (bpow_inv_l 53) as H5; change (- (53))%Z with (-53)%Z in H5.
  split; [apply Rmult_lt_0_compat; assumption|].
  apply Rlt_le_trans with (bpow 53 * bpow e).
  - apply Rmult_lt_compat_r; assumption.
  - rewrite <- H5, (Rmult_comm (bpow (-53))).
    apply Rmult_le_compat_l; [left; apply bpow_gt_0|exact H3].
Qed.

Lemma grid_in_unit : forallb in_unit grid_points = true.
Proof. vm_compute; reflexivity. Qed.

(** The error of one sample, against the sizes of the parameters. *)
Lemma sample_error (d rr fly atm : float) :
  Binary64.is_finite rr = true -> Binary64.is_finite fly = true ->
  Binary64.is_finite atm = true ->
  0 < to_R d < 1 ->
  Rabs (to_R rr) <= bpow 100 -> Rabs (to_R fly) <= bpow 100 ->
  Rabs (to_R atm) <= bpow 100 ->
  Binary64.is_finite (put_delta_iv d rr fly atm) = true /\
  Rabs (to_R (put_delta_iv d rr fly atm)
        - iv_spec (to_R d) (to_R rr) (to_R fly) (to_R atm))
  <= bpow (-50) * (Rabs (to_R atm) + Rabs (to_R rr) + 4 * Rabs (to_R fly))
     + bpow (-960).
Proof.
  intros Frr Ffly Fatm HD HQ HF HA.
  assert (Fd : Binary64.is_finite d = true) by (apply to_R_finite_nonzero; lra).
  destruct (evaluator_error (fun x => power x 2) d rr fly atm product_accurate
                            Fd Frr Ffly Fatm ltac:(lra) HQ HF HA) as [Fv Ev].
  rewrite put_delta_iv_with_product in Fv, Ev.
  split; [exact Fv|].
  set (D := to_R d) in *. set (Q := to_R rr) in *.
  set (F := to_R fly) in *. set (A := to_R atm) in *.
  assert (HO : Rabs (D - / 2) <= / 2) by (apply Rabs_le; lra).
  assert (H1 : Rabs (2 * Q * (D - / 2)) <= Rabs Q).
  { replace (Rabs Q) with (2 * Rabs Q * / 2) by field.
    apply Rabs_mul_le; [|exact HO].
    rewrite Rabs_mult, (Rabs_pos_eq 2) by lra; lra. }
  assert (H2 : Rabs (16 * F * ((D - / 2) * (D - / 2))) <= 4 * Rabs F).
  { replace (4 * Rabs F) with (16 * Rabs F * (/ 2 * / 2)) by field.
    apply Rabs_mul_le; [|apply Rabs_mul_le; exact HO].
    rewrite Rabs_mult, (Rabs_pos_eq 16) by lra; lra. }
  assert (bpow (-50) * (Rabs A + Rabs (2 * Q * (D - / 2))
                        + Rabs (16 * F * ((D - / 2) * (D - / 2))))
          <= bpow (-50) * (Rabs A + Rabs Q + 4 * Rabs F)).
  { apply Rmult_le_compat_l; [left; apply bpow_gt_0|lra]. }
  lra.
Qed.

(** X20.  For finite parameters of magnitude at most [2^100] the sampled
    curve holds no coerced zero: each of its 99 points pairs a delta
    strictly between 0 and 1 with the value of the evaluator there, which is
    finite and within [2^-50 * (|atm| + |rr| + 4*|fly|) + 2^-960] of the
    formula of the specification at that delta. *)
Theorem sampled_curve_accurate (rr fly atm : float) :
  Binary64.is_finite rr = true -> Binary64.is_finite fly = true ->
  Binary64.is_finite atm = true ->
  Rabs (to_R rr) <= bpow 100 -> Rabs (to_R fly) <= bpow 100 ->
  Rabs (to_R atm) <= bpow 100 ->
  exists pts,
    smile_curve rr fly atm = Ok pts /\
    List.length pts = 99%nat /\
    Forall (fun p : float * float =>
              0 < to_R (fst p) < 1 /\
              snd p = put_delta_iv (fst p) rr fly atm /\
              Binary64.is_finite (snd p) = true /\
              Rabs (to_R (snd p) - iv_spec (to_R (fst p)) (to_R rr) (to_R fly) (to_R atm))
              <= bpow (-50) * (Rabs (to_R atm) + Rabs (to_R rr) + 4 * Rabs (to_R fly))
                 + bpow (-960))
           pts.
Proof.
  intros Frr Ffly Fatm HQ HF HA.
  eexists; split; [apply smile_curve_ok|]; split; [reflexivity|].
  apply Forall_forall; intros pt Hpt.
  apply in_map_iff in Hpt; destruct Hpt as (d & <- & Hd); cbn [fst snd].
  pose proof (proj1 (forallb_forall _ _) grid_in_unit d Hd) as Hunit.
  pose proof (in_unit_to_R d Hunit) as HD.
  destruct (sample_error d rr fly atm Frr Ffly Fatm HD HQ HF HA) as [Fv Ev].
  cbv zeta; rewrite (finite_not_nan _ Fv).
  repeat split; try assumption; lra.
Qed.

Lemma sampled_curve_accurate_witness :
  exists pts,
    smile_curve (lit (-6) 2) (lit 3 2) (lit 23 2) = Ok pts /\
    List.length pts = 99%nat /\
    Forall (fun p : float * float =>
              0 < to_R (fst p) < 1 /\
              snd p = put_delta_iv (fst p) (lit (-6) 2) (lit 3 2) (lit 23 2) /\
              Binary64.is_finite (snd p) = true /\
              Rabs (to_R (snd p)
                    - iv_spec (to_R (fst p)) (to_R (lit (-6) 2)) (to_R (lit 3 2))
                              (to_R (lit 23 2)))
              <= bpow (-50) * (Rabs (to_R (lit 23 2)) + Rabs (to_R (lit (-6) 2))
                               + 4 * Rabs (to_R (lit 3 2)))
                 + bpow (-960))
           pts.
Proof.
  apply (sampled_curve_accurate (lit (-6) 2) (lit 3 2) (lit 23 2)).
  - vm_compute; reflexivity.
  - vm_compute; reflexivity.
  - vm_compute; reflexivity.
  - to_R_value (lit (F := float) (-6) 2); cbn [cond_Ropp]; apply Rabs_le; num.
  - to_R_value (lit (F := float) 3 2); cbn [cond_Ropp]; apply Rabs_le; num.
  - to_R_value (lit (F := float) 23 2); cbn [cond_Ropp]; apply Rabs_le; num.
Defined.

(** X21.  The mid volatility of a quote is the average of its bid and its
    ask up to rounding: a mid that is finite differs from
    [(bid_iv + ask_iv)/2] by at most [2^-51] of it, plus [2^-1075]. *)
Theorem mid_iv_rounded (q : Quote) :
  Binary64.is_finite (mid_iv (with_mid_iv q)) = true ->
  Rabs (to_R (mid_iv (with_mid_iv q)) - (to_R (bid_iv q) + to_R (ask_iv q)) / 2)
  <= bpow (-51) * Rabs ((to_R (bid_iv q) + to_R (ask_iv q)) / 2) + bpow (-1075).
Proof.
  unfold with_mid_iv; cbn [mid_iv add div of_int float_arith]; intros Fh.
  assert (F2 : Binary64.is_finite (Binary64.of_Z 2) = true) by (vm_compute; reflexivity).
  assert (N2 : to_R (Binary64.of_Z 2) <> 0) by (rewrite to_R_two; lra).
  pose proof (div_finite_inv _ _ F2 N2 Fh) as Fs.
  destruct (add_finite_inv _ _ Fs) as [Fb Fa].
  set (B := to_R (bid_iv q)) in *. set (A := to_R (ask_iv q)) in *.
  destruct (add_R _ _ Fb Fa) as [[_ Hs]|[Hnf _]]; [|congruence].
  fold B A in Hs.
  destruct (div_R _ (Binary64.of_Z 2) Fs F2 N2) as [[_ Hh]|[Hnf _]]; [|congruence].
  rewrite to_R_two in Hh.
  set (s := to_R (bid_iv q + ask_iv q)) in *.
  assert (Nh0 : near (s / 2) ((B + A) / 2) (Rabs ((B + A) / 2)) (bpow (-53)) 0).
  { unfold near.
    replace (s / 2 - (B + A) / 2) with ((s - (B + A)) * / 2) by field.
    unfold Rdiv; rewrite !Rabs_mult, (Rabs_pos_eq (/ 2)) by lra. lra. }
  pose proof (near_round _ _ _ _ _ _ _ _ Nh0 ltac:(lra) Hh
                         ltac:(left; apply bpow_gt_0)) as Nh.
  apply near_weaken with (k' := bpow (-51)) (a' := bpow (-1075)) in Nh;
    [exact Nh|apply Rabs_pos|num|num].
Qed.

Lemma mid_iv_rounded_witness :
  Rabs (to_R (mid_iv (with_mid_iv
                        (mk_quote "call" (of_int 7000) (lit 60 2) (lit 62 2)
                                  (of_int 6800) 1585900800000 (lit 45 2))))
        - (to_R (lit 60 2) + to_R (lit 62 2)) / 2)
  <= bpow (-51) * Rabs ((to_R (lit 60 2) + to_R (lit 62 2)) / 2) + bpow (-1075).
Proof.
  apply (mid_iv_rounded (mk_quote "call" (of_int 7000) (lit 60 2) (lit 62 2)
                                  (of_int 6800) 1585900800000 (lit 45 2))).
  vm_compute; reflexivity.
Defined.
End CurveRounded.
